(** * Naming clades in a placed tree: a model of [name_clades.py]

    The development embeds the two passes of the program, [name_clades]
    and [fill_taxonomy], as executable Rocq functions and proves
    properties of them.

    Conventions of the embedding:
    - a polars data frame is the list of its rows, in row order; a null
      cell is [None];
    - a Python [float] and a polars [Float64] are IEEE 754 binary64
      values ([spec_float] at precision 53): the arithmetic of the program
      (subtraction, multiplication, absolute value, comparisons) rounds as
      the standard library's specification of binary64 does;
    - a Python exception is a value of [exn]; a function that can raise
      returns a [result];
    - a string is a sequence of bytes ([string]); only ASCII case mapping
      and ASCII digits are modelled;
    - recursion of the source that need not terminate ([find_parents],
      [get_descendants]) takes fuel; the top-level functions supply a fuel
      that is shown (for [find_parents]) to be enough whenever the
      recursion of the source terminates. *)

From Stdlib Require Import ZArith SpecFloat String Ascii List Lia DecimalString DecimalPos.
From stdpp Require Import gmap strings list fin_maps sorting relations.

Local Open Scope string_scope.
Local Open Scope Z_scope.
Local Open Scope list_scope.

(** ** Exceptions and fallible computations *)

Inductive exn : Type :=
| IndexError | KeyError | ValueError | TypeError | AttributeError | RecursionError.

Inductive result (A : Type) : Type :=
| Ok (a : A)
| Raise (e : exn).
Arguments Ok {A} a.
Arguments Raise {A} e.

#[global] Instance result_ret : MRet result := λ A a, Ok a.
#[global] Instance result_bind : MBind result := λ A B f m,
  match m with Ok a => f a | Raise e => Raise e end.

(** [for x in l: acc = f acc x], stopping at the first exception. *)
Fixpoint foldE {A St : Type} (f : St → A → result St) (l : list A) (s : St) : result St :=
  match l with
  | [] => Ok s
  | x :: l' => s' ← f s x; foldE f l' s'
  end.

(** A list comprehension whose element expression can raise. *)
Fixpoint mapE {A B : Type} (f : A → result B) (l : list A) : result (list B) :=
  match l with
  | [] => Ok []
  | x :: l' => y ← f x; ys ← mapE f l'; Ok (y :: ys)
  end.

(** A list comprehension whose filter can raise. *)
Fixpoint filterE {A : Type} (f : A → result bool) (l : list A) : result (list A) :=
  match l with
  | [] => Ok []
  | x :: l' => b ← f x; ys ← filterE f l'; Ok (if (b : bool) then x :: ys else ys)
  end.

Definition of_option {A : Type} (e : exn) (o : option A) : result A :=
  match o with Some a => Ok a | None => Raise e end.

(** ** Floating point

    The values of the columns [RED], [Completeness] and [Contamination],
    and the cutoffs once [float(r)] has read them, are binary64 numbers in
    the normal form of [spec_float] (a finite number has the mantissa and
    the exponent that [valid_binary] accepts).  The operations round to
    nearest, ties to even, as those of Python and of polars do. *)

Abbreviation float := spec_float.

Module Float.

Definition prec : Z := 53.
Definition emax : Z := 1024.

(** [x - y] *)
Definition sub (x y : float) : float := SFsub prec emax x y.

(** [x * y] *)
Definition mul (x y : float) : float := SFmul prec emax x y.

(** [abs(x)] *)
Definition abs (x : float) : float := SFabs x.

(** [x < y]: false when either side is not a number. *)
Definition ltb (x y : float) : bool := SFltb x y.

(** The float of an integer: the integers of the program (0, 1 and 5)
    meet floats in subtractions, products and comparisons, where they
    count as the floats of the same value. *)
Definition of_int (n : Z) : float := binary_normalize prec emax n 0 false.

(** [float(s)] for a decimal literal [s] that reads [n / 10^k]: the
    binary64 number nearest to the quotient. *)
Definition of_decimal (n : positive) (k : nat) : float :=
  SFdiv prec emax (S754_finite false n 0) (S754_finite false (Z.to_pos (10 ^ Z.of_nat k)) 0).

(** The order in which polars sorts a [Float64] column: the order of the
    numbers, with not-a-number equal to itself and above every number. *)
Definition compare (x y : float) : comparison :=
  match SFcompare x y with
  | Some c => c
  | None =>
      match x, y with
      | S754_nan, S754_nan => Eq
      | S754_nan, _ => Gt
      | _, _ => Lt
      end
  end.

End Float.

(** ** Strings *)

Module Str.

Definition eqb (s t : string) : bool := bool_decide (s = t).

(** [s.split(c)[0]]: the part of [s] before the first [c]. *)
Fixpoint first_piece (c : ascii) (s : string) : string :=
  match s with
  | EmptyString => EmptyString
  | String a s' => if Ascii.eqb a c then EmptyString else String a (first_piece c s')
  end.

Definition lower_ascii (a : ascii) : ascii :=
  let n := nat_of_ascii a in
  if ((65 <=? n) && (n <=? 90))%nat then ascii_of_nat (n + 32) else a.

Fixpoint lower (s : string) : string :=
  match s with
  | EmptyString => EmptyString
  | String a s' => String (lower_ascii a) (lower s')
  end.

(** [pat in s] *)
Definition contains (pat s : string) : bool :=
  match String.index 0 pat s with Some _ => true | None => false end.

(** [s[n:]] *)
Definition drop (n : nat) (s : string) : string :=
  String.substring n (String.length s - n) s.

(** [s.split(sep)[0]] for a separator string. *)
Definition before (sep s : string) : string :=
  match String.index 0 sep s with
  | Some i => String.substring 0 i s
  | None => s
  end.

(** [s.split(c)] for a one-character separator. *)
Fixpoint split (c : ascii) (s : string) : list string :=
  match s with
  | EmptyString => [EmptyString]
  | String a s' =>
      if Ascii.eqb a c then EmptyString :: split c s'
      else match split c s' with
           | [] => [String a EmptyString]
           | w :: ws => String a w :: ws
           end
  end.

(** [c.join(l)] *)
Fixpoint join (sep : string) (l : list string) : string :=
  match l with
  | [] => EmptyString
  | [w] => w
  | w :: ws => w +:+ sep +:+ join sep ws
  end.

(** The capture group of the regular expression made of a greedy
    any-characters group followed by [pat], searched in [s]: the part of
    [s] before the last occurrence of [pat]; [None] (a null) when [pat]
    does not occur.  [pat] is read literally and [s] has one line. *)
Fixpoint extract_before_last (pat s : string) : option string :=
  match s with
  | EmptyString => if String.prefix pat EmptyString then Some EmptyString else None
  | String a s' =>
      match extract_before_last pat s' with
      | Some r => Some (String a r)
      | None => if String.prefix pat s then Some EmptyString else None
      end
  end.

Definition is_digit (a : ascii) : bool :=
  let n := nat_of_ascii a in ((48 <=? n) && (n <=? 57))%nat.

Fixpoint all_digits (s : string) : bool :=
  match s with
  | EmptyString => true
  | String a s' => is_digit a && all_digits s'
  end.

(** [str(n)] for an integer. *)
Definition of_Z (n : Z) : string := NilZero.string_of_int (Z.to_int n).

(** [int(s)]: an optional sign and decimal digits.  (Python also accepts
    surrounding blanks and underscores between digits.) *)
Definition digits_to_Z (d : string) : result Z :=
  match d with
  | EmptyString => Raise ValueError
  | _ =>
      if all_digits d then
        match NilZero.int_of_string d with
        | Some i => Ok (Z.of_int i)
        | None => Raise ValueError
        end
      else Raise ValueError
  end.

Definition to_Z (s : string) : result Z :=
  match s with
  | String "-" d => n ← digits_to_Z d; Ok (- n)
  | String "+" d => digits_to_Z d
  | _ => digits_to_Z s
  end.

(** Byte-wise lexicographic order, as polars orders strings. *)
Definition leb (s t : string) : bool :=
  match String.compare s t with Gt => false | _ => true end.

End Str.

(** ** Sorting

    A stable insertion sort stands for [DataFrame.sort]: the program only
    sorts on keys that are total on the rows it meets, up to rows that are
    equal in every column that is used afterwards. *)

Section Sort.
Context {A : Type} (le : A → A → bool).

Fixpoint insert_sorted (x : A) (l : list A) : list A :=
  match l with
  | [] => [x]
  | y :: l' => if le x y then x :: l else y :: insert_sorted x l'
  end.

Fixpoint sort (l : list A) : list A :=
  match l with
  | [] => []
  | x :: l' => insert_sorted x (sort l')
  end.

End Sort.

(** ** The input tables *)

(** A row of the tree table; the columns are those the program reads. *)
Record tree_row : Type := TreeRow {
  parent : Z;
  node : Z;
  nongtdb_group : option string;
  genome : option string;
  magset : option string;
  RED : option float;
  novelty_red : option string;
}.

(** A row of the genome metadata table. *)
Record metadata_row : Type := MetadataRow {
  Name : string;
  Completeness : float;
  Contamination : float;
}.

(** ** The ancestor chain *)

(** [parent_dict = {row[1]: row[0] for row in tree_df.iter_rows()}]: a later
    row of the same node replaces an earlier one. *)
Definition parent_dict (tree_df : list tree_row) : gmap Z Z :=
  foldl (λ m r, <[node r := parent r]> m) ∅ tree_df.

(** [find_parents], with the recursion depth bounded by [fuel]; [None] is
    the running out of fuel. *)
Fixpoint find_parents_fuel (pd : gmap Z Z) (fuel : nat) (n : Z) : option (list Z) :=
  match fuel with
  | O => None
  | S fuel' =>
      match pd !! n with
      | None => Some []
      | Some p =>
          if bool_decide (n = p) then Some []
          else (p ::.) <$> find_parents_fuel pd fuel' p
      end
  end.

(** A chain of distinct nodes has at most [size pd] links, so this fuel is
    exhausted only on a cycle, where the source recurses until Python
    raises [RecursionError]. *)
Definition find_parents (pd : gmap Z Z) (n : Z) : result (list Z) :=
  of_option RecursionError (find_parents_fuel pd (S (size pd)) n).

(** [chain_to_root pd n l]: following the parent links from [n] reaches a
    self-parent root, and [l] lists the nodes met on the way, from the
    immediate parent of [n] up to and including the root. *)
Inductive chain_to_root (pd : gmap Z Z) : Z → list Z → Prop :=
| chain_root r :
    pd !! r = Some r → chain_to_root pd r []
| chain_step n p l :
    pd !! n = Some p → n ≠ p → chain_to_root pd p l → chain_to_root pd n (p :: l).

(** ** Ranks, slots and the output tables *)

(** The keys of [genome_taxonomy], in the order of the dictionary. *)
Inductive taxon : Type := phylum | class | order | family | genus | species.

#[global] Instance taxon_eq_dec : EqDecision taxon.
Proof. solve_decision. Defined.

Definition all_taxa : list taxon := [phylum; class; order; family; genus; species].

Definition taxon_index (t : taxon) : nat :=
  match t with
  | phylum => 0 | class => 1 | order => 2 | family => 3 | genus => 4 | species => 5
  end.

#[global] Instance taxon_countable : Countable taxon.
Proof.
  refine (inj_countable' taxon_index (λ i, default phylum (all_taxa !! i)) _).
  by intros [].
Defined.

Definition taxon_name (t : taxon) : string :=
  match t with
  | phylum => "phylum" | class => "class" | order => "order"
  | family => "family" | genus => "genus" | species => "species"
  end.

Definition taxon_of_string (s : string) : option taxon :=
  head (filter (λ t, taxon_name t = s) all_taxa).

(** [taxa = list(genome_taxonomy.keys())] *)
Definition taxa : list string := taxon_name <$> all_taxa.

(** [taxa.index(s)] *)
Definition taxa_index (s : string) : result nat :=
  t ← of_option ValueError (taxon_of_string s); Ok (taxon_index t).

(** [taxa[i:j]] *)
Definition taxa_slice (i j : nat) : list string := take (j - i) (drop i taxa).

(** [taxon[0] + "__" + genome] *)
Definition mint (t : taxon) (g : string) : string :=
  String.substring 0 1 (taxon_name t) +:+ "__" +:+ g.

(** A value of [genome_taxonomy]: the empty string, a pair of an anchor node
    (or [None]) and a clade name, or the pair of ["GTDB"] and a node id. *)
Inductive slot : Type :=
| Unset
| Clade (anchor : option Z) (clade_name : string)
| GTDB (n : Z).

#[global] Instance slot_eq_dec : EqDecision slot.
Proof. solve_decision. Defined.

(** [genome_taxonomy[t] = v] *)
Definition set_slot (gt : taxon → slot) (t : taxon) (v : slot) : taxon → slot :=
  λ t', if bool_decide (t' = t) then v else gt t'.

(** A row of the node-naming table: node, clade, genome_rep. *)
Definition node_name : Type := option Z * string * string.

Definition clade_of (r : node_name) : string := r.1.2.

(** The ledger [node_taxonomy]: node id to rank to clade name. *)
Abbreviation ledger := (gmap Z (gmap taxon string)).

(** ** Canonical median RED values *)

(** The strings ["0.3280941769231098"], ["0.449727838796469"],
    ["0.6083500718998613"], ["0.7576141066814935"], ["0.9220350796053899"]
    as [float] reads them. *)
Definition BAC_RED_CUTOFFS : list float :=
  [Float.of_decimal 3280941769231098 16; Float.of_decimal 449727838796469 15;
   Float.of_decimal 6083500718998613 16; Float.of_decimal 7576141066814935 16;
   Float.of_decimal 9220350796053899 16].

(** The strings ["0.2128708845277663"], ["0.35878546884559126"],
    ["0.5316295929627715"], ["0.7250725361353227"], ["0.9069458981600348"]
    as [float] reads them. *)
Definition ARC_RED_CUTOFFS : list float :=
  [Float.of_decimal 2128708845277663 16; Float.of_decimal 35878546884559126 17;
   Float.of_decimal 5316295929627715 16; Float.of_decimal 7250725361353227 16;
   Float.of_decimal 9069458981600348 16].

Definition MEDIAN_RED_TAXONS : list string :=
  ["phylum"; "class"; "order"; "family"; "genus"].

(** An empty [red_cutoffs] stands for the default argument; the cutoffs are
    given as [float(r)] reads them, and the median of species is the
    integer 1. *)
Definition median_reds (domain : string) (red_cutoffs : list float) : list (string * float) :=
  let cutoffs :=
    match red_cutoffs with
    | [] => if bool_decide (domain = "d__Bacteria") then BAC_RED_CUTOFFS else ARC_RED_CUTOFFS
    | _ => red_cutoffs
    end in
  zip MEDIAN_RED_TAXONS cutoffs ++ [("species", Float.of_int 1)].

(** A dictionary lookup [d[k]] in an association list. *)
Definition dict_get {V : Type} (d : list (string * V)) (k : string) : result V :=
  of_option KeyError (snd <$> head (filter (λ kv, kv.1 = k) d)).

(** [{t: i for i, t in enumerate(d.keys())}[k]] *)
Fixpoint key_index {V : Type} (d : list (string * V)) (k : string) : option nat :=
  match d with
  | [] => None
  | kv :: d' => if bool_decide (kv.1 = k) then Some O else S <$> key_index d' k
  end.

(** [abs(red - median_red)], as the program computes it: the difference is
    rounded to a float before its sign is dropped. *)
Definition red_distance (red median_red : float) : float :=
  Float.abs (Float.sub red median_red).

(** [abs(child_red - median_red) < abs(parent_red - median_red)] *)
Definition child_red_closer (child_red parent_red median_red : float) : bool :=
  Float.ltb (red_distance child_red median_red) (red_distance parent_red median_red).

(** ** The genome order *)

(** The query genomes joined with their metadata and ordered by quality,
    then by genome id, both descending. *)

(** [pl.col("completeness") - 5 * pl.col("contamination")]: the product is
    rounded, then the difference. *)
Definition quality (m : metadata_row) : float :=
  Float.sub (Completeness m) (Float.mul (Float.of_int 5) (Contamination m)).

Definition is_query_leaf (r : tree_row) : bool :=
  match magset r with
  | Some m => negb (Str.eqb m "GTDB")
  | None => false
  end.

(** An inner join on the genome column: a null never matches. *)
Definition join_metadata (leaves : list (option string)) (genome_metadata : list metadata_row)
  : list (string * float) :=
  leaves ≫= λ og,
    match og with
    | None => []
    | Some g => (λ m, (g, quality m)) <$> filter (λ m, Name m = g) genome_metadata
    end.

Definition quality_order (a b : string * float) : bool :=
  match Float.compare a.2 b.2 with
  | Gt => true
  | Lt => false
  | Eq => Str.leb b.1 a.1
  end.

Definition genome_order (tree_df : list tree_row) (genome_metadata : list metadata_row)
  : list string :=
  fst <$> sort quality_order
            (join_metadata (genome <$> List.filter is_query_leaf tree_df) genome_metadata).

(** ** [name_clades]: the helpers closed over the tree table *)

Section tree.
Variable tree_df : list tree_row.

(** [df.filter(pl.col("node") == n)] *)
Definition rows_of (n : Z) : list tree_row := filter (λ r, node r = n) tree_df.

(** [df.get_column("novelty_red").to_list()[0].split(" ")[0].split("/")[0].lower()];
    a null label raises [AttributeError]. *)
Definition get_novelty_red (df : list tree_row) : result string :=
  r ← of_option IndexError (head df);
  s ← of_option AttributeError (novelty_red r);
  Ok (Str.lower (Str.first_piece "/" (Str.first_piece " " s))).

(** The RED recorded on the row of the parent of [n]; the integer 0 at a
    root. *)
Definition get_node_red (n : Z) : result float :=
  r ← of_option IndexError (head (rows_of n));
  if bool_decide (parent r = n) then Ok (Float.of_int 0)
  else
    rp ← of_option IndexError (head (rows_of (parent r)));
    of_option TypeError (RED rp).

(** The RED recorded on the row of [n] itself. *)
Definition get_child_red (n : Z) : result float :=
  r ← of_option IndexError (head (rows_of n));
  of_option TypeError (RED r).

Definition is_nongtdb (r : tree_row) : bool :=
  match nongtdb_group r with
  | Some s => negb (Str.eqb s "gtdb")
  | None => false
  end.

(** The pair [(novelty_red, novelty_red_self)]: the label of the parent's
    row and the label of the node's own row. *)
Definition get_info (n : Z) : result (string * string) :=
  let df_self := rows_of n in
  r ← of_option IndexError (head df_self);
  let df_parent := rows_of (parent r) in
  let labels :=
    if (0 <? length (List.filter is_nongtdb df_self))%nat then
      novelty_red_self ← get_novelty_red df_self;
      novelty ← get_novelty_red df_parent;
      Ok (novelty, novelty_red_self)
    else
      novelty_red_self ← get_novelty_red df_self;
      Ok ("", novelty_red_self) in
  match labels with
  | Ok b => Ok b
  | Raise AttributeError | Raise IndexError => Ok ("", "")
  | Raise e => Raise e
  end.

Definition get_vying_children (p : Z) (novelty_level : string) (child : option (Z * list string))
  : result (list Z) :=
  let current_child := match child with Some c => c.1 | None => -1 end in
  let immediate_children :=
    node <$> filter (λ r, genome r = None ∧ parent r = p ∧ node r ≠ p ∧ node r ≠ current_child)
               tree_df in
  filterE (λ c, i ← get_info c; Ok (Str.eqb i.1 novelty_level)) immediate_children.

End tree.

(** ** [name_clades]: the walk over the ancestors of one genome *)

(** What the loop over [parents] mutates. *)
Record walk_state : Type := WalkState {
  genome_taxonomy : taxon → slot;
  child : option (Z * list string);
  node_taxonomy : ledger;
  nodes_output : list node_name;
}.

Definition is_unset (s : slot) : bool :=
  match s with Unset => true | _ => false end.

(** One turn of [for novelty_red in child[1]]: the state is the genome
    taxonomy, the node-naming rows and [taxon_taxonomy]. *)
Definition name_rank (g : string) (c0 : Z)
    (acc : (taxon → slot) * list node_name * gmap taxon string) (novelty_red : string)
  : result ((taxon → slot) * list node_name * gmap taxon string) :=
  let '(gt, out, taxon_taxonomy) := acc in
  t ← of_option KeyError (taxon_of_string novelty_red);
  if is_unset (gt t) && negb (Str.eqb novelty_red "species") then
    let clade_name := mint t g in
    Ok (set_slot gt t (Clade (Some c0) clade_name),
        (out ++ [(Some c0, clade_name, g)]),
        <[t := clade_name]> taxon_taxonomy)
  else Ok acc.

(** The block [if name_child:]. *)
Definition name_child_ranks (g : string) (c : Z * list string) (st : walk_state)
  : result walk_state :=
  '(gt, out, taxon_taxonomy) ← foldE (name_rank g c.1) c.2
                                  (genome_taxonomy st, nodes_output st, ∅);
  Ok {| genome_taxonomy := gt;
        child := child st;
        node_taxonomy :=
          if bool_decide (taxon_taxonomy = ∅) then node_taxonomy st
          else <[c.1 := taxon_taxonomy]> (node_taxonomy st);
        nodes_output := out |}.

(** [for taxon, value in parent_info.items(): genome_taxonomy[taxon] = (parent, value)] *)
Definition copy_ledger (p : Z) (parent_info : gmap taxon string) (gt : taxon → slot)
  : taxon → slot :=
  λ t, match parent_info !! t with
       | Some value => Clade (Some p) value
       | None => gt t
       end.

Section walk.
Variable tree_df : list tree_row.
Variable median : list (string * float).
Variable g : string.

(** The head of the loop body: [novelty_reds] and the first value of
    [skip_parent]. *)
Definition novelty_range (p : Z) (novelty_bounds : string * string)
    (ch : option (Z * list string)) : result (list string * bool) :=
  if bool_decide (novelty_bounds.1 = novelty_bounds.2) then
    let novelty_reds := [novelty_bounds.1] in
    vying_children ← get_vying_children tree_df p novelty_bounds.1 ch;
    children_red ← mapE (get_node_red tree_df) vying_children;
    parent_red ← get_node_red tree_df p;
    median_red ← dict_get median novelty_bounds.1;
    Ok (novelty_reds,
        existsb (λ c, child_red_closer c parent_red median_red) children_red)
  else if negb (Str.eqb novelty_bounds.1 "") then
    i ← taxa_index novelty_bounds.1;
    j ← taxa_index novelty_bounds.2;
    Ok (taxa_slice i j, false)
  else Ok ([""], false).

(** The block [if child:], for a pending candidate [c]: the candidate is
    named or dropped, and [skip_parent] may change. *)
Definition resolve_child (p : Z) (novelty_bounds : string * string)
    (novelty_reds : list string) (skip_parent : bool) (c : Z * list string)
    (st : walk_state) : result (walk_state * bool) :=
  c10 ← of_option IndexError (head c.2);
  n0 ← of_option IndexError (head novelty_reds);
  '(c', name_child, skip_parent') ←
    (if Str.eqb c10 n0 || (Str.eqb n0 "" && Str.eqb c10 novelty_bounds.2) then
       child_red ← get_node_red tree_df c.1;
       parent_red ← get_node_red tree_df p;
       median_red ← dict_get median c10;
       if child_red_closer child_red parent_red median_red then
         Ok (c, true, negb (Str.eqb n0 ""))
       else
         let new_child := (c.1, tail c.2) in
         Ok (new_child, (0 <? length (tail new_child.2))%nat, skip_parent)
     else Ok (c, true, skip_parent));
  st' ← (if (name_child : bool) then name_child_ranks g c' st else Ok st);
  Ok ({| genome_taxonomy := genome_taxonomy st';
         child := None;
         node_taxonomy := node_taxonomy st';
         nodes_output := nodes_output st' |}, skip_parent').

(** The [try] block and its handler; the flag is [true] on [break]. *)
Definition visit_parent (p : Z) (novelty_bounds : string * string)
    (novelty_reds : list string) (st : walk_state) : result (walk_state * bool) :=
  match node_taxonomy st !! p with
  | Some parent_info =>
      Ok ({| genome_taxonomy := copy_ledger p parent_info (genome_taxonomy st);
             child := child st;
             node_taxonomy := node_taxonomy st;
             nodes_output := nodes_output st |}, true)
  | None =>
      n0 ← of_option IndexError (head novelty_reds);
      if Str.eqb n0 "" then
        i ← taxa_index novelty_bounds.2;
        child_red ← get_child_red tree_df p;
        parent_red ← get_node_red tree_df p;
        median_red ← dict_get median novelty_bounds.2;
        let novelty_index :=
          if child_red_closer child_red parent_red median_red then i else S i in
        match novelty_index with
        | O => Ok (st, true)
        | S k =>
            gtdb_novelty ← of_option IndexError (all_taxa !! k);
            Ok ({| genome_taxonomy := set_slot (genome_taxonomy st) gtdb_novelty (GTDB p);
                   child := child st;
                   node_taxonomy := node_taxonomy st;
                   nodes_output := nodes_output st |}, true)
        end
      else
        Ok ({| genome_taxonomy := genome_taxonomy st;
               child := Some (p, novelty_reds);
               node_taxonomy := node_taxonomy st;
               nodes_output := nodes_output st |}, false)
  end.

(** The body of [for parent in parents]; the flag is [true] on [break]. *)
Definition walk_step (pn : Z * (string * string)) (st : walk_state)
  : result (walk_state * bool) :=
  let '(p, novelty_bounds) := pn in
  '(novelty_reds, skip_parent) ← novelty_range p novelty_bounds (child st);
  '(st1, skip_parent1) ←
    match child st with
    | Some c => resolve_child p novelty_bounds novelty_reds skip_parent c st
    | None => Ok (st, skip_parent)
    end;
  if (skip_parent1 : bool) then Ok (st1, false)
  else visit_parent p novelty_bounds novelty_reds st1.

Fixpoint walk (parent_novelty : list (Z * (string * string))) (st : walk_state)
  : result walk_state :=
  match parent_novelty with
  | [] => Ok st
  | pn :: rest =>
      '(st', stop) ← walk_step pn st;
      if (stop : bool) then Ok st' else walk rest st'
  end.

End walk.

(** ** [name_clades]: inheriting the higher ranks of a trailblazer *)

(** The first non-empty entry of [genome_taxonomy], with its position. *)
Definition first_set (gt : taxon → slot) : option (nat * slot) :=
  head (List.filter (λ e, negb (is_unset e.2)) (imap (λ i t, (i, gt t)) all_taxa)).

(** [[g for g in genome_taxonomy.keys()][k]]: a negative index counts from
    the end of the list. *)
Definition key_at (k : Z) : result taxon :=
  let i := if k <? 0 then k + 6 else k in
  if (0 <=? i) && (i <? 6) then of_option IndexError (all_taxa !! Z.to_nat i)
  else Raise IndexError.

(** One turn of [for i, taxon in enumerate(reversed(ancestral_taxonomy.split(";")))]. *)
Definition inherit_step (highest_index : nat) (gt : taxon → slot) (it : nat * string)
  : result (taxon → slot) :=
  let '(i, name) := it in
  if String.prefix "d__" name then Ok gt
  else
    c ← of_option IndexError (String.get 0 name);
    v ← (if Str.is_digit c then n ← Str.to_Z name; Ok (GTDB n) else Ok (Clade None name));
    t ← key_at (Z.of_nat highest_index - 1 - Z.of_nat i);
    Ok (set_slot gt t v).

(** The block after the walk that copies the ranks above the highest named
    one from the taxonomy string of the genome that named it. *)
Definition inherit_ancestors (out : list node_name) (genomes_output : list (string * string))
    (gt : taxon → slot) : result (taxon → slot) :=
  match first_set gt with
  | Some (S k, Clade _ name) =>
      trailblazer ← of_option IndexError (head (filter (λ r : node_name, clade_of r = name) out));
      let trailblazer_genome := trailblazer.2 in
      trailblazer_taxonomy ←
        of_option IndexError
          (snd <$> head (filter (λ r : string * string, r.1 = trailblazer_genome) genomes_output));
      let ancestral_taxonomy := Str.before (";" +:+ name) trailblazer_taxonomy in
      foldE (inherit_step (S k)) (imap pair (reverse (Str.split ";" ancestral_taxonomy))) gt
  | _ => Ok gt
  end.

(** ** [name_clades]: filling the remaining ranks *)

(** What the loop [for taxon, clade in genome_taxonomy.items()] mutates. *)
Record fill_state : Type := FillState {
  naming : walk_state;
  taxon_fill : taxon → bool;
  species_name : string;
}.

Section fill.
Variable median : list (string * float).
Variable g : string.
Variable parent_novelty : list (Z * (string * string)).
Variable prenamed_taxons : list taxon.

(** [taxon_levels[k]] *)
Definition taxon_levels (k : string) : result nat :=
  of_option KeyError (key_index median k).

Definition is_mid_taxa (target_taxon : taxon) : result bool :=
  prenamed_levels ← mapE (λ t, taxon_levels (taxon_name t)) prenamed_taxons;
  target_level ← taxon_levels (taxon_name target_taxon);
  Ok (existsb (λ l, target_level <? l)%nat prenamed_levels).

Definition not_gtdb (taxon_level : string * string) : bool :=
  negb (Str.eqb taxon_level.1 "").

Definition within_taxon_bounds (taxon_level : string * string) (target_taxon : taxon)
  : result bool :=
  target_level ← taxon_levels (taxon_name target_taxon);
  l0 ← taxon_levels taxon_level.1;
  if (l0 <=? target_level)%nat then
    l1 ← taxon_levels taxon_level.2;
    Ok (target_level <=? l1)%nat
  else Ok false.

(** The keys of a dictionary of the ledger. *)
Definition ledger_keys (d : gmap taxon string) : list taxon :=
  filter (λ t, is_Some (d !! t)) all_taxa.

Definition is_lower_node (L : ledger) (n : Z) (t : taxon) : result bool :=
  target_level ← taxon_levels (taxon_name t);
  match L !! n with
  | None => Ok true
  | Some d =>
      match mapE (λ k, taxon_levels (taxon_name k)) (ledger_keys d) with
      | Ok node_levels => Ok (forallb (λ l, target_level <? l)%nat node_levels)
      | Raise KeyError => Ok true
      | Raise e => Raise e
      end
  end.

Definition is_viable (L : ledger) (t : taxon) (pt : Z * (string * string)) : result bool :=
  if not_gtdb pt.2 then
    w ← within_taxon_bounds pt.2 t;
    if (w : bool) then is_lower_node L pt.1 t else Ok false
  else Ok false.

(** [node_taxonomy[n][t] = c], creating the dictionary of [n] if needed. *)
Definition ledger_set (L : ledger) (n : Z) (t : taxon) (c : string) : ledger :=
  match L !! n with
  | Some d => <[n := <[t := c]> d]> L
  | None => <[n := {[t := c]}]> L
  end.

(** The end of the loop body: the species name follows the genus. *)
Definition note_genus (t : taxon) (clade_name : string) (fs : fill_state) : result fill_state :=
  if bool_decide (t = genus) && negb (Str.eqb clade_name "") then
    genus_index ← of_option ValueError (String.index 0 "g__" clade_name);
    let genus_name := Str.drop (genus_index + 1) clade_name in
    Ok {| naming := naming fs;
          taxon_fill := taxon_fill fs;
          species_name := "s" +:+ genus_name +:+ " " +:+ g |}
  else Ok fs.

(** A rank without a name receives [clade_name], anchored on the last
    viable ancestor if there is one. *)
Definition place (t : taxon) (clade_name : string) (fs : fill_state) : result fill_state :=
  let st := naming fs in
  mid ← (if bool_decide (t = species) then Ok false else is_mid_taxa t);
  viable_parents ←
    (if (mid : bool) then filterE (is_viable (node_taxonomy st) t) parent_novelty
     else Ok []);
  let clade_node := fst <$> last viable_parents in
  let L :=
    match clade_node with
    | Some n => ledger_set (node_taxonomy st) n t clade_name
    | None => node_taxonomy st
    end in
  note_genus t clade_name
    {| naming := {| genome_taxonomy := set_slot (genome_taxonomy st) t (Clade clade_node clade_name);
                    child := child st;
                    node_taxonomy := L;
                    nodes_output := (nodes_output st ++ [(clade_node, clade_name, g)]) |};
       taxon_fill := taxon_fill fs;
       species_name := species_name fs |}.

(** The body of [for taxon, clade in genome_taxonomy.items()]. *)
Definition fill_step (fs : fill_state) (t : taxon) : result fill_state :=
  match genome_taxonomy (naming fs) t with
  | GTDB _ =>
      Ok {| naming := naming fs; taxon_fill := λ _, true; species_name := species_name fs |}
  | Clade _ name =>
      note_genus t name
        {| naming := naming fs;
           taxon_fill := λ t', negb (Str.contains (String.substring 0 1 (taxon_name t') +:+ "__") name);
           species_name := species_name fs |}
  | Unset =>
      if taxon_fill fs t then
        if bool_decide (t = species) then
          if Str.eqb (species_name fs) "" then Ok fs
          else place t (species_name fs) fs
        else place t (mint t g) fs
      else note_genus t "" fs
  end.

End fill.

(** The final rendering of the taxonomy string of a genome. *)
Definition render_step (gt : taxon → slot) (taxonomy : string) (t : taxon) : string :=
  match gt t with
  | Clade _ name => taxonomy +:+ ";" +:+ name
  | GTDB n => Str.of_Z n
  | Unset => taxonomy
  end.

Definition render (domain : string) (gt : taxon → slot) : string :=
  foldl (render_step gt) domain all_taxa.

(** ** [name_clades] *)

(** What survives from one genome to the next. *)
Record run_state : Type := RunState {
  run_ledger : ledger;
  run_nodes : list node_name;
  run_genomes : list (string * string);
}.

Definition all_unset (gt : taxon → slot) : bool :=
  forallb (λ t, is_unset (gt t)) all_taxa.

Section name_clades.
Variable tree_df : list tree_row.
Variable genome_metadata : list metadata_row.
Variable domain : string.
Variable red_cutoffs : list float.

(** The rows of [tree_genomes]: genome and ancestor chain, in genome order.
    The chain of every row is computed before the rows are sorted. *)
Definition tree_genomes : result (list (string * list Z)) :=
  let order := genome_order tree_df genome_metadata in
  let joined :=
    tree_df ≫= λ r,
      match genome r with
      | None => []
      | Some g => (λ ig, (ig.1, g, node r)) <$> filter (λ ig, ig.2 = g) (imap pair order)
      end in
  rows ← mapE (λ e : nat * string * Z,
                 parents ← find_parents (parent_dict tree_df) e.2; Ok (e.1.1, (e.1.2, parents)))
              joined;
  Ok (snd <$> sort (λ a b : nat * (string * list Z), a.1 <=? b.1)%nat rows).

(** The first half of the body of the loop over the genomes: the novelty
    bounds of the ancestors and the walk.  [parents] has no repetition,
    so the dictionary [parent_novelty] is the list of its items. *)
Definition walk_genome (rs : run_state) (g : string) (parents : list Z)
  : result (list (Z * (string * string)) * walk_state) :=
  parent_novelty ← mapE (λ p, i ← get_info tree_df p; Ok (p, i)) parents;
  st ← walk tree_df (median_reds domain red_cutoffs) g parent_novelty
          {| genome_taxonomy := λ _, Unset;
             child := None;
             node_taxonomy := run_ledger rs;
             nodes_output := run_nodes rs |};
  Ok (parent_novelty, st).

(** The second half: the ranks inherited, the ranks filled, the string
    rendered. *)
Definition assemble_genome (rs : run_state) (g : string)
    (parent_novelty : list (Z * (string * string))) (st : walk_state) : result run_state :=
  gt ← inherit_ancestors (nodes_output st) (run_genomes rs) (genome_taxonomy st);
  let prenamed_taxons := List.filter (λ t, negb (is_unset (gt t))) all_taxa in
  fs ← foldE (fill_step (median_reds domain red_cutoffs) g parent_novelty prenamed_taxons)
          all_taxa
          {| naming := {| genome_taxonomy := gt;
                          child := child st;
                          node_taxonomy := node_taxonomy st;
                          nodes_output := nodes_output st |};
             taxon_fill := λ _, all_unset (genome_taxonomy st);
             species_name := "" |};
  let taxonomy := render domain (genome_taxonomy (naming fs)) in
  Ok {| run_ledger := node_taxonomy (naming fs);
        run_nodes := nodes_output (naming fs);
        run_genomes := run_genomes rs ++ [(g, taxonomy)] |}.

Definition name_genome (rs : run_state) (row : string * list Z) : result run_state :=
  ws ← walk_genome rs row.1 row.2;
  assemble_genome rs row.1 ws.1 ws.2.

Definition name_all : result run_state :=
  rows ← tree_genomes;
  foldE name_genome rows {| run_ledger := ∅; run_nodes := []; run_genomes := [] |}.

Definition by_clade (a b : node_name) : bool := Str.leb (clade_of a) (clade_of b).

(** The two tables returned: genome taxonomies, and node names sorted by
    clade. *)
Definition name_clades : result (list (string * string) * list node_name) :=
  rs ← name_all;
  Ok (run_genomes rs, sort by_clade (run_nodes rs)).

End name_clades.

(** ** [fill_taxonomy] *)

(** [get_descendants], with the recursion depth bounded by [fuel]. *)
Fixpoint get_descendants_fuel (fuel : nat) (df : list tree_row) (parent_node : Z)
  : result (list Z) :=
  match fuel with
  | O => Raise RecursionError
  | S fuel' =>
      let children := node <$> filter (λ r, parent r = parent_node) df in
      ds ← mapE (λ c, d ← get_descendants_fuel fuel' df c; Ok (c :: d)) children;
      Ok (concat ds)
  end.

(** A descent through more rows than the table has repeats a row, and the
    source then recurses until Python raises [RecursionError]. *)
Definition get_descendants (df : list tree_row) (parent_node : Z) : result (list Z) :=
  get_descendants_fuel (S (length df)) df parent_node.

(** [group_by(...).count()], the groups in the order of their first row. *)
Fixpoint bump {K : Type} `{EqDecision K} (k : K) (gs : list (K * nat)) : list (K * nat) :=
  match gs with
  | [] => [(k, 1%nat)]
  | kc :: gs' => if bool_decide (kc.1 = k) then (kc.1, S kc.2) :: gs' else kc :: bump k gs'
  end.

Definition group_counts {K : Type} `{EqDecision K} (l : list K) : list (K * nat) :=
  foldl (λ gs k, bump k gs) [] l.

Section fill_taxonomy.
(** polars does not fix the order in which [group_by] yields the groups:
    the order is a parameter, any rearrangement of the groups. *)
Variable group_order : list (option string * nat) → list (option string * nat).

Variable tree_df : list tree_row.
Variable gtdb_taxonomy : list (string * string).

(** The column [taxonomy] after the join and the extraction: one
    (possibly null) prefix for each reference leaf below [n]. *)
Definition descendant_prefixes (n : Z) (limit : string) : result (list (option string)) :=
  descendants ← get_descendants tree_df n;
  let rows := filter (λ r, node r ∈ descendants) tree_df in
  let joined :=
    rows ≫= λ r,
      match genome r with
      | None => []
      | Some g => snd <$> filter (λ gt : string * string, gt.1 = g) gtdb_taxonomy
      end in
  Ok (Str.extract_before_last (";" +:+ limit) <$> joined).

Definition by_count (a b : option string * nat) : bool := (a.2 <=? b.2)%nat.

(** [.group_by("taxonomy").count().sort("count")] *)
Definition prefix_counts (n : Z) (limit : string) : result (list (option string * nat)) :=
  extracted ← descendant_prefixes n limit;
  Ok (sort by_count (group_order (group_counts extracted))).

Definition get_taxonomy (n : Z) (limit : string) : result (option string) :=
  descendant_genomes ← prefix_counts n limit;
  of_option IndexError (fst <$> head descendant_genomes).

(** What the loop over the genome taxonomies mutates: the rows written,
    the cache of completed prefixes, and the new node names. *)
Record completion : Type := Completion {
  genomes_output : list (string * string);
  completed : gmap Z (option string);
  new_taxonomy : list node_name;
}.

(** The cached prefix of node [n], computed at the first request. *)
Definition cached_taxonomy (cache : gmap Z (option string)) (n : Z) (node_limit : string)
  : result (option string * gmap Z (option string)) :=
  match cache !! n with
  | Some u => Ok (u, cache)
  | None => u ← get_taxonomy n node_limit; Ok (u, <[n := u]> cache)
  end.

(** The species name minted for a genome that has no named rank. *)
Definition species_of_prefix (updated_taxonomy : option string) (g : string) : result string :=
  u ← of_option AttributeError updated_taxonomy;
  genus_index ← of_option ValueError (String.index 0 "g__" u);
  let genus_name := Str.drop (genus_index + 1) u in
  Ok ("s" +:+ genus_name +:+ " " +:+ g).

Definition complete_genome (acc : completion) (row : string * string) : result completion :=
  let '(g, taxonomy) := row in
  if String.prefix "d__" taxonomy then
    Ok {| genomes_output := (genomes_output acc ++ [(g, taxonomy)]);
          completed := completed acc;
          new_taxonomy := new_taxonomy acc |}
  else
    let pieces := Str.split ";" taxonomy in
    n ← Str.to_Z (default "" (head pieces));
    let named_taxonomy := Str.join ";" (tail pieces) in
    let node_limit := String.substring 0 3 named_taxonomy in
    uc ← cached_taxonomy (completed acc) n node_limit;
    nn ← (if Str.eqb named_taxonomy "" then
            named ← species_of_prefix uc.1 g;
            Ok (named, (new_taxonomy acc ++ [(None, named, g)]))
          else Ok (named_taxonomy, new_taxonomy acc));
    u ← of_option TypeError uc.1;
    Ok {| genomes_output := (genomes_output acc ++ [(g, u +:+ ";" +:+ nn.1)]);
          completed := uc.2;
          new_taxonomy := nn.2 |}.

Definition complete_all (genome_taxonomy : list (string * string)) : result completion :=
  foldE complete_genome genome_taxonomy
    {| genomes_output := []; completed := ∅; new_taxonomy := [] |}.

Definition fill_taxonomy (genome_taxonomy : list (string * string)) (node_names : list node_name)
  : result (list (string * string) * list node_name) :=
  acc ← complete_all genome_taxonomy;
  Ok (genomes_output acc, sort by_clade (node_names ++ new_taxonomy acc)).

End fill_taxonomy.

(** A row that [fill_taxonomy] copies: its taxonomy starts with ["d__"]. *)
Definition is_complete (row : string * string) : bool := String.prefix "d__" row.2.

(** The part of the state of [fill_taxonomy] that decides the node names. *)
Definition side (acc : completion) : gmap Z (option string) * list node_name :=
  (completed acc, new_taxonomy acc).

(** ** Concrete inputs *)

Module Examples.

Definition SPECIES : option string := Some "Species/Strain (0.95-1]".
Definition GENUS : option string := Some "Genus (0.82-0.95]".
Definition FAMILY : option string := Some "Family (0.62-0.82]".
Definition ORDER : option string := Some "Order (0.43-0.62]".
Definition CLASS : option string := Some "Class (0.28-0.43]".
Definition PHYLUM : option string := Some "Phylum (0-0.28]".

(** The tree of [test_name_clades]: two genomes below node 10, a third
    below node 1000. *)
Definition small_tree : list tree_row := [
  TreeRow 10 1 (Some "nongtdb") (Some "SPIREOTU_01842612") (Some "other") None None;
  TreeRow 10 2 (Some "nongtdb") (Some "BCRBG_01105") (Some "other") None None;
  TreeRow 1000 3 (Some "nongtdb") (Some "BCRBG_48201") (Some "other") None None;
  TreeRow 1000 10 (Some "nongtdb") None None (Some (Float.of_int 1)) SPECIES;
  TreeRow 100000 1000 (Some "nongtdb") None None (Some (Float.of_decimal 92 2)) GENUS;
  TreeRow 0 100000 (Some "nongtdb") None None (Some (Float.of_decimal 6 1)) ORDER;
  TreeRow 0 0 (Some "nongtdb") None None (Some (Float.of_decimal 3 1)) PHYLUM ].

(** Its parent dictionary, with a self-parent root, and the chain of node 1. *)
Definition small_parents : gmap Z Z := parent_dict small_tree.

Definition small_chain : list Z := [10; 1000; 100000; 0].

Definition small_metadata : list metadata_row := [
  MetadataRow "SPIREOTU_01842612" (Float.of_int 90) (Float.of_int 0);
  MetadataRow "BCRBG_01105" (Float.of_int 90) (Float.of_int 1);
  MetadataRow "BCRBG_48201" (Float.of_int 90) (Float.of_int 5) ].

(** The same table without the row of the genome [BCRBG_48201]. *)
Definition partial_metadata : list metadata_row := [
  MetadataRow "SPIREOTU_01842612" (Float.of_int 90) (Float.of_int 0);
  MetadataRow "BCRBG_01105" (Float.of_int 90) (Float.of_int 1) ].

(** The tree of [test_name_clades_gtdb_truncate]: the walk of the one
    query genome ends at the reference node 10000. *)
Definition truncate_tree : list tree_row := [
  TreeRow 10 1 (Some "gtdb") (Some "GB_GCA_016935655.1") None None None;
  TreeRow 10 2 (Some "gtdb") (Some "GB_GCA_016935655.2") None None None;
  TreeRow 10000 3 (Some "nongtdb") (Some "SPIREOTU_01842612") (Some "SPIRE") None None;
  TreeRow 10000 10 (Some "gtdb") None None (Some (Float.of_int 1)) SPECIES;
  TreeRow 0 10000 (Some "gtdb") None None (Some (Float.of_decimal 91 2)) GENUS;
  TreeRow 0 0 (Some "gtdb") None None (Some (Float.of_decimal 35 2)) CLASS ].

Definition truncate_metadata : list metadata_row := [
  MetadataRow "SPIREOTU_01842612" (Float.of_int 90) (Float.of_int 0) ].

(** The taxonomy of that genome at the end of [name_clades]: the reference
    node at family, then the names of genus and species. *)
Definition truncate_taxonomy (t : taxon) : slot :=
  match t with
  | family => GTDB 10000
  | genus => Clade None "g__SPIREOTU_01842612"
  | species => Clade None "s__SPIREOTU_01842612 SPIREOTU_01842612"
  | _ => Unset
  end.

Definition truncate_string : string :=
  "10000;g__SPIREOTU_01842612;s__SPIREOTU_01842612 SPIREOTU_01842612".

(** A near-copy of the tree of [test_name_clades_better_node] with a tie:
    the candidates for genus are node 10 (RED 0.90625, that is 29/32) and
    node 20 (RED 0.84375, that is 27/32), and the median of genus is 0.875
    (28/32).  The values are binary fractions, which floats hold as they
    are written. *)
Definition tie_tree : list tree_row := [
  TreeRow 10 1 (Some "nongtdb") (Some "SPIREOTU_01842612") (Some "SPIRE") None None;
  TreeRow 10 2 (Some "nongtdb") (Some "BCRBG_01105") (Some "binchicken") None None;
  TreeRow 20 3 (Some "nongtdb") (Some "BCRBG_48201") (Some "binchicken") None None;
  TreeRow 20 10 (Some "nongtdb") None None (Some (Float.of_int 1)) SPECIES;
  TreeRow 100000 20 (Some "nongtdb") None None (Some (Float.of_decimal 90625 5)) GENUS;
  TreeRow 0 100000 (Some "nongtdb") None None (Some (Float.of_decimal 84375 5)) GENUS;
  TreeRow 0 0 (Some "nongtdb") None None (Some (Float.of_decimal 25 2)) PHYLUM ].

Definition tie_metadata : list metadata_row := [
  MetadataRow "SPIREOTU_01842612" (Float.of_int 90) (Float.of_int 0);
  MetadataRow "BCRBG_01105" (Float.of_int 90) (Float.of_int 0);
  MetadataRow "BCRBG_48201" (Float.of_int 90) (Float.of_int 5) ].

Definition tie_cutoffs : list float :=
  [Float.of_decimal 25 2; Float.of_decimal 375 3; Float.of_decimal 5 1;
   Float.of_decimal 75 2; Float.of_decimal 875 3].

(** The walk of the first genome when it reaches node 20 with the pending
    candidate node 10: nothing is named yet. *)
Definition tie_state : walk_state :=
  {| genome_taxonomy := λ _, Unset;
     child := Some (10, ["genus"]);
     node_taxonomy := ∅;
     nodes_output := [] |}.

(** What [name_clades] returns on [tie_tree]: genus is anchored on node 20. *)
Definition tie_output : list (string * string) * list node_name :=
  ([("SPIREOTU_01842612",
     "d__Bacteria;p__SPIREOTU_01842612;c__SPIREOTU_01842612;o__SPIREOTU_01842612;"
     +:+ "f__SPIREOTU_01842612;g__SPIREOTU_01842612;s__SPIREOTU_01842612 SPIREOTU_01842612");
    ("BCRBG_01105",
     "d__Bacteria;p__SPIREOTU_01842612;c__SPIREOTU_01842612;o__SPIREOTU_01842612;"
     +:+ "f__SPIREOTU_01842612;g__SPIREOTU_01842612;s__SPIREOTU_01842612 BCRBG_01105");
    ("BCRBG_48201",
     "d__Bacteria;p__SPIREOTU_01842612;c__SPIREOTU_01842612;o__SPIREOTU_01842612;"
     +:+ "f__SPIREOTU_01842612;g__SPIREOTU_01842612;s__SPIREOTU_01842612 BCRBG_48201")],
   [(Some 100000, "c__SPIREOTU_01842612", "SPIREOTU_01842612");
    (Some 100000, "f__SPIREOTU_01842612", "SPIREOTU_01842612");
    (Some 20, "g__SPIREOTU_01842612", "SPIREOTU_01842612");
    (Some 100000, "o__SPIREOTU_01842612", "SPIREOTU_01842612");
    (Some 100000, "p__SPIREOTU_01842612", "SPIREOTU_01842612");
    (None, "s__SPIREOTU_01842612 BCRBG_01105", "BCRBG_01105");
    (None, "s__SPIREOTU_01842612 BCRBG_48201", "BCRBG_48201");
    (None, "s__SPIREOTU_01842612 SPIREOTU_01842612", "SPIREOTU_01842612")]).

(** A reference node with three reference leaves, two of genus Alpha and
    one of genus Beta, and one query genome. *)
Definition vote_tree : list tree_row := [
  TreeRow 10 1 (Some "gtdb") (Some "REF_A1") None None None;
  TreeRow 10 2 (Some "gtdb") (Some "REF_A2") None None None;
  TreeRow 10 3 (Some "gtdb") (Some "REF_B1") None None None;
  TreeRow 10 4 (Some "nongtdb") (Some "query_1") (Some "SPIRE") None None;
  TreeRow 0 10 (Some "gtdb") None None (Some (Float.of_int 1)) SPECIES;
  TreeRow 0 0 (Some "gtdb") None None (Some (Float.of_decimal 5 1)) ORDER ].

Definition vote_metadata : list metadata_row := [
  MetadataRow "query_1" (Float.of_int 90) (Float.of_int 0) ].

Definition ALPHA : string := "d__Bacteria;p__P;c__C;o__O;f__F;g__Alpha".
Definition BETA : string := "d__Bacteria;p__P;c__C;o__O;f__F;g__Beta".

Definition vote_reference : list (string * string) := [
  ("REF_A1", ALPHA +:+ ";s__Alpha one");
  ("REF_A2", ALPHA +:+ ";s__Alpha two");
  ("REF_B1", BETA +:+ ";s__Beta one") ].

(** The same reference table without [REF_A2]: one leaf of each genus. *)
Definition even_reference : list (string * string) := [
  ("REF_A1", ALPHA +:+ ";s__Alpha one");
  ("REF_B1", BETA +:+ ";s__Beta one") ].

(** The species labels of the first and of the second genome of
    [small_tree], which share the genus named by the first. *)
Definition founder_label : string := "s__SPIREOTU_01842612 SPIREOTU_01842612".
Definition member_label : string := "s__SPIREOTU_01842612 BCRBG_01105".

(** What [name_clades] returns on [small_tree] and [small_metadata]. *)
Definition small_output : list (string * string) * list node_name :=
  ([("SPIREOTU_01842612",
     "d__Bacteria;p__SPIREOTU_01842612;c__SPIREOTU_01842612;o__SPIREOTU_01842612;"
     +:+ "f__SPIREOTU_01842612;g__SPIREOTU_01842612;" +:+ founder_label);
    ("BCRBG_01105",
     "d__Bacteria;p__SPIREOTU_01842612;c__SPIREOTU_01842612;o__SPIREOTU_01842612;"
     +:+ "f__SPIREOTU_01842612;g__SPIREOTU_01842612;" +:+ member_label);
    ("BCRBG_48201",
     "d__Bacteria;p__SPIREOTU_01842612;c__SPIREOTU_01842612;o__SPIREOTU_01842612;"
     +:+ "f__SPIREOTU_01842612;g__BCRBG_48201;s__BCRBG_48201 BCRBG_48201")],
   [(Some 100000, "c__SPIREOTU_01842612", "SPIREOTU_01842612");
    (Some 1000, "f__SPIREOTU_01842612", "SPIREOTU_01842612");
    (None, "g__BCRBG_48201", "BCRBG_48201");
    (Some 10, "g__SPIREOTU_01842612", "SPIREOTU_01842612");
    (Some 1000, "o__SPIREOTU_01842612", "SPIREOTU_01842612");
    (Some 100000, "p__SPIREOTU_01842612", "SPIREOTU_01842612");
    (None, "s__BCRBG_48201 BCRBG_48201", "BCRBG_48201");
    (None, member_label, "BCRBG_01105");
    (None, founder_label, "SPIREOTU_01842612")]).




(** The run on [small_tree] after the first genome and after the second. *)
Definition small_rows : list (string * list Z) :=
  [("SPIREOTU_01842612", small_chain); ("BCRBG_01105", small_chain)].

Definition run_start : run_state :=
  {| run_ledger := ∅; run_nodes := []; run_genomes := [] |}.

Definition run_after (rows : list (string * list Z)) : run_state :=
  match foldE (name_genome small_tree "d__Bacteria" []) rows run_start with
  | Ok rs => rs
  | Raise _ => run_start
  end.

(** What [name_clades] returns on [small_tree] and [partial_metadata]. *)
Definition partial_output : list (string * string) * list node_name :=
  ([("SPIREOTU_01842612",
     "d__Bacteria;p__SPIREOTU_01842612;c__SPIREOTU_01842612;o__SPIREOTU_01842612;"
     +:+ "f__SPIREOTU_01842612;g__SPIREOTU_01842612;s__SPIREOTU_01842612 SPIREOTU_01842612");
    ("BCRBG_01105",
     "d__Bacteria;p__SPIREOTU_01842612;c__SPIREOTU_01842612;o__SPIREOTU_01842612;"
     +:+ "f__SPIREOTU_01842612;g__SPIREOTU_01842612;s__SPIREOTU_01842612 BCRBG_01105")],
   [(Some 100000, "c__SPIREOTU_01842612", "SPIREOTU_01842612");
    (Some 1000, "f__SPIREOTU_01842612", "SPIREOTU_01842612");
    (Some 10, "g__SPIREOTU_01842612", "SPIREOTU_01842612");
    (Some 1000, "o__SPIREOTU_01842612", "SPIREOTU_01842612");
    (Some 100000, "p__SPIREOTU_01842612", "SPIREOTU_01842612");
    (None, "s__SPIREOTU_01842612 BCRBG_01105", "BCRBG_01105");
    (None, "s__SPIREOTU_01842612 SPIREOTU_01842612", "SPIREOTU_01842612")]).

(** What [name_clades] returns on [vote_tree]: the bare node id. *)
Definition vote_input : list (string * string) := [("query_1", "10")].

(** A table for [fill_taxonomy] with one bare node id and one complete
    taxonomy, and what the pass returns on it. *)
Definition mixed_input : list (string * string) :=
  [("query_1", "10"); ("done_1", "d__Bacteria;p__P;c__C;o__O;f__F;g__G;s__G done_1")].

Definition mixed_output : list (string * string) * list node_name :=
  ([("query_1", BETA +:+ ";s__Beta query_1");
    ("done_1", "d__Bacteria;p__P;c__C;o__O;f__F;g__G;s__G done_1")],
   [(None, "s__Beta query_1", "query_1")]).

(** The tree of [test_name_clades_gtdb_novel_phyla]: the walk of the one
    query genome ends at the reference node 10000, which is labelled with
    the rank of phylum. *)
Definition novel_tree : list tree_row := [
  TreeRow 10 1 (Some "gtdb") (Some "GB_GCA_016935655.1") None None None;
  TreeRow 10 2 (Some "gtdb") (Some "GB_GCA_016935655.2") None None None;
  TreeRow 10000 3 (Some "nongtdb") (Some "BCRBG_01105") (Some "binchicken") None None;
  TreeRow 10000 10 (Some "gtdb") None None (Some (Float.of_int 1)) SPECIES;
  TreeRow 0 10000 (Some "gtdb") None None (Some (Float.of_decimal 21 2)) PHYLUM;
  TreeRow 0 0 (Some "gtdb") None None (Some (Float.of_decimal 15 2)) PHYLUM ].

Definition novel_metadata : list metadata_row := [
  MetadataRow "BCRBG_01105" (Float.of_int 90) (Float.of_int 0) ].

Definition novel_string : string :=
  "d__Archaea;p__BCRBG_01105;c__BCRBG_01105;o__BCRBG_01105;f__BCRBG_01105;"
  +:+ "g__BCRBG_01105;s__BCRBG_01105 BCRBG_01105".

(** Two genomes whose qualities differ by the rounding of the arithmetic
    only: 89.9 - 5 * 0 is 89.9, and 90.6 - 5 * 0.14 is 89.89999999999999. *)
Definition quality_tree : list tree_row := [
  TreeRow 10 1 (Some "nongtdb") (Some "aaa") (Some "other") None None;
  TreeRow 10 2 (Some "nongtdb") (Some "zzz") (Some "other") None None;
  TreeRow 0 10 (Some "nongtdb") None None (Some (Float.of_int 1)) SPECIES;
  TreeRow 0 0 (Some "nongtdb") None None (Some (Float.of_decimal 3 1)) PHYLUM ].

Definition quality_metadata : list metadata_row := [
  MetadataRow "aaa" (Float.of_decimal 899 1) (Float.of_int 0);
  MetadataRow "zzz" (Float.of_decimal 906 1) (Float.of_decimal 14 2) ].

(** The metadata of [small_tree] with the row of one genome written twice. *)
Definition repeated_metadata : list metadata_row := [
  MetadataRow "SPIREOTU_01842612" (Float.of_int 90) (Float.of_int 0);
  MetadataRow "SPIREOTU_01842612" (Float.of_int 90) (Float.of_int 0) ].

(** A tree in which two leaves carry the same genome id. *)
Definition twin_tree : list tree_row := [
  TreeRow 10 1 (Some "nongtdb") (Some "G1") (Some "other") None None;
  TreeRow 10 2 (Some "nongtdb") (Some "G1") (Some "other") None None;
  TreeRow 0 10 (Some "nongtdb") None None (Some (Float.of_int 1)) SPECIES;
  TreeRow 0 0 (Some "nongtdb") None None (Some (Float.of_decimal 3 1)) PHYLUM ].

Definition twin_metadata : list metadata_row := [
  MetadataRow "G1" (Float.of_int 90) (Float.of_int 0) ].

(** Two genera with two genomes each; the genome ids [a b] and [b c] hold
    a blank. *)
Definition blank_tree : list tree_row := [
  TreeRow 10 1 (Some "nongtdb") (Some "a b") (Some "other") None None;
  TreeRow 10 2 (Some "nongtdb") (Some "c") (Some "other") None None;
  TreeRow 20 3 (Some "nongtdb") (Some "a") (Some "other") None None;
  TreeRow 20 4 (Some "nongtdb") (Some "b c") (Some "other") None None;
  TreeRow 1000 10 (Some "nongtdb") None None (Some (Float.of_int 1)) SPECIES;
  TreeRow 2000 20 (Some "nongtdb") None None (Some (Float.of_int 1)) SPECIES;
  TreeRow 100000 1000 (Some "nongtdb") None None (Some (Float.of_decimal 92 2)) GENUS;
  TreeRow 100000 2000 (Some "nongtdb") None None (Some (Float.of_decimal 92 2)) GENUS;
  TreeRow 0 100000 (Some "nongtdb") None None (Some (Float.of_decimal 6 1)) ORDER;
  TreeRow 0 0 (Some "nongtdb") None None (Some (Float.of_decimal 3 1)) PHYLUM ].

Definition blank_metadata : list metadata_row := [
  MetadataRow "a b" (Float.of_int 90) (Float.of_int 0);
  MetadataRow "c" (Float.of_int 80) (Float.of_int 0);
  MetadataRow "a" (Float.of_int 70) (Float.of_int 0);
  MetadataRow "b c" (Float.of_int 60) (Float.of_int 0) ].

End Examples.


(** ** Reading a rendered taxonomy *)

(** The clade names held by the ranks of [l], in order. *)
Definition clade_names (gt : taxon → slot) (l : list taxon) : list string :=
  omap (λ t, match gt t with Clade _ name => Some name | _ => None end) l.

(** [s] followed by [";" + name] for every name of [names]. *)
Definition append_names (s : string) (names : list string) : string :=
  foldl (λ acc name, acc +:+ ";" +:+ name) s names.

(** The ranks below [t]. *)
Definition ranks_below (t : taxon) : list taxon := drop (S (taxon_index t)) all_taxa.

(** ** Reading the ledger *)

(** [node_taxonomy[n][t]], when it is there. *)
Definition ledger_get (L : ledger) (n : Z) (t : taxon) : option string :=
  L !! n ≫= (.!! t).

(** Every entry of [L] is an entry of [L'], with the same clade name. *)
Definition ledger_kept (L L' : ledger) : Prop :=
  ∀ n t c, ledger_get L n t = Some c → ledger_get L' n t = Some c.

(** The node of a pending candidate has no entry in the ledger. *)
Definition child_fresh (st : walk_state) : Prop :=
  ∀ c, child st = Some c → node_taxonomy st !! c.1 = None.

(** The cutoff vector is the default one or gives a median to each of the
    five ranks. *)
Definition five_cutoffs (red_cutoffs : list float) : Prop :=
  red_cutoffs = [] ∨ (5 ≤ length red_cutoffs)%nat.

(** ** Reading the node names *)

(** The character [c] occurs in [s]. *)
Fixpoint has_char (c : ascii) (s : string) : bool :=
  match s with
  | EmptyString => false
  | String a s' => Ascii.eqb a c || has_char c s'
  end.

(** A genome id without a blank. *)
Definition no_blank (g : string) : Prop := has_char " " g = false.

(** A clade name minted for a rank above species. *)
Definition minted_for (g : string) (c : string) : Prop :=
  ∃ t, t ≠ species ∧ c = mint t g.

(** A species label made for the genome [g]. *)
Definition species_for (g : string) (c : string) : Prop :=
  ∃ x, c = "s" +:+ x +:+ " " +:+ g.

(** The part of a taxonomy string after its first [";"], as [fill_taxonomy]
    reads it. *)
Definition named_part (taxonomy : string) : string :=
  Str.join ";" (tail (Str.split ";" taxonomy)).

(** A row of the node-naming table is in order with respect to the genome
    table [G]: its representative has a row in [G], and its clade is minted
    for the representative, or is a species label for the representative
    that ends the representative's taxonomy string. *)
Definition row_ok (G : list (string * string)) (r : node_name) : Prop :=
  r.2 ∈ G.*1
  ∧ (minted_for r.2 (clade_of r)
     ∨ (species_for r.2 (clade_of r)
        ∧ ∃ X, (r.2, X +:+ ";" +:+ clade_of r) ∈ G)).

(** The rows added while the genome [g] is named, before its species: each
    is minted for [g] at a rank that now has a value. *)
Definition genome_rows (g : string) (out0 : list node_name)
    (gt : taxon → slot) (out : list node_name) : Prop :=
  ∃ new, out = out0 ++ new
         ∧ NoDup (clade_of <$> new)
         ∧ Forall (λ r : node_name, ∃ t, t ≠ species ∧ clade_of r = mint t g
                                         ∧ r.2 = g ∧ gt t ≠ Unset) new.

(** The same, as an invariant of the state of the walk. *)
Definition rows_inv (g : string) (out0 : list node_name) (st : walk_state) : Prop :=
  genome_rows g out0 (genome_taxonomy st) (nodes_output st).

(** The species name kept by the loop over the ranks is empty or a species
    label for the genome. *)
Definition label_ok (g : string) (fs : fill_state) : Prop :=
  species_name fs = "" ∨ species_for g (species_name fs).

(** The state of a run is in order: no clade occurs twice and every row is
    in order with respect to the genomes named so far. *)
Definition run_ok (rs : run_state) : Prop :=
  NoDup (clade_of <$> run_nodes rs) ∧ Forall (row_ok (run_genomes rs)) (run_nodes rs).

(** Ranks that have a value keep one. *)
Definition slots_kept (gt gt' : taxon → slot) : Prop :=
  ∀ t, gt t ≠ Unset → gt' t ≠ Unset.


(** ** Following the parent links *)

(** [parent_chain pd n l]: [l] lists the nodes met when the parent links
    are followed from [n], until a node that is its own parent or a node
    without an entry; that last node is listed too. *)
Inductive parent_chain (pd : gmap Z Z) : Z → list Z → Prop :=
| chain_absent n :
    pd !! n = None → parent_chain pd n []
| chain_self n :
    pd !! n = Some n → parent_chain pd n []
| chain_link n p l :
    pd !! n = Some p → n ≠ p → parent_chain pd p l → parent_chain pd n (p :: l).

(** One parent link that is not a self-parent entry. *)
Definition link (pd : gmap Z Z) (n p : Z) : Prop := pd !! n = Some p ∧ n ≠ p.

(** A dictionary with a cycle of two nodes below node 3. *)
Definition looping_parents : gmap Z Z := <[3 := 1]> (<[1 := 2]> (<[2 := 1]> ∅)).

(** ** A lineage of fresh names *)

(** The six names given to a genome [g] for which the walk finds nothing:
    one minted at each rank above species, and the species label. *)
Definition fresh_names (g : string) : list string :=
  ["p__" +:+ g; "c__" +:+ g; "o__" +:+ g; "f__" +:+ g; "g__" +:+ g;
   "s__" +:+ g +:+ " " +:+ g].

(** The rows of the node-naming table for these names: none has a node. *)
Definition fresh_rows (g : string) : list node_name :=
  (λ c, (None, c, g)) <$> fresh_names g.

(** The taxonomy that holds these names. *)
Definition fresh_taxonomy (g : string) : taxon → slot :=
  foldl (λ gt (tc : taxon * string), set_slot gt tc.1 (Clade None tc.2)) (λ _, Unset)
    (zip all_taxa (fresh_names g)).

(** ** Descending the tree *)

(** [c] is the node of a row whose parent is [p]. *)
Definition child_link (df : list tree_row) (p c : Z) : Prop :=
  ∃ r, r ∈ df ∧ parent r = p ∧ node r = c.

(** ** Strings that are not integers *)

Definition is_letter (a : ascii) : bool :=
  let n := nat_of_ascii a in
  ((65 <=? n) && (n <=? 90) || (97 <=? n) && (n <=? 122))%nat.

(** The empty string, or a string that starts with a letter: [int] raises
    a [ValueError] on it. *)
Definition not_a_number (s : string) : Prop :=
  match s with
  | EmptyString => True
  | String a _ => is_letter a = true
  end.

(** ** The nodes of the node-naming table *)

(** A row made for the genome [g] whose node, if it has one, is a node of
    [chain] and then carries a name minted for [g] at a rank above
    species. *)
Definition row_anchored (g : string) (chain : list Z) (r : node_name) : Prop :=
  r.2 = g ∧ ∀ a, r.1.1 = Some a → a ∈ chain ∧ minted_for g (clade_of r).

(** The rows added to [out0] are such rows. *)
Definition rows_anchored (g : string) (chain : list Z) (out0 out : list node_name) : Prop :=
  ∃ new, out = out0 ++ new ∧ Forall (row_anchored g chain) new.

(** The same for the state of the walk, whose pending candidate is a node
    of the chain. *)
Definition walk_anchored (g : string) (chain : list Z) (out0 : list node_name)
    (st : walk_state) : Prop :=
  rows_anchored g chain out0 (nodes_output st) ∧ ∀ c, child st = Some c → c.1 ∈ chain.

(** The leaf of the genome [g] and its chain of ancestors. *)
Definition leaf_chain (tree_df : list tree_row) (g : string) (chain : list Z) : Prop :=
  ∃ leaf, leaf ∈ tree_df ∧ genome leaf = Some g
          ∧ find_parents (parent_dict tree_df) (node leaf) = Ok chain.

(** ** Reading a taxonomy string back *)

(** [";" + name] for every name of the list, in one string. *)
Definition names_suffix (names : list string) : string :=
  foldr (λ name acc, ";" +:+ name +:+ acc) "" names.

(** ** A tree whose root is not at the rank of phylum *)

(** One query genome below node 10; the root is labelled with the rank
    of genus. *)
Definition shallow_tree : list tree_row := [
  TreeRow 10 1 (Some "nongtdb") (Some "G1") (Some "SPIRE") None None;
  TreeRow 0 10 (Some "nongtdb") None None (Some (Float.of_int 1)) Examples.SPECIES;
  TreeRow 0 0 (Some "nongtdb") None None (Some (Float.of_decimal 90625 5)) Examples.GENUS ].

Definition shallow_metadata : list metadata_row := [ MetadataRow "G1" (Float.of_int 90) (Float.of_int 0) ].

(** The state of the walk of [G1] at its end: genus is named, on node 10. *)
Definition shallow_state : walk_state :=
  {| genome_taxonomy := set_slot (λ _, Unset) genus (Clade (Some 10) "g__G1");
     child := None;
     node_taxonomy := {[ 10 := {[ genus := "g__G1" ]} ]};
     nodes_output := [(Some 10, "g__G1", "G1")] |}.

(** ** The ledger and the node-naming rows *)

(** Every row with a node holds the name that the ledger has for that
    node at the rank of the name. *)
Definition rows_in_ledger (L : ledger) (out : list node_name) : Prop :=
  ∀ r n, r ∈ out → r.1.1 = Some n →
         ∃ t, clade_of r = mint t r.2 ∧ ledger_get L n t = Some (clade_of r).

(** ** The requests of [fill_taxonomy] *)

(** The node id that [fill_taxonomy] reads in a taxonomy string, and the
    limit it passes to [get_taxonomy] for it. *)
Definition row_node (taxonomy : string) : result Z :=
  Str.to_Z (default "" (head (Str.split ";" taxonomy))).

Definition row_limit (taxonomy : string) : string :=
  String.substring 0 3 (named_part taxonomy).

(** Every prefix of [cache] is what [get_taxonomy] answered to one of
    [rows]. *)
Definition cache_asked
    (group_order : list (option string * nat) → list (option string * nat))
    (tree_df : list tree_row) (gtdb_taxonomy : list (string * string))
    (rows : list (string * string)) (cache : gmap Z (option string)) : Prop :=
  ∀ n u, cache !! n = Some u →
    ∃ j g t, rows !! j = Some (g, t) ∧ is_complete (g, t) = false
             ∧ row_node t = Ok n
             ∧ get_taxonomy group_order tree_df gtdb_taxonomy n (row_limit t) = Ok u.

(** ** Reading the walk *)

(** The pending candidate of a state of the walk is not the node [n]. *)
Definition child_off (n : Z) (st : walk_state) : Prop :=
  ∀ c, child st = Some c → c.1 ≠ n.

(** The state in which the walk of a genome starts. *)
Definition walk_start (rs : run_state) : walk_state :=
  {| genome_taxonomy := λ _, Unset;
     child := None;
     node_taxonomy := run_ledger rs;
     nodes_output := run_nodes rs |}.

(** The loop over the ancestors, run over a part of the chain; the flag
    is [true] when the loop was left by [break]. *)
Fixpoint walk_until (tree_df : list tree_row) (median : list (string * float)) (g : string)
    (parent_novelty : list (Z * (string * string))) (st : walk_state)
  : result (walk_state * bool) :=
  match parent_novelty with
  | [] => Ok (st, false)
  | pn :: rest =>
      '(st', stop) ← walk_step tree_df median g pn st;
      if (stop : bool) then Ok (st', true) else walk_until tree_df median g rest st'
  end.

(** The body of the loop up to [if skip_parent]: the state then, and the
    value of [skip_parent]. *)
Definition skip_decision (tree_df : list tree_row) (median : list (string * float)) (g : string)
    (pn : Z * (string * string)) (st : walk_state) : result (walk_state * bool) :=
  '(novelty_reds, skip_parent) ← novelty_range tree_df median pn.1 pn.2 (child st);
  match child st with
  | Some c => resolve_child tree_df median g pn.1 pn.2 novelty_reds skip_parent c st
  | None => Ok (st, skip_parent)
  end.

(** [parent_novelty = {p: get_info(p) for p in parents}], as the list of
    its items. *)
Definition parent_bounds (tree_df : list tree_row) (parents : list Z)
  : result (list (Z * (string * string))) :=
  mapE (λ p, i ← get_info tree_df p; Ok (p, i)) parents.

(** The state of a run after the genomes of [rows], from the empty state. *)
Definition run_of (tree_df : list tree_row) (domain : string) (red_cutoffs : list float)
    (rows : list (string * list Z)) : run_state :=
  match foldE (name_genome tree_df domain red_cutoffs) rows
          {| run_ledger := ∅; run_nodes := []; run_genomes := [] |} with
  | Ok rs => rs
  | Raise _ => {| run_ledger := ∅; run_nodes := []; run_genomes := [] |}
  end.

(** The state that [walk_until] returns, when it returns one. *)
Definition reached (r : result (walk_state * bool)) : walk_state :=
  match r with
  | Ok (st, _) => st
  | Raise _ => walk_start {| run_ledger := ∅; run_nodes := []; run_genomes := [] |}
  end.

(** ** A node with the id of the sentinel *)






(** ** The walk of the third genome of [blank_tree] *)




(** ** The walk that ends at a reference node *)

(** The value of [novelty_index] at a reference node labelled with the
    rank of index [i]: the index is kept when the node is closer to the
    median than its parent, and is one more otherwise. *)
Definition novelty_index (closer : bool) (i : nat) : nat := if closer then i else S i.

(** No rank of the state holds a reference node, the ranks that have a
    name are named after the genome [g], and the node [n] has no entry in
    the ledger and is not the pending candidate. *)
Definition walk_own (g : string) (n : Z) (st : walk_state) : Prop :=
  (∀ t m, genome_taxonomy st t ≠ GTDB m)
  ∧ (∀ t a c, genome_taxonomy st t = Clade a c → c = mint t g)
  ∧ node_taxonomy st !! n = None
  ∧ child_off n st.
(** * Properties *)

(** ** Fallible computations *)

Lemma bind_Ok {A B : Type} (m : result A) (f : A → result B) (b : B) :
  m ≫= f = Ok b → ∃ a, m = Ok a ∧ f a = Ok b.
Proof. destruct m as [a|e]; simpl; [eauto | discriminate]. Qed.

Lemma of_option_Ok {A : Type} (e : exn) (o : option A) (a : A) :
  of_option e o = Ok a → o = Some a.
Proof. destruct o; simpl; congruence. Qed.

(** Inversion of a successful computation, one binding at a time. *)
Ltac inv_Ok H :=
  lazymatch type of H with
  | Ok _ = Ok _ => injection H as H; try subst
  | Raise _ = Ok _ => discriminate H
  | of_option _ _ = Ok _ => apply of_option_Ok in H
  | mbind _ _ = Ok _ =>
      let a := fresh "a" in
      let Ha := fresh "Ha" in
      apply bind_Ok in H as (a & Ha & H)
  end.

Tactic Notation "inv_bind" hyp(H) "as" simple_intropattern(a) ident(Ha) :=
  apply bind_Ok in H as (a & Ha & H).

Lemma foldE_app {A St : Type} (f : St → A → result St) (l1 l2 : list A) (s : St) :
  foldE f (l1 ++ l2) s = foldE f l1 s ≫= foldE f l2.
Proof.
  revert s. induction l1 as [|x l1 IH]; intros s; simpl; [done|].
  destruct (f s x); simpl; [apply IH | done].
Qed.

(** An invariant of the loop body is an invariant of the loop. *)
Lemma foldE_invariant {A St : Type} (P : St → Prop) (f : St → A → result St) (l : list A) :
  (∀ s x s', x ∈ l → P s → f s x = Ok s' → P s') →
  ∀ s s', P s → foldE f l s = Ok s' → P s'.
Proof.
  induction l as [|x l IH]; intros Hf s s' Hs H; simpl in H.
  - by inv_Ok H.
  - inv_Ok H. eapply IH; [| |exact H].
    + intros. eapply Hf; [by right| |]; eauto.
    + eapply Hf; [by left| |]; eauto.
Qed.

(** ** Sorting *)

Section sort_facts.
Context {A : Type} (le : A → A → bool).

Lemma insert_sorted_perm x l : insert_sorted le x l ≡ₚ x :: l.
Proof.
  induction l as [|y l IH]; simpl; [done|].
  destruct (le x y); [done|]. rewrite IH. apply Permutation_swap.
Qed.

Lemma sort_perm l : sort le l ≡ₚ l.
Proof.
  induction l as [|x l IH]; simpl; [done|].
  by rewrite insert_sorted_perm, IH.
Qed.
End sort_facts.

(** ** The ancestor chain (C9) *)

Lemma find_parents_fuel_chain pd n l :
  chain_to_root pd n l →
  ∀ fuel, (length l < fuel)%nat → find_parents_fuel pd fuel n = Some l.
Proof.
  induction 1 as [r Hr | n p l Hn Hne _ IH]; intros [|fuel] Hfuel; simpl in *; try lia.
  - rewrite Hr. by rewrite bool_decide_eq_true_2.
  - rewrite Hn. rewrite bool_decide_eq_false_2 by done.
    rewrite IH by lia. done.
Qed.

Lemma chain_to_root_det pd n l1 l2 :
  chain_to_root pd n l1 → chain_to_root pd n l2 → l1 = l2.
Proof.
  intros H1. revert l2.
  induction H1 as [r Hr | n p l Hn Hne _ IH]; intros l2 H2; inversion H2; subst;
    try congruence.
  assert (p = p0) as -> by congruence. f_equal. by apply IH.
Qed.

(** On the chain of [n], every node has a strictly shorter chain of its own. *)
Lemma chain_to_root_elem pd n l x :
  chain_to_root pd n l → x ∈ l →
  ∃ l', chain_to_root pd x l' ∧ (length l' < length l)%nat.
Proof.
  induction 1 as [r Hr | n p l Hn Hne Hp IH]; intros Hx.
  - by apply elem_of_nil in Hx.
  - apply elem_of_cons in Hx as [->|Hx].
    + exists l. split; [done | simpl; lia].
    + destruct (IH Hx) as (l' & Hl' & Hlen). exists l'. split; [done | simpl; lia].
Qed.

Lemma chain_to_root_NoDup pd n l :
  chain_to_root pd n l → NoDup (n :: l).
Proof.
  induction 1 as [r Hr | n p l Hn Hne Hp IH].
  - apply NoDup_singleton.
  - apply NoDup_cons. split; [|done].
    intros Hin.
    destruct (chain_to_root_elem pd n (p :: l) n) as (l' & Hl' & Hlen);
      [by econstructor | done |].
    assert (l' = p :: l) as ->; [|lia].
    eapply chain_to_root_det; [exact Hl' | by econstructor].
Qed.

Lemma chain_to_root_dom pd n l x :
  chain_to_root pd n l → x ∈ n :: l → x ∈ dom pd.
Proof.
  induction 1 as [r Hr | n p l Hn Hne Hp IH]; intros Hx.
  - apply list_elem_of_singleton in Hx as ->. apply elem_of_dom. eauto.
  - apply elem_of_cons in Hx as [->|Hx]; [apply elem_of_dom; eauto | by apply IH].
Qed.

Lemma chain_to_root_length pd n l :
  chain_to_root pd n l → (length l < size pd)%nat.
Proof.
  intros H.
  assert (length (n :: l) ≤ size (dom pd))%nat as Hle.
  { rewrite <- (size_list_to_set (C := gset Z) (n :: l)) by by eapply chain_to_root_NoDup.
    apply subseteq_size. intros x Hx. apply elem_of_list_to_set in Hx.
    by eapply chain_to_root_dom. }
  rewrite size_dom in Hle. simpl in Hle. lia.
Qed.

(** The chain ends at the root, which is its last element. *)
Lemma chain_to_root_last pd n l :
  chain_to_root pd n l → ∃ r, last (n :: l) = Some r ∧ pd !! r = Some r.
Proof.
  induction 1 as [r Hr | n p l Hn Hne Hp (r & Hlast & Hr)].
  - exists r. done.
  - exists r. split; [|done]. by rewrite last_cons, Hlast.
Qed.

(** C9.  Whenever the parent links of a node lead to a self-parent root,
    [find_parents] terminates: any recursion depth beyond the length of the
    chain is enough, the depth supplied by [find_parents] is, and the value
    returned is the chain from the immediate parent up to and including the
    root (whose self-parent entry ends the recursion). *)
Theorem find_parents_reaches_root (pd : gmap Z Z) (n : Z) (l : list Z) :
  chain_to_root pd n l →
  find_parents pd n = Ok l
  ∧ (∀ fuel, (length l < fuel)%nat → find_parents_fuel pd fuel n = Some l)
  ∧ (∃ r, last (n :: l) = Some r ∧ pd !! r = Some r).
Proof.
  intros H. split; [|split].
  - unfold find_parents. rewrite (find_parents_fuel_chain pd n l H); [done|].
    apply chain_to_root_length in H. lia.
  - by apply find_parents_fuel_chain.
  - by eapply chain_to_root_last.
Qed.

Lemma find_parents_reaches_root_witness :
  find_parents Examples.small_parents 1 = Ok Examples.small_chain
  ∧ (∀ fuel, (length Examples.small_chain < fuel)%nat →
       find_parents_fuel Examples.small_parents fuel 1 = Some Examples.small_chain)
  ∧ (∃ r, last (1 :: Examples.small_chain) = Some r ∧ Examples.small_parents !! r = Some r).
Proof.
  apply (find_parents_reaches_root Examples.small_parents 1 Examples.small_chain).
  repeat (apply chain_step; [vm_compute; reflexivity | discriminate |]).
  apply chain_root. vm_compute. reflexivity.
Defined.

(** ** Complete taxonomies pass through [fill_taxonomy] (C10) *)

Section fill_taxonomy_frame.
Variable group_order : list (option string * nat) → list (option string * nat).
Variable tree_df : list tree_row.
Variable gtdb_taxonomy : list (string * string).

Let step := complete_genome group_order tree_df gtdb_taxonomy.

Lemma complete_genome_complete acc g t :
  String.prefix "d__" t = true →
  step acc (g, t) =
    Ok {| genomes_output := genomes_output acc ++ [(g, t)];
          completed := completed acc;
          new_taxonomy := new_taxonomy acc |}.
Proof. intros H. unfold step, complete_genome. by rewrite H. Qed.

Lemma complete_genome_output acc row acc' :
  step acc row = Ok acc' →
  ∃ t, genomes_output acc' = genomes_output acc ++ [(row.1, t)].
Proof.
  destruct row as [g t]. unfold step, complete_genome.
  destruct (String.prefix "d__" t); intros H.
  - inv_Ok H. simpl. eauto.
  - repeat inv_Ok H. simpl. eauto.
Qed.

Lemma complete_genome_side acc1 acc2 row acc1' :
  side acc1 = side acc2 →
  step acc1 row = Ok acc1' →
  ∃ acc2', step acc2 row = Ok acc2' ∧ side acc1' = side acc2'.
Proof.
  destruct row as [g t]. unfold side, step, complete_genome.
  intros [= Hc Hn]. rewrite <- Hc, <- Hn.
  destruct (String.prefix "d__" t); intros H.
  - inv_Ok H. eexists. split; [done|]. simpl. congruence.
  - repeat inv_Ok H. rewrite Ha. simpl. rewrite Ha0. simpl. rewrite Ha1. simpl.
    rewrite Ha2. simpl. eexists. split; [done|]. done.
Qed.

Lemma complete_all_frame rows : ∀ acc1 acc2 acc1',
  side acc1 = side acc2 →
  foldE step rows acc1 = Ok acc1' →
  (∃ out, genomes_output acc1' = genomes_output acc1 ++ out
          ∧ fst <$> out = fst <$> rows
          ∧ ∀ i row, rows !! i = Some row → is_complete row = true → out !! i = Some row)
  ∧ ∃ acc2', foldE step (List.filter (λ r, negb (is_complete r)) rows) acc2 = Ok acc2'
             ∧ side acc1' = side acc2'.
Proof.
  induction rows as [|row rows IH]; intros acc1 acc2 acc1' Hside H; simpl in H.
  - inv_Ok H. split.
    + exists []. by rewrite app_nil_r.
    + exists acc2. done.
  - inv_Ok H. rename a into acc.
    destruct (complete_genome_output _ _ _ Ha) as (t & Hout).
    destruct (is_complete row) eqn:Hrow.
    + destruct row as [g t0]. unfold is_complete in Hrow. simpl in Hrow.
      rewrite complete_genome_complete in Ha by done. inv_Ok Ha.
      eapply (IH _ acc2) in H as ((out & Hg & Hfst & Hrows) & Hframe); [|exact Hside].
      split.
      * exists ((g, t0) :: out). simpl in Hg. rewrite <- app_assoc in Hg.
        split; [done|]. split; [simpl; by f_equal|].
        intros [|i] row Hi Hc; simpl in *; [congruence | eauto].
      * simpl. unfold is_complete at 1. simpl. rewrite Hrow. done.
    + destruct (complete_genome_side _ acc2 _ _ Hside Ha) as (acc2' & Hstep2 & Hside').
      eapply (IH _ acc2') in H as ((out & Hg & Hfst & Hrows) & Hframe); [|exact Hside'].
      split.
      * exists ((row.1, t) :: out). rewrite Hg, Hout, <- app_assoc.
        split; [done|]. split; [simpl; by f_equal|].
        intros [|i] row' Hi Hc; simpl in *; [congruence | eauto].
      * simpl. rewrite Hrow. simpl. fold step. rewrite Hstep2. done.
Qed.

(** C10.  In a successful [fill_taxonomy], a row whose taxonomy starts with
    ["d__"] is written unchanged at its position, and the node names
    returned are those the pass returns on the table without these rows:
    a complete genome adds no node name.  On a table of complete rows
    only, the pass succeeds and returns the table. *)
Theorem fill_taxonomy_keeps_complete_rows
    (genome_taxonomy : list (string * string)) (node_names : list node_name) :
  (∀ G N,
     fill_taxonomy group_order tree_df gtdb_taxonomy genome_taxonomy node_names = Ok (G, N) →
     (∀ i row, genome_taxonomy !! i = Some row → is_complete row = true → G !! i = Some row)
     ∧ ∃ G',
         fill_taxonomy group_order tree_df gtdb_taxonomy
           (List.filter (λ r, negb (is_complete r)) genome_taxonomy) node_names = Ok (G', N))
  ∧ (forallb is_complete genome_taxonomy = true →
     fill_taxonomy group_order tree_df gtdb_taxonomy genome_taxonomy node_names
     = Ok (genome_taxonomy, sort by_clade node_names)).
Proof.
  split.
  - intros G N H. unfold fill_taxonomy in H. inv_Ok H. inv_Ok H.
    set (acc0 := {| genomes_output := []; completed := ∅; new_taxonomy := [] |}) in *.
    destruct (complete_all_frame _ acc0 acc0 _ eq_refl Ha)
      as ((out & Hg & _ & Hrows) & (acc2' & Hfold & Hside)).
    simpl in Hg. split; [by rewrite Hg|].
    unfold fill_taxonomy, complete_all. fold step. fold acc0. rewrite Hfold. simpl.
    injection Hside as _ ->. eauto.
  - intros Hall. unfold fill_taxonomy, complete_all. fold step.
    assert (∀ rows acc, forallb is_complete rows = true →
              foldE step rows acc =
                Ok {| genomes_output := genomes_output acc ++ rows;
                      completed := completed acc;
                      new_taxonomy := new_taxonomy acc |}) as Hfold.
    { induction rows as [|[g t] rows IH]; intros acc Hrows;
        cbn [forallb] in Hrows; cbn [foldE].
      - rewrite app_nil_r. by destruct acc.
      - apply andb_prop in Hrows as [Hrow Hrows].
        rewrite complete_genome_complete by done. cbn [mbind result_bind].
        rewrite IH by done. cbn. by rewrite <- app_assoc. }
    rewrite Hfold by done. simpl. by rewrite app_nil_r.
Qed.

End fill_taxonomy_frame.

Lemma fill_taxonomy_keeps_complete_rows_witness :
  (∀ i row, Examples.mixed_input !! i = Some row → is_complete row = true →
     Examples.mixed_output.1 !! i = Some row)
  ∧ ∃ G', fill_taxonomy (λ l, l) Examples.vote_tree Examples.vote_reference
            (List.filter (λ r, negb (is_complete r)) Examples.mixed_input) []
          = Ok (G', Examples.mixed_output.2).
Proof.
  apply (proj1 (fill_taxonomy_keeps_complete_rows (λ l, l) Examples.vote_tree
                  Examples.vote_reference Examples.mixed_input [])).
  vm_compute. reflexivity.
Defined.

(** ** Genomes without metadata (C5) *)

Lemma mapE_Forall2 {A B : Type} (f : A → result B) (l : list A) (l' : list B) :
  mapE f l = Ok l' → Forall2 (λ x y, f x = Ok y) l l'.
Proof.
  revert l'. induction l as [|x l IH]; intros l' H; simpl in H.
  - inv_Ok H. constructor.
  - repeat inv_Ok H. constructor; eauto.
Qed.

Lemma genome_order_metadata tree_df genome_metadata g :
  g ∈ genome_order tree_df genome_metadata → g ∈ Name <$> genome_metadata.
Proof.
  unfold genome_order. intros H.
  apply list_elem_of_fmap in H as ([g' q] & -> & H).
  rewrite sort_perm in H. unfold join_metadata in H.
  apply list_elem_of_bind in H as (og & H & _).
  destruct og as [g0|]; [|by apply elem_of_nil in H].
  apply list_elem_of_fmap in H as (m & [= -> _] & H).
  apply list_elem_of_filter in H as [<- H]. simpl.
  by apply list_elem_of_fmap_2.
Qed.

(** The quality is the rounded one: the genome [aaa] of quality 89.9 comes
    before the genome [zzz] of quality 89.89999999999999, which the order
    of the ids alone would put first. *)
Lemma rounded_quality_orders_the_genomes :
  quality (MetadataRow "aaa" (Float.of_decimal 899 1) (Float.of_int 0))
  = S754_finite false 6326150101571994 (-46)
  ∧ quality (MetadataRow "zzz" (Float.of_decimal 906 1) (Float.of_decimal 14 2))
    = S754_finite false 6326150101571993 (-46)
  ∧ genome_order Examples.quality_tree Examples.quality_metadata = ["aaa"; "zzz"].
Proof. repeat split; vm_compute; reflexivity. Qed.

Lemma tree_genomes_order tree_df genome_metadata rows g :
  tree_genomes tree_df genome_metadata = Ok rows →
  g ∈ rows.*1 → g ∈ genome_order tree_df genome_metadata.
Proof.
  unfold tree_genomes. intros H Hg. repeat inv_Ok H.
  apply list_elem_of_fmap in Hg as ([g' ps] & -> & Hg).
  apply list_elem_of_fmap in Hg as ([i [g'' ps']] & [= <- <-] & Hg).
  rewrite sort_perm in Hg.
  apply mapE_Forall2 in Ha.
  apply list_elem_of_lookup in Hg as (k & Hk).
  eapply Forall2_lookup_r in Ha as (e & He & Hf); [|exact Hk].
  repeat inv_Ok Hf. simpl.
  apply list_elem_of_lookup_2 in He.
  apply list_elem_of_bind in He as (r & He & _).
  destruct (genome r) as [g0|]; [|by apply elem_of_nil in He].
  apply list_elem_of_fmap in He as ([j g1] & -> & He).
  apply list_elem_of_filter in He as [Heq He]. simpl in *. subst g1.
  apply elem_of_lookup_imap in He as (j' & g1 & [= -> ->] & He).
  by eapply list_elem_of_lookup_2.
Qed.

Lemma name_genome_genomes tree_df domain red_cutoffs rs row rs' :
  name_genome tree_df domain red_cutoffs rs row = Ok rs' →
  ∃ taxonomy, run_genomes rs' = run_genomes rs ++ [(row.1, taxonomy)].
Proof.
  unfold name_genome, assemble_genome. intros H.
  repeat inv_Ok H. simpl. eauto.
Qed.

Lemma name_all_genomes tree_df domain red_cutoffs rows : ∀ rs rs',
  foldE (name_genome tree_df domain red_cutoffs) rows rs = Ok rs' →
  (run_genomes rs').*1 = (run_genomes rs).*1 ++ rows.*1.
Proof.
  induction rows as [|row rows IH]; intros rs rs' H; simpl in H.
  - inv_Ok H. by rewrite app_nil_r.
  - inv_Ok H. apply name_genome_genomes in Ha as (t & Ht).
    rewrite (IH _ _ H), Ht, fmap_app, <- app_assoc. done.
Qed.

Lemma name_clades_genomes tree_df genome_metadata domain red_cutoffs G N g :
  name_clades tree_df genome_metadata domain red_cutoffs = Ok (G, N) →
  g ∉ (Name <$> genome_metadata) →
  g ∉ G.*1.
Proof.
  unfold name_clades, name_all. intros H Hg Hin. repeat inv_Ok H.
  inv_Ok Ha. rename a0 into rows.
  apply name_all_genomes in Ha. simpl in Ha. rewrite Ha in Hin.
  apply Hg. eapply genome_order_metadata, tree_genomes_order; eauto.
Qed.

(** C5, as stated, fails: [BCRBG_48201] is a query leaf of the tree (its
    magset is not null and is not GTDB) without a row in the metadata, and
    [name_clades] returns its two tables; nothing is raised. *)
Lemma missing_metadata_raises_nothing :
  (∃ r, r ∈ Examples.small_tree ∧ is_query_leaf r = true ∧ genome r = Some "BCRBG_48201")
  ∧ ("BCRBG_48201" ∉ Name <$> Examples.partial_metadata)
  ∧ name_clades Examples.small_tree Examples.partial_metadata "d__Bacteria" []
    = Ok Examples.partial_output.
Proof.
  split; [|split].
  - eexists. split; [apply list_elem_of_lookup; exists 2%nat; reflexivity|].
    split; reflexivity.
  - apply (bool_decide_unpack _). vm_compute. exact I.
  - vm_compute. reflexivity.
Qed.

(** ** The rendered taxonomy of a genome that stops at a reference node (C6) *)

Lemma render_steps_no_GTDB gt l : ∀ acc,
  (∀ t n, t ∈ l → gt t ≠ GTDB n) →
  foldl (render_step gt) acc l = append_names acc (clade_names gt l).
Proof.
  induction l as [|t l IH]; intros acc Hl; [done|].
  simpl. unfold render_step at 2. unfold clade_names. simpl.
  destruct (gt t) as [|a name|n] eqn:Ht.
  - apply IH. intros ???. apply Hl. by right.
  - simpl. apply IH. intros ???. apply Hl. by right.
  - exfalso. eapply Hl; [by left | exact Ht].
Qed.

Lemma all_taxa_split t :
  all_taxa = take (taxon_index t) all_taxa ++ t :: ranks_below t.
Proof. by destruct t. Qed.

Lemma string_length_app (s t : string) :
  String.length (s +:+ t) = (String.length s + String.length t)%nat.
Proof. induction s as [|a s IH]; simpl; [done | by rewrite IH]. Qed.

Lemma append_names_length s names :
  (String.length s + length names ≤ String.length (append_names s names))%nat.
Proof.
  revert s. induction names as [|x names IH]; intros s; simpl; [lia|].
  etransitivity; [|apply IH].
  rewrite !string_length_app. simpl. lia.
Qed.

(** When the taxonomy holds a reference node [n] at rank [t] and no
    reference node below [t], the string rendered is the decimal node id
    followed by [";"] and the clade name of every rank below [t] that has
    one; it is the bare node id exactly when no rank below has a name. *)
Lemma render_at_reference (domain : string) (gt : taxon → slot) (t : taxon) (n : Z) :
  gt t = GTDB n →
  (∀ t' m, t' ∈ ranks_below t → gt t' ≠ GTDB m) →
  render domain gt = append_names (Str.of_Z n) (clade_names gt (ranks_below t))
  ∧ (render domain gt = Str.of_Z n ↔ clade_names gt (ranks_below t) = []).
Proof.
  intros Ht Hbelow.
  assert (render domain gt = append_names (Str.of_Z n) (clade_names gt (ranks_below t))) as Hr.
  { unfold render. rewrite (all_taxa_split t) at 1.
    rewrite foldl_app. simpl. unfold render_step at 2. rewrite Ht.
    by apply render_steps_no_GTDB. }
  split; [done|]. rewrite Hr. split.
  - intros Heq. pose proof (append_names_length (Str.of_Z n) (clade_names gt (ranks_below t))) as Hlen.
    rewrite Heq in Hlen. destruct (clade_names gt (ranks_below t)); [done | simpl in Hlen; lia].
  - by intros ->.
Qed.

(** C6, as stated, fails.  The walk of the genome of [truncate_tree] ends
    at the reference node 10000, which it records at the rank of family,
    and the string rendered is the node id followed by the names of two
    ranks.  The walk of the genome of [novel_tree] ends at the reference
    node 10000 too, but the node is labelled with the rank of phylum and
    is closer to the median of phylum than its parent: nothing is
    recorded, and the string rendered is a complete taxonomy. *)
Lemma reference_node_is_followed_by_ranks :
  (∃ pn st,
     walk_genome Examples.truncate_tree "d__Archaea" []
       {| run_ledger := ∅; run_nodes := []; run_genomes := [] |}
       "SPIREOTU_01842612" [10000; 0] = Ok (pn, st)
     ∧ genome_taxonomy st family = GTDB 10000)
  ∧ name_clades Examples.truncate_tree Examples.truncate_metadata "d__Archaea" []
    = Ok ([("SPIREOTU_01842612", Examples.truncate_string)],
          [(None, "g__SPIREOTU_01842612", "SPIREOTU_01842612");
           (None, "s__SPIREOTU_01842612 SPIREOTU_01842612", "SPIREOTU_01842612")])
  ∧ Examples.truncate_string ≠ Str.of_Z 10000
  ∧ get_info Examples.novel_tree 10000 = Ok ("", "phylum")
  ∧ (∃ st stop,
       walk_step Examples.novel_tree (median_reds "d__Archaea" []) "BCRBG_01105"
         (10000, ("", "phylum"))
         {| genome_taxonomy := λ _, Unset; child := None;
            node_taxonomy := ∅; nodes_output := [] |} = Ok (st, stop)
       ∧ stop = true ∧ ∀ t, genome_taxonomy st t = Unset)
  ∧ (∃ N, name_clades Examples.novel_tree Examples.novel_metadata "d__Archaea" []
          = Ok ([("BCRBG_01105", Examples.novel_string)], N))
  ∧ Examples.novel_string ≠ Str.of_Z 10000.
Proof.
  split; [|split; [|split; [|split; [|split; [|split]]]]].
  - eexists _, _. split; [vm_compute; reflexivity|]. reflexivity.
  - vm_compute. reflexivity.
  - vm_compute. discriminate.
  - vm_compute. reflexivity.
  - eexists _, _. split; [vm_compute; reflexivity|]. split; [done|]. by intros [].
  - eexists. vm_compute. reflexivity.
  - vm_compute. discriminate.
Qed.

(** ** Naming the ranks of a candidate *)

Lemma taxon_of_string_name s t : taxon_of_string s = Some t → s = taxon_name t.
Proof.
  unfold taxon_of_string. intros H.
  apply head_Some_elem_of, list_elem_of_filter in H as [H _]. done.
Qed.

Lemma all_taxa_complete t : t ∈ all_taxa.
Proof. apply list_elem_of_In. destruct t; simpl; tauto. Qed.

Lemma taxon_of_string_of_name t : taxon_of_string (taxon_name t) = Some t.
Proof. by destruct t. Qed.

Lemma set_slot_eq gt t v : set_slot gt t v t = v.
Proof. unfold set_slot. by rewrite bool_decide_eq_true_2. Qed.

Lemma set_slot_ne gt t v t' : t' ≠ t → set_slot gt t v t' = gt t'.
Proof. intros. unfold set_slot. by rewrite bool_decide_eq_false_2. Qed.

Section name_rank_facts.
Variable g : string.
Variable c0 : Z.

(** A turn of the naming loop leaves every rank but its own alone, and
    leaves its own rank alone when it has a value. *)
Lemma name_rank_slot gt out tt r gt' out' tt' t :
  name_rank g c0 (gt, out, tt) r = Ok (gt', out', tt') →
  (taxon_of_string r ≠ Some t ∨ gt t ≠ Unset) →
  gt' t = gt t.
Proof.
  unfold name_rank. intros H Ht. inv_Ok H. apply of_option_Ok in Ha. rename a into t0.
  destruct (is_unset (gt t0) && negb (Str.eqb r "species")) eqn:Hc; inv_Ok H; [|done].
  apply andb_prop in Hc as [Hu _].
  apply set_slot_ne. intros ->. destruct Ht as [Ht|Ht]; [congruence|].
  by destruct (gt t0).
Qed.

Lemma name_ranks_slot rs : ∀ gt out tt gt' out' tt' t,
  foldE (name_rank g c0) rs (gt, out, tt) = Ok (gt', out', tt') →
  (taxon_name t ∉ rs ∨ gt t ≠ Unset) →
  gt' t = gt t.
Proof.
  induction rs as [|r rs IH]; intros gt out tt gt' out' tt' t H Ht; simpl in H.
  - by inv_Ok H.
  - inv_Ok H. destruct a as [[gt1 out1] tt1].
    assert (gt1 t = gt t) as Heq.
    { eapply name_rank_slot; [exact Ha|].
      destruct Ht as [Ht|Ht]; [left|by right].
      intros Hr. apply taxon_of_string_name in Hr. subst r. apply Ht. by left. }
    rewrite <- Heq. eapply IH; [exact H|].
    destruct Ht as [Ht|Ht]; [left|right; by rewrite Heq].
    intros Hin. apply Ht. by right.
Qed.

(** The turn of an unnamed rank other than species names it after the
    genome and anchors it on the candidate. *)
Lemma name_rank_mint gt out tt t :
  gt t = Unset → t ≠ species →
  name_rank g c0 (gt, out, tt) (taxon_name t)
  = Ok (set_slot gt t (Clade (Some c0) (mint t g)),
        out ++ [(Some c0, mint t g, g)],
        <[t := mint t g]> tt).
Proof.
  intros Hu Hs. unfold name_rank. rewrite taxon_of_string_of_name. simpl.
  rewrite Hu. simpl. by destruct t.
Qed.
End name_rank_facts.

(** ** The comparison of RED distances (C3) *)

(** The default cutoffs as binary64 numbers: mantissa and exponent of what
    [float] reads in the strings of the source (for instance
    [float("0.3280941769231098")] is [5910419251733388 * 2 ** -54]). *)
Lemma default_cutoffs_as_floats :
  BAC_RED_CUTOFFS
  = [S754_finite false 5910419251733388 (-54); S754_finite false 8101576508887665 (-54);
     S754_finite false 5479530314238060 (-53); S754_finite false 6823981217082811 (-53);
     S754_finite false 8304953681866719 (-53)]
  ∧ ARC_RED_CUTOFFS
    = [S754_finite false 7669481889898210 (-55); S754_finite false 6463304415195814 (-54);
       S754_finite false 4788493673532532 (-53); S754_finite false 6530872807111240 (-53);
       S754_finite false 8169042417997465 (-53)]
  ∧ Forall (λ x, valid_binary Float.prec Float.emax x = true) (BAC_RED_CUTOFFS ++ ARC_RED_CUTOFFS).
Proof.
  split; [vm_compute; reflexivity|]. split; [vm_compute; reflexivity|].
  repeat constructor.
Qed.

Lemma child_red_closer_tie child_red parent_red median_red :
  SFcompare (red_distance child_red median_red) (red_distance parent_red median_red) = Some Eq →
  child_red_closer child_red parent_red median_red = false.
Proof. unfold child_red_closer, Float.ltb, SFltb. by intros ->. Qed.

(** The decimal literals 0.95 and 0.85 are not at the same distance of 0.9
    once read as floats: the differences are 0.04999999999999993 and
    0.050000000000000044. *)
Lemma rounded_distances_differ :
  red_distance (Float.of_decimal 95 2) (Float.of_decimal 9 1)
  = S754_finite false 7205759403792784 (-57)
  ∧ red_distance (Float.of_decimal 85 2) (Float.of_decimal 9 1)
    = S754_finite false 7205759403792800 (-57)
  ∧ child_red_closer (Float.of_decimal 95 2) (Float.of_decimal 85 2) (Float.of_decimal 9 1) = true.
Proof. repeat split; vm_compute; reflexivity. Qed.

Section red_comparison.
Variable tree_df : list tree_row.
Variable median : list (string * float).
Variable g : string.

(** C3, as amended.  A pending candidate [nc] whose first rank [t] is the
    rank in question at the ancestor [p] is compared with [p] by the
    distances of their RED values to the median of [t], each computed in
    floating point as [abs(red - median_red)].  The candidate is selected,
    that is [t] is named and anchored on [nc] and [p] is skipped, exactly
    when its computed distance is strictly smaller.  In every other case,
    and so when the two computed distances are equal, the candidate does
    not receive [t]: the rank is left to the node closer to the root. *)
Theorem pending_candidate_needs_strictly_smaller_distance
    (p nc : Z) (novelty_bounds : string * string) (n0 : string) (novelty_reds : list string)
    (skip_parent : bool) (t : taxon) (rs : list string) (st st' : walk_state)
    (skip_parent' : bool) (child_red parent_red median_red : float) :
  Str.eqb (taxon_name t) n0
    || (Str.eqb n0 "" && Str.eqb (taxon_name t) novelty_bounds.2) = true →
  get_node_red tree_df nc = Ok child_red →
  get_node_red tree_df p = Ok parent_red →
  dict_get median (taxon_name t) = Ok median_red →
  t ≠ species → taxon_name t ∉ rs → genome_taxonomy st t = Unset →
  resolve_child tree_df median g p novelty_bounds (n0 :: novelty_reds) skip_parent
    (nc, taxon_name t :: rs) st = Ok (st', skip_parent') →
  (Float.ltb (red_distance child_red median_red) (red_distance parent_red median_red) = true →
     genome_taxonomy st' t = Clade (Some nc) (mint t g)
     ∧ skip_parent' = negb (Str.eqb n0 ""))
  ∧ (Float.ltb (red_distance child_red median_red) (red_distance parent_red median_red) = false →
     genome_taxonomy st' t = Unset ∧ skip_parent' = skip_parent)
  ∧ (SFcompare (red_distance child_red median_red) (red_distance parent_red median_red) = Some Eq →
     genome_taxonomy st' t = Unset ∧ skip_parent' = skip_parent).
Proof.
  intros Hmatch Hc Hp Hm Hs Hrs Hu H.
  unfold resolve_child in H. simpl in H. rewrite Hmatch, Hc, Hp, Hm in H. simpl in H.
  assert (Float.ltb (red_distance child_red median_red) (red_distance parent_red median_red) = false →
          genome_taxonomy st' t = Unset ∧ skip_parent' = skip_parent) as Hfar.
  { intros Hge. unfold child_red_closer in H. rewrite Hge in H. simpl in H.
    inv_bind H as st1 Hname. inv_Ok H. simpl. split; [|done].
    destruct (0 <? length (tail rs))%nat; [|by inv_Ok Hname].
    unfold name_child_ranks in Hname. cbn [fst snd foldE] in Hname.
    inv_bind Hname as [[gt out] tt] Hfold. inv_Ok Hname. simpl.
    erewrite name_ranks_slot; [exact Hu | exact Hfold | by left]. }
  split; [|split; [exact Hfar|]].
  - intros Hlt. unfold child_red_closer in H. rewrite Hlt in H. simpl in H.
    inv_bind H as st1 Hname. inv_Ok H. simpl. split; [|done].
    unfold name_child_ranks in Hname. cbn [fst snd foldE] in Hname.
    inv_bind Hname as [[gt out] tt] Hfold. inv_Ok Hname. simpl.
    inv_bind Hfold as [[gt1 out1] tt1] Hstep.
    rewrite name_rank_mint in Hstep by done. inv_Ok Hstep.
    erewrite name_ranks_slot; [|exact Hfold|]; rewrite set_slot_eq; [done | by right].
  - intros Heq. apply Hfar. by apply child_red_closer_tie.
Qed.

End red_comparison.

Lemma pending_candidate_needs_strictly_smaller_distance_witness :
  (Float.ltb (red_distance (Float.of_decimal 90625 5) (Float.of_decimal 875 3))
             (red_distance (Float.of_decimal 84375 5) (Float.of_decimal 875 3)) = true →
     Unset = Clade (Some 10) (mint genus "SPIREOTU_01842612") ∧ false = negb (Str.eqb "genus" ""))
  ∧ (Float.ltb (red_distance (Float.of_decimal 90625 5) (Float.of_decimal 875 3))
               (red_distance (Float.of_decimal 84375 5) (Float.of_decimal 875 3)) = false →
     Unset = Unset ∧ false = false)
  ∧ (SFcompare (red_distance (Float.of_decimal 90625 5) (Float.of_decimal 875 3))
               (red_distance (Float.of_decimal 84375 5) (Float.of_decimal 875 3)) = Some Eq →
     Unset = Unset ∧ false = false).
Proof.
  apply (pending_candidate_needs_strictly_smaller_distance
           Examples.tie_tree (median_reds "d__Bacteria" Examples.tie_cutoffs)
           "SPIREOTU_01842612" 20 10 ("genus", "genus") "genus" [] false genus []
           Examples.tie_state
           {| genome_taxonomy := λ _, Unset; child := None;
              node_taxonomy := ∅; nodes_output := [] |}
           false (Float.of_decimal 90625 5) (Float.of_decimal 84375 5)
           (Float.of_decimal 875 3)).
  - reflexivity.
  - vm_compute. reflexivity.
  - vm_compute. reflexivity.
  - vm_compute. reflexivity.
  - discriminate.
  - apply not_elem_of_nil.
  - reflexivity.
  - vm_compute. reflexivity.
Defined.

(** C3, as stated, fails on a tie.  In [tie_tree] the two candidates for
    genus, node 10 (closer to the leaf) and node 20 (closer to the root),
    have the RED values 0.90625 and 0.84375, and the median of genus is
    0.875: the three are binary fractions, both differences are computed
    without rounding and both distances are 0.03125.  The comparison
    answers that the leaf-side candidate is not closer, and genus is
    anchored on node 20.  The distances compared are the computed ones: a
    leaf-side RED of 1e-20 is nearer to the median 0.3280941769231098 than
    the root-side RED 0, but both differences round to the median itself
    and the leaf-side candidate is not selected. *)
Lemma tie_is_won_by_the_root_side :
  get_node_red Examples.tie_tree 10 = Ok (Float.of_decimal 90625 5)
  ∧ get_node_red Examples.tie_tree 20 = Ok (Float.of_decimal 84375 5)
  ∧ dict_get (median_reds "d__Bacteria" Examples.tie_cutoffs) "genus"
    = Ok (Float.of_decimal 875 3)
  ∧ red_distance (Float.of_decimal 90625 5) (Float.of_decimal 875 3) = Float.of_decimal 3125 5
  ∧ red_distance (Float.of_decimal 84375 5) (Float.of_decimal 875 3) = Float.of_decimal 3125 5
  ∧ child_red_closer (Float.of_decimal 90625 5) (Float.of_decimal 84375 5)
      (Float.of_decimal 875 3) = false
  ∧ name_clades Examples.tie_tree Examples.tie_metadata "d__Bacteria" Examples.tie_cutoffs
    = Ok Examples.tie_output
  ∧ (Some 20, "g__SPIREOTU_01842612", "SPIREOTU_01842612") ∈ Examples.tie_output.2
  ∧ ((Some 10, "g__SPIREOTU_01842612", "SPIREOTU_01842612") ∉ Examples.tie_output.2)
  ∧ Float.ltb (Float.of_int 0) (Float.of_decimal 1 20) = true
  ∧ Float.ltb (Float.of_decimal 1 20) (Float.of_decimal 3280941769231098 16) = true
  ∧ red_distance (Float.of_decimal 1 20) (Float.of_decimal 3280941769231098 16)
    = red_distance (Float.of_int 0) (Float.of_decimal 3280941769231098 16)
  ∧ child_red_closer (Float.of_decimal 1 20) (Float.of_int 0)
      (Float.of_decimal 3280941769231098 16) = false.
Proof.
  repeat split; try (vm_compute; reflexivity).
  - apply (bool_decide_unpack _). vm_compute. exact I.
  - apply (bool_decide_unpack _). vm_compute. exact I.
Qed.

(** ** The species label (C2) *)


Section species_label.
Variable median : list (string * float).
Variable g : string.
Variable parent_novelty : list (Z * (string * string)).
Variable prenamed_taxons : list taxon.


End species_label.



(** ** The vote over the reference taxonomies (C1, C8) *)

Lemma sort_by_count_head l x :
  head (sort by_count l) = Some x → ∀ y, y ∈ l → (x.2 ≤ y.2)%nat.
Proof.
  revert x. induction l as [|a l IH]; intros x Hx y Hy; [by apply elem_of_nil in Hy|].
  simpl in Hx. destruct (sort by_count l) as [|b r] eqn:Hs.
  - assert (l = []) as ->.
    { apply Permutation_nil. by rewrite <- (sort_perm by_count l), Hs. }
    simpl in Hx. injection Hx as <-. by apply list_elem_of_singleton in Hy as ->.
  - simpl in Hx. unfold by_count at 1 in Hx.
    destruct (a.2 <=? b.2)%nat eqn:Hab; simpl in Hx; injection Hx as <-.
    + apply Nat.leb_le in Hab. apply elem_of_cons in Hy as [->|Hy]; [done|].
      etransitivity; [exact Hab|]. by apply IH.
    + apply Nat.leb_gt in Hab. apply elem_of_cons in Hy as [->|Hy]; [lia|]. by apply IH.
Qed.

Section vote.
Variable group_order : list (option string * nat) → list (option string * nat).
Hypothesis group_order_perm : ∀ l, group_order l ≡ₚ l.

(** Whatever the order of the groups, the prefix returned is one whose
    count is the least of all. *)
Lemma get_taxonomy_least_frequent tree_df gtdb_taxonomy n limit prefix extracted :
  descendant_prefixes tree_df gtdb_taxonomy n limit = Ok extracted →
  get_taxonomy group_order tree_df gtdb_taxonomy n limit = Ok prefix →
  ∃ count, (prefix, count) ∈ group_counts extracted
           ∧ ∀ kc, kc ∈ group_counts extracted → (count ≤ kc.2)%nat.
Proof.
  unfold get_taxonomy, prefix_counts. intros -> H. cbn in H.
  apply of_option_Ok in H.
  destruct (head _) as [[k c]|] eqn:Hhead; [|done]. injection H as ->.
  exists c. split.
  - apply head_Some_elem_of in Hhead. by rewrite sort_perm, group_order_perm in Hhead.
  - intros kc Hkc. eapply (sort_by_count_head _ (prefix, c)); [exact Hhead|].
    by rewrite group_order_perm.
Qed.

(** C1, on the failing input.  Below node 10 of [vote_tree] two reference
    leaves have the prefix of genus Alpha and one has the prefix of genus
    Beta.  [name_clades] leaves the query genome with the bare node id 10,
    and [fill_taxonomy] completes it with the prefix of Beta, the one that
    occurs least often. *)
Theorem vote_returns_the_least_frequent_prefix :
  name_clades Examples.vote_tree Examples.vote_metadata "d__Bacteria" []
  = Ok (Examples.vote_input, [])
  ∧ descendant_prefixes Examples.vote_tree Examples.vote_reference 10 ""
    = Ok [Some Examples.ALPHA; Some Examples.ALPHA; Some Examples.BETA]
  ∧ get_taxonomy group_order Examples.vote_tree Examples.vote_reference 10 ""
    = Ok (Some Examples.BETA)
  ∧ fill_taxonomy group_order Examples.vote_tree Examples.vote_reference
      Examples.vote_input []
    = Ok ([("query_1", Examples.BETA +:+ ";s__Beta query_1")],
          [(None, "s__Beta query_1", "query_1")]).
Proof.
  assert (descendant_prefixes Examples.vote_tree Examples.vote_reference 10 ""
          = Ok [Some Examples.ALPHA; Some Examples.ALPHA; Some Examples.BETA]) as Hd
    by (vm_compute; reflexivity).
  assert (get_taxonomy group_order Examples.vote_tree Examples.vote_reference 10 ""
          = Ok (Some Examples.BETA)) as Hg.
  { unfold get_taxonomy, prefix_counts. rewrite Hd. cbn [mbind result_bind].
    change (group_counts _) with [(Some Examples.ALPHA, 2%nat); (Some Examples.BETA, 1%nat)].
    pose proof (group_order_perm [(Some Examples.ALPHA, 2%nat); (Some Examples.BETA, 1%nat)]) as Hp.
    symmetry in Hp. apply Permutation_length_2_inv in Hp as [-> | ->]; reflexivity. }
  split; [vm_compute; reflexivity|]. split; [done|]. split; [done|].
  cbv -[get_taxonomy] in Hg |- *. rewrite Hg. reflexivity.
Qed.

End vote.

Lemma vote_returns_the_least_frequent_prefix_witness :
  name_clades Examples.vote_tree Examples.vote_metadata "d__Bacteria" []
  = Ok (Examples.vote_input, [])
  ∧ descendant_prefixes Examples.vote_tree Examples.vote_reference 10 ""
    = Ok [Some Examples.ALPHA; Some Examples.ALPHA; Some Examples.BETA]
  ∧ get_taxonomy (λ l, l) Examples.vote_tree Examples.vote_reference 10 ""
    = Ok (Some Examples.BETA)
  ∧ fill_taxonomy (λ l, l) Examples.vote_tree Examples.vote_reference
      Examples.vote_input []
    = Ok ([("query_1", Examples.BETA +:+ ";s__Beta query_1")],
          [(None, "s__Beta query_1", "query_1")]).
Proof.
  apply (vote_returns_the_least_frequent_prefix (λ l, l)). intros l. reflexivity.
Defined.

(** C8, on the failing input.  With one reference leaf of each genus below
    node 10, the two prefixes have the same count, and the completed
    taxonomy of the query genome follows the order in which the groups are
    yielded: the two admissible orders below give two different outputs for
    the same tables. *)
Theorem completion_depends_on_group_order :
  name_clades Examples.vote_tree Examples.vote_metadata "d__Bacteria" []
  = Ok (Examples.vote_input, [])
  ∧ (∀ l : list (option string * nat), (λ l, l) l ≡ₚ l)
  ∧ (∀ l : list (option string * nat), reverse l ≡ₚ l)
  ∧ fill_taxonomy (λ l, l) Examples.vote_tree Examples.even_reference Examples.vote_input []
    = Ok ([("query_1", Examples.ALPHA +:+ ";s__Alpha query_1")],
          [(None, "s__Alpha query_1", "query_1")])
  ∧ fill_taxonomy reverse Examples.vote_tree Examples.even_reference Examples.vote_input []
    = Ok ([("query_1", Examples.BETA +:+ ";s__Beta query_1")],
          [(None, "s__Beta query_1", "query_1")])
  ∧ fill_taxonomy (λ l, l) Examples.vote_tree Examples.even_reference Examples.vote_input []
    ≠ fill_taxonomy reverse Examples.vote_tree Examples.even_reference Examples.vote_input [].
Proof.
  split; [vm_compute; reflexivity|]. split; [done|]. split; [apply reverse_Permutation|].
  split; [vm_compute; reflexivity|]. split; [vm_compute; reflexivity|].
  vm_compute. discriminate.
Qed.

(** ** The ledger only grows (C4) *)

Lemma ledger_kept_refl L : ledger_kept L L.
Proof. by intros n t c. Qed.


Lemma ledger_kept_insert_fresh (L : gmap Z (gmap taxon string)) n d :
  L !! n = None → ledger_kept L (<[n := d]> L).
Proof.
  intros Hn n' t c. unfold ledger_get. intros H.
  destruct (decide (n' = n)) as [->|Hne].
  - rewrite Hn in H. discriminate.
  - by rewrite lookup_insert_ne.
Qed.

Lemma ledger_kept_set (L : gmap Z (gmap taxon string)) n t c :
  ledger_get L n t = None → ledger_kept L (ledger_set L n t c).
Proof.
  intros Hn n' t' c'. unfold ledger_get, ledger_set in *. intros H.
  destruct (decide (n' = n)) as [->|Hne].
  - destruct (L !! n) as [d|] eqn:Hd; simpl in *; [|discriminate].
    rewrite lookup_insert_eq. simpl.
    destruct (decide (t' = t)) as [->|Hnt]; [congruence|].
    by rewrite lookup_insert_ne.
  - destruct (L !! n); by rewrite lookup_insert_ne.
Qed.

Lemma filterE_true {A : Type} (f : A → result bool) (l l' : list A) (x : A) :
  filterE f l = Ok l' → x ∈ l' → f x = Ok true.
Proof.
  revert l'. induction l as [|y l IH]; intros l' H Hx; simpl in H.
  - inv_Ok H. by apply elem_of_nil in Hx.
  - inv_bind H as b Hb. inv_bind H as ys Hys. inv_Ok H.
    destruct b.
    + apply elem_of_cons in Hx as [->|Hx]; [done | eauto].
    + eauto.
Qed.

Lemma five_cutoffs_levels domain red_cutoffs t :
  five_cutoffs red_cutoffs →
  ∃ i, taxon_levels (median_reds domain red_cutoffs) (taxon_name t) = Ok i.
Proof.
  intros [-> | H].
  - unfold median_reds. case_bool_decide; destruct t; eexists; vm_compute; reflexivity.
  - destruct red_cutoffs as [|c1 [|c2 [|c3 [|c4 [|c5 rest]]]]]; simpl in H; try lia.
    destruct t; eexists; vm_compute; reflexivity.
Qed.

Section ledger_walk.
Variable tree_df : list tree_row.
Variable median : list (string * float).
Variable g : string.

Lemma name_child_ranks_ledger c st st' :
  node_taxonomy st !! c.1 = None →
  name_child_ranks g c st = Ok st' →
  ledger_kept (node_taxonomy st) (node_taxonomy st') ∧ child st' = child st.
Proof.
  intros Hc H. unfold name_child_ranks in H.
  inv_bind H as [[gt out] tt] Hfold. inv_Ok H. simpl. split; [|done].
  case_bool_decide; [apply ledger_kept_refl | by apply ledger_kept_insert_fresh].
Qed.

Lemma resolve_child_ledger p bounds reds skip c st st' skip' :
  node_taxonomy st !! c.1 = None →
  resolve_child tree_df median g p bounds reds skip c st = Ok (st', skip') →
  ledger_kept (node_taxonomy st) (node_taxonomy st') ∧ child st' = None.
Proof.
  intros Hc H. unfold resolve_child in H.
  inv_bind H as c10 Hc10. inv_bind H as n0 Hn0.
  inv_bind H as [[c' name_child] skip1] Hdecide.
  inv_bind H as st1 Hname. inv_Ok H. simpl. split; [|done].
  assert (c'.1 = c.1) as Hc'.
  { destruct (_ || _) in Hdecide; [|by inv_Ok Hdecide].
    inv_bind Hdecide as r1 Hr1. inv_bind Hdecide as r2 Hr2. inv_bind Hdecide as m Hm.
    destruct (child_red_closer _ _ _); by inv_Ok Hdecide. }
  destruct name_child; [|inv_Ok Hname; apply ledger_kept_refl].
  eapply name_child_ranks_ledger; [|exact Hname]. by rewrite Hc'.
Qed.

Lemma visit_parent_ledger p bounds reds st st' stop :
  child st = None →
  visit_parent tree_df median p bounds reds st = Ok (st', stop) →
  node_taxonomy st' = node_taxonomy st ∧ child_fresh st'.
Proof.
  intros Hchild H. unfold visit_parent in H.
  destruct (node_taxonomy st !! p) as [d|] eqn:Hp.
  - inv_Ok H. simpl. split; [done|]. intros c. simpl. by rewrite Hchild.
  - inv_bind H as n0 Hn0. destruct (Str.eqb n0 "").
    + inv_bind H as i Hi. inv_bind H as r1 Hr1. inv_bind H as r2 Hr2. inv_bind H as m Hm.
      destruct (if child_red_closer r1 r2 m then i else S i) as [|k].
      * inv_Ok H. split; [done|]. intros c. by rewrite Hchild.
      * inv_bind H as t Ht. inv_Ok H. simpl. split; [done|]. intros c. simpl.
        by rewrite Hchild.
    + inv_Ok H. simpl. split; [done|]. intros c [= <-]. done.
Qed.

Lemma walk_step_ledger pn st st' stop :
  child_fresh st →
  walk_step tree_df median g pn st = Ok (st', stop) →
  ledger_kept (node_taxonomy st) (node_taxonomy st') ∧ child_fresh st'.
Proof.
  intros Hfresh H. destruct pn as [p bounds]. unfold walk_step in H.
  inv_bind H as [reds skip] Hrange. inv_bind H as [st1 skip1] Hresolve.
  assert (ledger_kept (node_taxonomy st) (node_taxonomy st1) ∧ child st1 = None) as [Hk Hc].
  { destruct (child st) as [c|] eqn:Hchild.
    - eapply resolve_child_ledger; [|exact Hresolve]. by apply Hfresh.
    - inv_Ok Hresolve. split; [apply ledger_kept_refl | done]. }
  destruct skip1.
  - inv_Ok H. split; [done|]. intros c. by rewrite Hc.
  - apply visit_parent_ledger in H as [HL Hf]; [|done]. split; [by rewrite HL | done].
Qed.


End ledger_walk.

Lemma mapE_Raise {A B : Type} (f : A → result B) (l : list A) (e : exn) :
  mapE f l = Raise e → ∃ x, x ∈ l ∧ f x = Raise e.
Proof.
  induction l as [|x l IH]; simpl; [discriminate|].
  destruct (f x) as [y|e'] eqn:Hx; simpl.
  - destruct (mapE f l) as [ys|e'']; simpl; [discriminate|].
    intros [= ->]. destruct IH as (x' & Hin & Hx'); [done|].
    exists x'. split; [by right | done].
  - intros [= ->]. exists x. split; [by left | done].
Qed.

Section ledger_fill.
Variable median : list (string * float).
Variable g : string.
Variable parent_novelty : list (Z * (string * string)).
Variable prenamed_taxons : list taxon.

Hypothesis levels : ∀ t, ∃ i, taxon_levels median (taxon_name t) = Ok i.

(** A node accepted by [is_lower_node] for a rank has no entry at that
    rank. *)
Lemma is_lower_node_absent (L : gmap Z (gmap taxon string)) n t :
  is_lower_node median L n t = Ok true → ledger_get L n t = None.
Proof.
  unfold is_lower_node, ledger_get. intros H. inv_bind H as target Htarget.
  destruct (L !! n) as [d|]; [|done]. simpl.
  destruct (mapE _ (ledger_keys d)) as [node_levels|e] eqn:Hkeys.
  - inv_Ok H. destruct (d !! t) as [c|] eqn:Hdt; [|done]. exfalso.
    assert (t ∈ ledger_keys d) as Hin.
    { apply list_elem_of_filter. split; [by rewrite Hdt | apply all_taxa_complete]. }
    apply mapE_Forall2 in Hkeys.
    apply list_elem_of_lookup in Hin as (k & Hk).
    eapply Forall2_lookup_l in Hkeys as (l & Hl & Hlevel); [|exact Hk].
    rewrite Htarget in Hlevel. inv_Ok Hlevel.
    rewrite forallb_forall in H. apply list_elem_of_lookup_2, list_elem_of_In in Hl.
    apply H in Hl. apply Nat.ltb_lt in Hl. lia.
  - exfalso. apply mapE_Raise in Hkeys as (k & _ & Hk).
    destruct (levels k) as (i & Hi). congruence.
Qed.

Lemma note_genus_naming t clade_name fs fs' :
  note_genus g t clade_name fs = Ok fs' → naming fs' = naming fs.
Proof.
  unfold note_genus. destruct (_ && _); intros H; [|by inv_Ok H].
  inv_bind H as i Hi. by inv_Ok H.
Qed.

Lemma place_ledger t clade_name fs fs' :
  place median g parent_novelty prenamed_taxons t clade_name fs = Ok fs' →
  ledger_kept (node_taxonomy (naming fs)) (node_taxonomy (naming fs')).
Proof.
  unfold place. intros H. inv_bind H as mid Hmid. inv_bind H as viable Hviable.
  apply note_genus_naming in H. rewrite H. simpl.
  destruct (last viable) as [[n bounds]|] eqn:Hlast; simpl; [|apply ledger_kept_refl].
  apply ledger_kept_set. destruct mid; [|inv_Ok Hviable; discriminate].
  assert ((n, bounds) ∈ viable) as Hin.
  { apply last_Some in Hlast as (l' & ->). apply elem_of_app. right. by left. }
  eapply filterE_true in Hviable; [|exact Hin].
  unfold is_viable in Hviable. simpl in Hviable.
  destruct (not_gtdb bounds); [|discriminate].
  inv_bind Hviable as w Hw. destruct w; [|discriminate].
  by apply is_lower_node_absent.
Qed.



End ledger_fill.

Section ledger_run.
Variable tree_df : list tree_row.
Variable domain : string.
Variable red_cutoffs : list float.

Hypothesis cutoffs : five_cutoffs red_cutoffs.



End ledger_run.


(** ** Clade names are unique (C7) *)

(** *** Strings *)

Lemma has_char_app c s t : has_char c (s +:+ t) = has_char c s || has_char c t.
Proof. induction s as [|a s IH]; simpl; [done|]. by rewrite IH, orb_assoc. Qed.

Lemma blank_suffix_inj x x' g g' :
  x +:+ " " +:+ g = x' +:+ " " +:+ g' → no_blank g → no_blank g' → g = g'.
Proof.
  unfold no_blank. revert x'. induction x as [|a x IH]; intros [|a' x'] H Hg Hg'; cbn in H.
  - by injection H.
  - injection H as _ H. change ("" +:+ g) with g in H.
    rewrite H, has_char_app in Hg. cbn in Hg. by rewrite orb_true_r in Hg.
  - injection H as _ H. change ("" +:+ g') with g' in H.
    rewrite <- H, has_char_app in Hg'. cbn in Hg'. by rewrite orb_true_r in Hg'.
  - injection H as _ H. eauto.
Qed.

Lemma mint_inj t t' g g' : mint t g = mint t' g' → t = t' ∧ g = g'.
Proof. destruct t, t'; vm_compute; intros [= ->]; done. Qed.

Lemma minted_not_species g g' c : minted_for g c → species_for g' c → False.
Proof. intros (t & Ht & ->) (x & Hx). destruct t; vm_compute in Hx; done. Qed.

(** Two genomes without blanks do not share a clade name. *)
Lemma clade_owner g g' c :
  no_blank g → no_blank g' →
  minted_for g c ∨ species_for g c →
  minted_for g' c ∨ species_for g' c →
  g = g'.
Proof.
  intros Hg Hg' [Hm|Hs] [Hm'|Hs'].
  - destruct Hm as (t & _ & ->), Hm' as (t' & _ & H). by apply mint_inj in H as [_ ?].
  - by destruct (minted_not_species g g' c).
  - by destruct (minted_not_species g' g c).
  - destruct Hs as (x & ->), Hs' as (x' & H). injection H as H.
    by eapply blank_suffix_inj.
Qed.

Lemma split_nonempty c s : Str.split c s ≠ [].
Proof.
  destruct s as [|a s]; simpl; [done|].
  destruct (Ascii.eqb a c); [done|]. by destruct (Str.split c s).
Qed.

Lemma split_app c a b :
  Str.split c (a +:+ String c b) = Str.split c a ++ Str.split c b.
Proof.
  induction a as [|x a IH]; simpl.
  - by rewrite Ascii.eqb_refl.
  - destruct (Ascii.eqb x c); [by rewrite IH|].
    rewrite IH. pose proof (split_nonempty c a) as Hne.
    by destruct (Str.split c a).
Qed.

Lemma split_single c s : Str.split c s = [""] → s = "".
Proof.
  destruct s as [|a s]; simpl; [done|].
  destruct (Ascii.eqb a c).
  - intros [= H]. by destruct (split_nonempty c s).
  - by destruct (Str.split c s).
Qed.

Lemma join_empty sep l : sep ≠ "" → Str.join sep l = "" → l = [] ∨ l = [""].
Proof.
  intros Hsep. destruct l as [|w [|w' ws]]; simpl; [by left | intros ->; by right |].
  intros H. exfalso. apply (f_equal String.length) in H.
  rewrite !string_length_app in H. simpl in H.
  destruct sep; [done|]. simpl in H. lia.
Qed.

(** A taxonomy string that ends with [";"] and a non-empty name has a
    non-empty named part. *)
Lemma named_part_nonempty X c : c ≠ "" → named_part (X +:+ ";" +:+ c) ≠ "".
Proof.
  intros Hc H. unfold named_part in H.
  change (X +:+ ";" +:+ c) with (X +:+ String ";" c) in H.
  rewrite split_app in H.
  pose proof (split_nonempty ";" X) as HX.
  destruct (Str.split ";" X) as [|w ws]; [done|]. simpl in H.
  apply join_empty in H; [|done]. destruct H as [H|H].
  - apply app_eq_nil in H as [_ H]. by destruct (split_nonempty ";" c).
  - destruct ws as [|w' ws]; simpl in H.
    + by apply split_single in H.
    + injection H as _ H. apply app_eq_nil in H as [_ H].
      by destruct (split_nonempty ";" c).
Qed.

(** *** The rows added for one genome *)

Lemma slots_kept_refl gt : slots_kept gt gt.
Proof. by intros t. Qed.

Lemma slots_kept_trans gt1 gt2 gt3 :
  slots_kept gt1 gt2 → slots_kept gt2 gt3 → slots_kept gt1 gt3.
Proof. intros H12 H23 t H. by apply H23, H12. Qed.

Lemma slots_kept_set gt t v : v ≠ Unset → slots_kept gt (set_slot gt t v).
Proof.
  intros Hv t' Ht'. unfold set_slot. by case_bool_decide.
Qed.

Lemma slots_kept_copy p d gt : slots_kept gt (copy_ledger p d gt).
Proof. intros t Ht. unfold copy_ledger. by destruct (d !! t). Qed.

Section genome_rows_facts.
Variable g : string.
Variable out0 : list node_name.

Lemma genome_rows_slots gt gt' out :
  genome_rows g out0 gt out → slots_kept gt gt' → genome_rows g out0 gt' out.
Proof.
  intros (new & -> & Hnd & Hall) Hk. exists new. split; [done|]. split; [done|].
  eapply Forall_impl; [exact Hall|]. intros r (t & ? & ? & ? & ?). exists t. eauto.
Qed.

(** A rank without a value has no row yet, so its row can be added. *)
Lemma genome_rows_add gt out t a :
  genome_rows g out0 gt out → gt t = Unset → t ≠ species →
  genome_rows g out0 (set_slot gt t (Clade a (mint t g))) (out ++ [(a, mint t g, g)]).
Proof.
  intros (new & -> & Hnd & Hall) Hu Hs. exists (new ++ [(a, mint t g, g)]).
  split; [by rewrite app_assoc|]. split.
  - rewrite fmap_app. apply NoDup_app. split; [done|]. split; [|apply NoDup_singleton].
    intros c Hc Hc'. apply list_elem_of_singleton in Hc'. subst c.
    apply list_elem_of_fmap in Hc as (r & Hr & Hin).
    rewrite Forall_forall in Hall. destruct (Hall r Hin) as (t' & _ & Hm & _ & Hset).
    unfold clade_of in Hr at 1. simpl in Hr. rewrite Hm in Hr.
    apply mint_inj in Hr as [-> _]. done.
  - apply Forall_app. split.
    + eapply Forall_impl; [exact Hall|]. intros r (t' & ? & ? & ? & Hset).
      exists t'. repeat split; try done. by apply slots_kept_set.
    + apply Forall_singleton. exists t. repeat split; try done.
      by rewrite set_slot_eq.
Qed.

Lemma name_rank_rows c0 gt out tt r gt' out' tt' :
  genome_rows g out0 gt out →
  name_rank g c0 (gt, out, tt) r = Ok (gt', out', tt') →
  genome_rows g out0 gt' out'.
Proof.
  intros Hrows H. unfold name_rank in H. inv_bind H as t Ht. apply of_option_Ok in Ht.
  destruct (is_unset (gt t) && negb (Str.eqb r "species")) eqn:Hc; inv_Ok H; [|done].
  apply andb_prop in Hc as [Hu Hs]. apply genome_rows_add; [done| |].
  - by destruct (gt t).
  - intros ->. apply taxon_of_string_name in Ht. subst r. done.
Qed.

Lemma name_ranks_rows c0 rs : ∀ gt out tt gt' out' tt',
  genome_rows g out0 gt out →
  foldE (name_rank g c0) rs (gt, out, tt) = Ok (gt', out', tt') →
  genome_rows g out0 gt' out'.
Proof.
  induction rs as [|r rs IH]; intros gt out tt gt' out' tt' Hrows H; simpl in H.
  - by inv_Ok H.
  - inv_bind H as [[gt1 out1] tt1] Hstep. eapply IH; [|exact H].
    by eapply name_rank_rows.
Qed.

Lemma name_child_ranks_rows c st st' :
  rows_inv g out0 st → name_child_ranks g c st = Ok st' → rows_inv g out0 st'.
Proof.
  unfold rows_inv. intros Hrows H. unfold name_child_ranks in H.
  inv_bind H as [[gt out] tt] Hfold. inv_Ok H. simpl. by eapply name_ranks_rows.
Qed.

Section walk_rows.
Variable tree_df : list tree_row.
Variable median : list (string * float).

Lemma resolve_child_rows p bounds reds skip c st st' skip' :
  rows_inv g out0 st →
  resolve_child tree_df median g p bounds reds skip c st = Ok (st', skip') →
  rows_inv g out0 st'.
Proof.
  intros Hrows H. unfold resolve_child in H.
  inv_bind H as c10 Hc10. inv_bind H as n0 Hn0.
  inv_bind H as [[c' name_child] skip1] Hdecide.
  inv_bind H as st1 Hname. inv_Ok H. unfold rows_inv. simpl.
  destruct name_child; [by eapply name_child_ranks_rows | by inv_Ok Hname].
Qed.

Lemma visit_parent_rows p bounds reds st st' stop :
  rows_inv g out0 st →
  visit_parent tree_df median p bounds reds st = Ok (st', stop) →
  rows_inv g out0 st'.
Proof.
  unfold rows_inv. intros Hrows H. unfold visit_parent in H.
  destruct (node_taxonomy st !! p) as [d|].
  - inv_Ok H. simpl. eapply genome_rows_slots; [exact Hrows | apply slots_kept_copy].
  - inv_bind H as n0 Hn0. destruct (Str.eqb n0 "").
    + inv_bind H as i Hi. inv_bind H as r1 Hr1. inv_bind H as r2 Hr2. inv_bind H as m Hm.
      destruct (if child_red_closer r1 r2 m then i else S i) as [|k].
      * by inv_Ok H.
      * inv_bind H as t Ht. inv_Ok H. simpl.
        eapply genome_rows_slots; [exact Hrows | by apply slots_kept_set].
    + by inv_Ok H.
Qed.

Lemma walk_step_rows pn st st' stop :
  rows_inv g out0 st → walk_step tree_df median g pn st = Ok (st', stop) → rows_inv g out0 st'.
Proof.
  intros Hrows H. destruct pn as [p bounds]. unfold walk_step in H.
  inv_bind H as [reds skip] Hrange. inv_bind H as [st1 skip1] Hresolve.
  assert (rows_inv g out0 st1) as Hrows1.
  { destruct (child st) as [c|].
    - by eapply resolve_child_rows.
    - by inv_Ok Hresolve. }
  destruct skip1; [by inv_Ok H | by eapply visit_parent_rows].
Qed.

Lemma walk_rows pns : ∀ st st',
  rows_inv g out0 st → walk tree_df median g pns st = Ok st' → rows_inv g out0 st'.
Proof.
  induction pns as [|pn pns IH]; intros st st' Hrows H; simpl in H.
  - by inv_Ok H.
  - inv_bind H as [st1 stop] Hstep. apply walk_step_rows in Hstep; [|done].
    destruct stop; [by inv_Ok H | eauto].
Qed.

End walk_rows.

Lemma inherit_step_slots h gt it gt' :
  inherit_step h gt it = Ok gt' → slots_kept gt gt'.
Proof.
  destruct it as [i name]. unfold inherit_step.
  destruct (String.prefix "d__" name); intros H; [inv_Ok H; apply slots_kept_refl|].
  inv_bind H as c Hc. inv_bind H as v Hv. inv_bind H as t Ht. inv_Ok H.
  apply slots_kept_set. destruct (Str.is_digit c).
  - inv_bind Hv as n Hn. by inv_Ok Hv.
  - by inv_Ok Hv.
Qed.

Lemma inherit_ancestors_slots out G gt gt' :
  inherit_ancestors out G gt = Ok gt' → slots_kept gt gt'.
Proof.
  unfold inherit_ancestors. intros H.
  destruct (first_set gt) as [[[|k] [|a name|n]]|]; try (inv_Ok H; apply slots_kept_refl).
  inv_bind H as tb Htb. inv_bind H as tt Htt.
  revert gt H. generalize (imap pair (reverse (Str.split ";" (Str.before (";" +:+ name) tt)))).
  intros l. induction l as [|it l IH]; intros gt H; simpl in H.
  - inv_Ok H. apply slots_kept_refl.
  - inv_bind H as gt1 Hstep. eapply slots_kept_trans; [by eapply inherit_step_slots | eauto].
Qed.

End genome_rows_facts.

Section fill_rows.
Variable median : list (string * float).
Variable g : string.
Variable parent_novelty : list (Z * (string * string)).
Variable prenamed_taxons : list taxon.
Variable out0 : list node_name.

Let step := fill_step median g parent_novelty prenamed_taxons.

Lemma note_genus_label t clade_name fs fs' :
  label_ok g fs → note_genus g t clade_name fs = Ok fs' → label_ok g fs'.
Proof.
  unfold note_genus. intros Hl H. destruct (_ && _); [|by inv_Ok H].
  inv_bind H as i Hi. inv_Ok H. right. simpl. by eexists.
Qed.

Lemma place_rows t fs fs' :
  rows_inv g out0 (naming fs) → label_ok g fs →
  genome_taxonomy (naming fs) t = Unset → t ≠ species →
  place median g parent_novelty prenamed_taxons t (mint t g) fs = Ok fs' →
  rows_inv g out0 (naming fs') ∧ label_ok g fs'.
Proof.
  intros Hrows Hl Hu Hs H. unfold place in H.
  inv_bind H as mid Hmid. inv_bind H as viable Hviable.
  split.
  - apply note_genus_naming in H. rewrite H. unfold rows_inv. simpl.
    by apply genome_rows_add.
  - eapply note_genus_label; [|exact H]. exact Hl.
Qed.

(** The turn of a rank above species. *)
Lemma fill_step_rows t fs fs' :
  t ≠ species →
  rows_inv g out0 (naming fs) → label_ok g fs →
  step fs t = Ok fs' →
  rows_inv g out0 (naming fs') ∧ label_ok g fs'.
Proof.
  intros Hs Hrows Hl H. unfold step, fill_step in H.
  destruct (genome_taxonomy (naming fs) t) as [|a name|n] eqn:Ht.
  - destruct (taxon_fill fs t).
    + rewrite bool_decide_eq_false_2 in H by done. by eapply place_rows.
    + split; [by rewrite (note_genus_naming _ _ _ _ _ H) | by eapply note_genus_label].
  - split; [by rewrite (note_genus_naming _ _ _ _ _ H)|].
    eapply note_genus_label; [|exact H]. exact Hl.
  - inv_Ok H. done.
Qed.

Lemma fill_steps_rows l : ∀ fs fs',
  species ∉ l →
  rows_inv g out0 (naming fs) → label_ok g fs →
  foldE step l fs = Ok fs' →
  rows_inv g out0 (naming fs') ∧ label_ok g fs'.
Proof.
  induction l as [|t l IH]; intros fs fs' Hl Hrows Hlabel H; simpl in H.
  - by inv_Ok H.
  - inv_bind H as fs1 Hstep. apply not_elem_of_cons in Hl as [Ht Hl].
    apply fill_step_rows in Hstep as [Hrows1 Hlabel1]; eauto.
Qed.

(** The turn of species adds no row, or one row with a species label. *)
Lemma fill_species_rows fs fs' :
  label_ok g fs →
  step fs species = Ok fs' →
  nodes_output (naming fs') = nodes_output (naming fs)
  ∨ ∃ label, species_for g label
             ∧ nodes_output (naming fs') = nodes_output (naming fs) ++ [(None, label, g)]
             ∧ genome_taxonomy (naming fs') species = Clade None label.
Proof.
  intros Hl H. unfold step, fill_step in H.
  destruct (genome_taxonomy (naming fs) species) as [|a name|n] eqn:Ht.
  - destruct (taxon_fill fs species).
    + rewrite bool_decide_eq_true_2 in H by done.
      destruct (Str.eqb (species_name fs) "") eqn:He; [inv_Ok H; by left|].
      destruct Hl as [Hl|Hl]; [by rewrite Hl in He|].
      unfold place in H. rewrite bool_decide_eq_true_2 in H by done. cbn in H.
      apply note_genus_naming in H. rewrite H. cbn. right.
      exists (species_name fs). split; [done|]. split; [done|]. by rewrite set_slot_eq.
    + apply note_genus_naming in H. rewrite H. by left.
  - apply note_genus_naming in H. rewrite H. by left.
  - inv_Ok H. by left.
Qed.

End fill_rows.

Lemma render_species domain gt a label :
  gt species = Clade a label →
  ∃ X, render domain gt = X +:+ ";" +:+ label.
Proof.
  intros H. unfold render. change all_taxa with ([phylum; class; order; family; genus] ++ [species]).
  rewrite foldl_app. simpl. unfold render_step at 1. rewrite H. by eexists.
Qed.

(** *** The rows of a run *)

Lemma row_ok_more G x r : row_ok G r → row_ok (G ++ [x]) r.
Proof.
  intros [Hin Hform]. split.
  - rewrite fmap_app. apply elem_of_app. by left.
  - destruct Hform as [Hm | (Hs & X & HX)]; [by left|].
    right. split; [done|]. exists X. apply elem_of_app. by left.
Qed.

Lemma row_ok_owner G r :
  row_ok G r → r.2 ∈ G.*1 ∧ (minted_for r.2 (clade_of r) ∨ species_for r.2 (clade_of r)).
Proof. intros [Hin [Hm | [Hs _]]]; eauto. Qed.

(** Adding the rows of a new genome keeps the table in order. *)
Lemma run_ok_extend G out0 g new sp taxonomy :
  NoDup (clade_of <$> out0) → Forall (row_ok G) out0 →
  g ∉ G.*1 → no_blank g → (∀ g', g' ∈ G.*1 → no_blank g') →
  NoDup (clade_of <$> new) →
  Forall (λ r : node_name, minted_for g (clade_of r) ∧ r.2 = g) new →
  (sp = [] ∨ ∃ label X, sp = [(None, label, g)] ∧ species_for g label
                        ∧ taxonomy = X +:+ ";" +:+ label) →
  NoDup (clade_of <$> (out0 ++ new ++ sp))
  ∧ Forall (row_ok (G ++ [(g, taxonomy)])) (out0 ++ new ++ sp).
Proof.
  intros Hnd0 Hok0 Hg Hblank Hblanks Hnd Hnew Hsp.
  assert (Forall (λ r : node_name, (minted_for g (clade_of r) ∨ species_for g (clade_of r))
                                   ∧ r.2 = g) (new ++ sp)) as Hform.
  { apply Forall_app. split.
    - eapply Forall_impl; [exact Hnew|]. intros r [? ?]. eauto.
    - destruct Hsp as [-> | (label & X & -> & Hs & _)]; [constructor|].
      apply Forall_singleton. eauto. }
  assert (NoDup (clade_of <$> (new ++ sp))) as Hnd'.
  { destruct Hsp as [-> | (label & X & -> & Hs & _)]; [by rewrite app_nil_r|].
    rewrite fmap_app. apply NoDup_app. split; [done|]. split; [|apply NoDup_singleton].
    intros c Hc Hc'. apply list_elem_of_singleton in Hc'. subst c.
    apply list_elem_of_fmap in Hc as (r & Hr & Hin).
    rewrite Forall_forall in Hnew. destruct (Hnew r Hin) as [Hm _].
    eapply minted_not_species; [exact Hm|]. by rewrite <- Hr. }
  split.
  - rewrite fmap_app. apply NoDup_app. split; [done|]. split; [|done].
    intros c Hc Hc'.
    apply list_elem_of_fmap in Hc as (r0 & -> & Hin0).
    apply list_elem_of_fmap in Hc' as (r & Hr & Hin).
    rewrite Forall_forall in Hok0. destruct (row_ok_owner _ _ (Hok0 r0 Hin0)) as [Hrep Hf0].
    rewrite Forall_forall in Hform. destruct (Hform r Hin) as [Hf _].
    rewrite <- Hr in Hf.
    assert (r0.2 = g) as Heq by (eapply clade_owner; eauto).
    apply Hg. by rewrite <- Heq.
  - apply Forall_app. split; [|apply Forall_app; split].
    + eapply Forall_impl; [exact Hok0|]. intros r. apply row_ok_more.
    + eapply Forall_impl; [exact Hnew|]. intros r [Hm Hr]. split; [|rewrite Hr; by left].
      rewrite Hr, fmap_app. apply elem_of_app. right. by left.
    + destruct Hsp as [-> | (label & X & -> & Hs & ->)]; [constructor|].
      apply Forall_singleton. split.
      * rewrite fmap_app. apply elem_of_app. right. by left.
      * right. split; [done|]. exists X. apply elem_of_app. right. by left.
Qed.

Section run_rows.
Variable tree_df : list tree_row.
Variable domain : string.
Variable red_cutoffs : list float.

Lemma name_genome_ok rs row rs' :
  run_ok rs →
  row.1 ∉ (run_genomes rs).*1 →
  no_blank row.1 → (∀ g, g ∈ (run_genomes rs).*1 → no_blank g) →
  name_genome tree_df domain red_cutoffs rs row = Ok rs' →
  run_ok rs'.
Proof.
  intros [Hnd Hok] Hg Hblank Hblanks H. destruct row as [g parents]. simpl in *.
  unfold name_genome in H. inv_bind H as [pn st] Hwalk. cbn [fst snd] in H.
  unfold walk_genome in Hwalk. inv_bind Hwalk as pn' Hpn. inv_bind Hwalk as st0 Hw.
  inv_Ok Hwalk.
  apply (walk_rows g (run_nodes rs)) in Hw;
    [|exists []; split; [by rewrite app_nil_r|]; split; constructor].
  unfold assemble_genome in H. inv_bind H as gt Hgt. inv_bind H as fs Hfill. inv_Ok H.
  apply inherit_ancestors_slots in Hgt.
  change all_taxa with ([phylum; class; order; family; genus] ++ [species]) in Hfill.
  rewrite foldE_app in Hfill. inv_bind Hfill as fs5 Hfive.
  cbn [foldE] in Hfill. inv_bind Hfill as fs6 Hspecies. inv_Ok Hfill.
  eapply (fill_steps_rows _ g _ _ (run_nodes rs)) in Hfive as [Hrows Hlabel]; cycle 1.
  { intros Hin. repeat (apply elem_of_cons in Hin as [Hin|Hin]; [discriminate|]).
    by apply elem_of_nil in Hin. }
  { unfold rows_inv. cbn. eapply genome_rows_slots; [exact Hw | exact Hgt]. }
  { by left. }
  destruct Hrows as (new & Hout & Hndnew & Hnew).
  apply fill_species_rows in Hspecies as Hsp; [|done].
  unfold run_ok. cbn [run_nodes run_genomes].
  assert (nodes_output (naming fs) = run_nodes rs ++ new ++ []
          ∨ ∃ label, species_for g label
                     ∧ nodes_output (naming fs) = run_nodes rs ++ new ++ [(None, label, g)]
                     ∧ genome_taxonomy (naming fs) species = Clade None label) as Hcases.
  { destruct Hsp as [Hsp | (label & Hs & Hsp & Hslot)].
    - left. by rewrite Hsp, Hout, app_nil_r.
    - right. exists label. split; [done|]. split; [|done]. by rewrite Hsp, Hout, app_assoc. }
  assert (Forall (λ r : node_name, minted_for g (clade_of r) ∧ r.2 = g) new) as Hnew'.
  { eapply Forall_impl; [exact Hnew|]. intros r (t & Ht & Hc & Hr & _).
    split; [by exists t | done]. }
  destruct Hcases as [-> | (label & Hs & -> & Hslot)].
  - eapply run_ok_extend; eauto.
  - destruct (render_species domain _ _ _ Hslot) as (X & HX).
    eapply run_ok_extend; eauto. right. eauto.
Qed.

Lemma name_genomes_ok rows : ∀ rs rs',
  run_ok rs →
  NoDup ((run_genomes rs).*1 ++ rows.*1) →
  (∀ g, g ∈ (run_genomes rs).*1 ++ rows.*1 → no_blank g) →
  foldE (name_genome tree_df domain red_cutoffs) rows rs = Ok rs' →
  run_ok rs'.
Proof.
  induction rows as [|row rows IH]; intros rs rs' Hok Hnd Hblank H; simpl in H.
  - by inv_Ok H.
  - inv_bind H as rs1 Hstep.
    destruct (name_genome_genomes _ _ _ _ _ _ Hstep) as (taxonomy & Hgen).
    simpl in Hnd.
    assert ((run_genomes rs1).*1 ++ rows.*1 = (run_genomes rs).*1 ++ row.1 :: rows.*1) as Heq.
    { rewrite Hgen, fmap_app, <- app_assoc. done. }
    eapply IH; [| | |exact H].
    + eapply name_genome_ok; [exact Hok| | | |exact Hstep].
      * apply NoDup_app in Hnd as (_ & Hdisj & _). intros Hin.
        eapply Hdisj; [exact Hin | by left].
      * apply Hblank. apply elem_of_app. right. by left.
      * intros g Hin. apply Hblank. apply elem_of_app. by left.
    + by rewrite Heq.
    + intros g Hin. apply Hblank. rewrite Heq in Hin. exact Hin.
Qed.

End run_rows.

(** *** The genomes named are distinct *)

Section join.
Context {A B C : Type}.
Variable key : A → option string.
Variable tkey : B → string.
Variable mk : string → A → B → C.
Variable proj : C → string.
Hypothesis proj_mk : ∀ g a b, proj (mk g a b) = g.

(** An inner join on a key: the rows of [table] with the key of [a]. *)
Let matches (table : list B) (a : A) : list C :=
  match key a with
  | None => []
  | Some g => mk g a <$> filter (λ b, tkey b = g) table
  end.

Lemma filter_key_length table g :
  NoDup (tkey <$> table) → (length (filter (λ b, tkey b = g) table) ≤ 1)%nat.
Proof.
  induction table as [|b table IH]; intros Hnd; [simpl; lia|].
  rewrite fmap_cons in Hnd. apply NoDup_cons in Hnd as [Hb Hnd].
  rewrite filter_cons. case_decide as Hg; [|by apply IH].
  assert (filter (λ b, tkey b = g) table = []) as ->; [|simpl; lia].
  destruct (filter (λ b, tkey b = g) table) as [|b' bs] eqn:Hf; [done|]. exfalso.
  assert (b' ∈ filter (λ b, tkey b = g) table) as Hin by (rewrite Hf; by left).
  apply list_elem_of_filter in Hin as [Hb' Hin]. apply Hb.
  rewrite Hg, <- Hb'. by apply list_elem_of_fmap_2.
Qed.

Lemma matches_keys table a x :
  x ∈ proj <$> matches table a → key a = Some x.
Proof.
  unfold matches. destruct (key a) as [g|]; [|by intros ?%elem_of_nil].
  intros Hx. apply list_elem_of_fmap in Hx as (c & -> & Hc).
  apply list_elem_of_fmap in Hc as (b & -> & _). by rewrite proj_mk.
Qed.

Lemma join_keys table l x :
  x ∈ proj <$> (l ≫= matches table) → x ∈ omap key l.
Proof.
  intros Hx. apply list_elem_of_fmap in Hx as (c & -> & Hc).
  apply list_elem_of_bind in Hc as (a & Hc & Ha).
  apply list_elem_of_omap. exists a. split; [done|].
  apply (matches_keys table). by apply list_elem_of_fmap_2.
Qed.

(** Distinct keys on both sides give distinct keys in the join. *)
Lemma join_NoDup table l :
  NoDup (omap key l) → NoDup (tkey <$> table) →
  NoDup (proj <$> (l ≫= matches table)).
Proof.
  intros Hl Ht. induction l as [|a l IH]; [constructor|].
  rewrite bind_cons, fmap_app. simpl in Hl.
  destruct (key a) as [g|] eqn:Ha.
  - apply NoDup_cons in Hl as [Hg Hl]. apply NoDup_app. split; [|split; [|by apply IH]].
    + unfold matches. rewrite Ha.
      pose proof (filter_key_length table g Ht) as Hlen.
      destruct (filter _ table) as [|b [|b' bs]]; simpl in *; try lia;
        [constructor | apply NoDup_singleton].
    + intros x Hx Hx'. apply matches_keys in Hx. apply join_keys in Hx'.
      rewrite Ha in Hx. injection Hx as <-. done.
  - unfold matches at 1. rewrite Ha. simpl. by apply IH.
Qed.

End join.

Lemma omap_filter_NoDup {A B : Type} (f : A → option B) (P : A → bool) (l : list A) :
  NoDup (omap f l) → NoDup (omap f (List.filter P l)).
Proof.
  induction l as [|a l IH]; simpl; [done|]. intros H.
  assert (NoDup (omap f l)) as Hl.
  { destruct (f a); [by apply NoDup_cons in H as [_ ?] | done]. }
  destruct (P a); simpl; [|by apply IH].
  destruct (f a) as [b|] eqn:Hb; [|by apply IH].
  apply NoDup_cons in H as [Hin _]. apply NoDup_cons. split; [|by apply IH].
  intros Hin'. apply Hin.
  apply list_elem_of_omap in Hin' as (a' & Ha' & Hf).
  apply list_elem_of_omap. exists a'. split; [|done].
  apply list_elem_of_In, filter_In in Ha' as [Ha' _]. by apply list_elem_of_In.
Qed.

Lemma omap_id_fmap {A B : Type} (f : A → option B) (l : list A) :
  omap (λ o, o) (f <$> l) = omap f l.
Proof.
  induction l as [|a l IH]; [done|].
  rewrite fmap_cons. simpl. destruct (f a); [f_equal|]; exact IH.
Qed.

Lemma genome_order_NoDup tree_df genome_metadata :
  NoDup (omap genome tree_df) → NoDup (Name <$> genome_metadata) →
  NoDup (genome_order tree_df genome_metadata).
Proof.
  intros Ht Hm. unfold genome_order. rewrite sort_perm. unfold join_metadata.
  apply (join_NoDup (λ og : option string, og) Name (λ g _ m, (g, quality m)) fst);
    [done| |done].
  rewrite omap_id_fmap. by apply omap_filter_NoDup.
Qed.

Lemma snd_imap_pair {A : Type} (l : list A) : snd <$> imap pair l = l.
Proof.
  apply list_eq. intros i. rewrite list_lookup_fmap, list_lookup_imap.
  by destruct (l !! i).
Qed.

Lemma mapE_fmap {A B C : Type} (f : A → result B) (p : A → C) (q : B → C)
    (l : list A) (l' : list B) :
  (∀ x y, f x = Ok y → q y = p x) →
  mapE f l = Ok l' → q <$> l' = p <$> l.
Proof.
  intros Hf. revert l'. induction l as [|x l IH]; intros l' H; simpl in H.
  - by inv_Ok H.
  - inv_bind H as y Hy. inv_bind H as ys Hys. inv_Ok H.
    rewrite !fmap_cons. f_equal; eauto.
Qed.

Lemma tree_genomes_NoDup tree_df genome_metadata rows :
  NoDup (omap genome tree_df) → NoDup (Name <$> genome_metadata) →
  tree_genomes tree_df genome_metadata = Ok rows →
  NoDup rows.*1.
Proof.
  intros Ht Hm H. unfold tree_genomes in H. inv_bind H as rows0 Hrows. inv_Ok H.
  rewrite <- list_fmap_compose, sort_perm.
  erewrite (mapE_fmap _ (λ e : nat * string * Z, e.1.2) (fst ∘ snd)); [|clear|exact Hrows].
  - apply (join_NoDup genome snd (λ g r (ig : nat * string), (ig.1, g, node r))
             (λ e : nat * string * Z, e.1.2)); [done|done|].
    rewrite snd_imap_pair. by apply genome_order_NoDup.
  - intros e y Hy. inv_bind Hy as parents Hp. by inv_Ok Hy.
Qed.

(** What [name_clades] guarantees about its two tables when the genome ids
    are distinct and without blanks. *)
Lemma name_clades_rows_ok tree_df genome_metadata domain red_cutoffs G N :
  NoDup (omap genome tree_df) →
  NoDup (Name <$> genome_metadata) →
  (∀ m, m ∈ genome_metadata → no_blank (Name m)) →
  name_clades tree_df genome_metadata domain red_cutoffs = Ok (G, N) →
  NoDup (clade_of <$> N) ∧ Forall (row_ok G) N
  ∧ NoDup G.*1 ∧ (∀ g, g ∈ G.*1 → no_blank g).
Proof.
  intros Ht Hm Hblank H. unfold name_clades in H. inv_bind H as rs Hall. inv_Ok H.
  unfold name_all in Hall. inv_bind Hall as rows Hrows.
  pose proof (name_all_genomes _ _ _ _ _ _ Hall) as Hgen. simpl in Hgen.
  pose proof (tree_genomes_NoDup _ _ _ Ht Hm Hrows) as Hnd.
  assert (∀ g, g ∈ rows.*1 → no_blank g) as Hblanks.
  { intros g Hg. eapply tree_genomes_order, genome_order_metadata in Hg; [|exact Hrows].
    apply list_elem_of_fmap in Hg as (m & -> & Hin). by apply Hblank. }
  apply name_genomes_ok in Hall as [Hnodup Hok]; [| |done|done].
  - rewrite Hgen. split; [by rewrite sort_perm|]. split; [by rewrite sort_perm|]. done.
  - split; constructor.
Qed.

(** *** The rows added by [fill_taxonomy] *)

Section completion_rows.
Variable group_order : list (option string * nat) → list (option string * nat).
Variable tree_df : list tree_row.
Variable gtdb_taxonomy : list (string * string).

Let step := complete_genome group_order tree_df gtdb_taxonomy.

Lemma complete_genome_new acc row acc' :
  step acc row = Ok acc' →
  new_taxonomy acc' = new_taxonomy acc
  ∨ ∃ c, new_taxonomy acc' = new_taxonomy acc ++ [(None, c, row.1)]
         ∧ species_for row.1 c ∧ named_part row.2 = "".
Proof.
  destruct row as [g taxonomy]. unfold step, complete_genome.
  destruct (String.prefix "d__" taxonomy); intros H; [inv_Ok H; by left|].
  inv_bind H as n Hn. inv_bind H as uc Huc. inv_bind H as nn Hnn. inv_bind H as u Hu.
  inv_Ok H. cbn [new_taxonomy fst snd].
  destruct (Str.eqb _ "") eqn:He; [|inv_Ok Hnn; by left].
  inv_bind Hnn as named Hnamed. inv_Ok Hnn. right. exists named. split; [done|].
  split; [|by apply bool_decide_eq_true_1 in He].
  unfold species_of_prefix in Hnamed. inv_bind Hnamed as u' Hu'. inv_bind Hnamed as i Hi.
  inv_Ok Hnamed. by eexists.
Qed.

Lemma complete_all_new rows : ∀ acc acc',
  foldE step rows acc = Ok acc' →
  ∃ added, new_taxonomy acc' = new_taxonomy acc ++ added
           ∧ snd <$> added `sublist_of` rows.*1
           ∧ Forall (λ r : node_name,
                       r.1.1 = None ∧ species_for r.2 (clade_of r)
                       ∧ ∃ t, (r.2, t) ∈ rows ∧ named_part t = "") added.
Proof.
  induction rows as [|row rows IH]; intros acc acc' H; simpl in H.
  - inv_Ok H. exists []. rewrite app_nil_r. repeat split; [done|constructor].
  - inv_bind H as acc1 Hstep. destruct (IH _ _ H) as (added & Hnew & Hsub & Hall).
    assert (Forall (λ r : node_name,
                      r.1.1 = None ∧ species_for r.2 (clade_of r)
                      ∧ ∃ t, (r.2, t) ∈ row :: rows ∧ named_part t = "") added) as Hall'.
    { eapply Forall_impl; [exact Hall|]. intros r (? & ? & t & ? & ?).
      repeat split; try done. exists t. split; [by right | done]. }
    apply complete_genome_new in Hstep as [Hsame | (c & Hadd & Hs & Hnamed)].
    + exists added. rewrite Hnew, Hsame. split; [done|]. split; [|done].
      rewrite fmap_cons. by apply sublist_cons.
    + exists ((None, c, row.1) :: added). rewrite Hnew, Hadd, <- app_assoc.
      split; [done|]. split; [rewrite !fmap_cons; by apply sublist_skip|].
      constructor; [|done]. repeat split; try done.
      exists row.2. split; [|done]. destruct row. by left.
Qed.

End completion_rows.

Lemma NoDup_fst_unique {A B : Type} (l : list (A * B)) k v v' :
  NoDup l.*1 → (k, v) ∈ l → (k, v') ∈ l → v = v'.
Proof.
  induction l as [|[k0 v0] l IH]; intros Hnd Hv Hv'; [by apply elem_of_nil in Hv|].
  rewrite fmap_cons in Hnd. apply NoDup_cons in Hnd as [Hk Hnd]. simpl in Hk.
  apply elem_of_cons in Hv as [Hv|Hv]; apply elem_of_cons in Hv' as [Hv'|Hv'].
  - congruence.
  - injection Hv as -> ->. destruct Hk. by apply (list_elem_of_fmap_2 fst) in Hv'.
  - injection Hv' as -> ->. destruct Hk. by apply (list_elem_of_fmap_2 fst) in Hv.
  - eauto.
Qed.

Lemma species_for_nonempty g c : species_for g c → c ≠ "".
Proof. by intros (x & ->). Qed.

(** C7, as amended.  When no two leaves of the tree carry the same genome
    id, no two rows of the metadata have the same name, and no name has a
    blank, the
    clade values of the node-naming table are pairwise distinct, both in
    the table returned by [name_clades] and in the table returned by
    [fill_taxonomy] applied to the tables of [name_clades]. *)
Theorem clade_names_are_unique
    (tree_df : list tree_row) (genome_metadata : list metadata_row)
    (domain : string) (red_cutoffs : list float)
    (group_order : list (option string * nat) → list (option string * nat))
    (gtdb_taxonomy : list (string * string))
    (G : list (string * string)) (N : list node_name) :
  NoDup (omap genome tree_df) →
  NoDup (Name <$> genome_metadata) →
  (∀ m, m ∈ genome_metadata → no_blank (Name m)) →
  name_clades tree_df genome_metadata domain red_cutoffs = Ok (G, N) →
  NoDup (clade_of <$> N)
  ∧ ∀ G' N', fill_taxonomy group_order tree_df gtdb_taxonomy G N = Ok (G', N') →
             NoDup (clade_of <$> N').
Proof.
  intros Ht Hm Hblank H.
  destruct (name_clades_rows_ok _ _ _ _ _ _ Ht Hm Hblank H) as (HndN & Hok & HndG & Hblanks).
  split; [done|]. intros G' N' Hfill.
  unfold fill_taxonomy in Hfill. inv_bind Hfill as acc Hall. inv_Ok Hfill.
  unfold complete_all in Hall. apply complete_all_new in Hall as (added & Hnew & Hsub & Hadded).
  simpl in Hnew. subst. rewrite sort_perm, fmap_app.
  rewrite Forall_forall in Hadded. rewrite Forall_forall in Hok.
  apply NoDup_app. split; [done|]. split.
  - intros c Hc Hc'.
    apply list_elem_of_fmap in Hc as (r0 & -> & Hin0).
    apply list_elem_of_fmap in Hc' as (r & Hr & Hin).
    destruct (Hadded r Hin) as (_ & Hs & t & Ht' & Hnamed).
    destruct (Hok r0 Hin0) as [Hrep [Hm0 | (Hs0 & X & HX)]].
    + eapply minted_not_species; [exact Hm0|]. rewrite Hr. exact Hs.
    + assert (r0.2 = r.2) as Heq.
      { eapply clade_owner; [| |right; exact Hs0|right; by rewrite Hr].
        - by apply Hblanks.
        - apply Hblanks. by apply (list_elem_of_fmap_2 fst) in Ht'. }
      rewrite Heq in HX.
      assert (t = X +:+ ";" +:+ clade_of r0) as -> by (eapply NoDup_fst_unique; eauto).
      eapply named_part_nonempty; [|exact Hnamed]. by eapply species_for_nonempty.
  - apply NoDup_fmap_2_strong.
    + intros x y Hx Hy Hxy.
      destruct (Hadded x Hx) as (Hx1 & Hxs & tx & Htx & _).
      destruct (Hadded y Hy) as (Hy1 & Hys & ty & Hty & _).
      assert (x.2 = y.2) as Heq.
      { eapply clade_owner; [| |right; exact Hxs|right; by rewrite Hxy].
        - apply Hblanks. by apply (list_elem_of_fmap_2 fst) in Htx.
        - apply Hblanks. by apply (list_elem_of_fmap_2 fst) in Hty. }
      destruct x as [[ax cx] gx], y as [[ay cy] gy]. unfold clade_of in Hxy.
      simpl in *. congruence.
    + eapply NoDup_fmap_1, sublist_NoDup; [exact HndG | exact Hsub].
Qed.

Lemma clade_names_are_unique_witness :
  NoDup (clade_of <$> Examples.small_output.2)
  ∧ ∀ G' N',
      fill_taxonomy (λ l, l) Examples.small_tree [] Examples.small_output.1
        Examples.small_output.2 = Ok (G', N') →
      NoDup (clade_of <$> N').
Proof.
  apply (clade_names_are_unique Examples.small_tree Examples.small_metadata "d__Bacteria" []).
  - apply (bool_decide_unpack _). vm_compute. exact I.
  - apply (bool_decide_unpack _). vm_compute. exact I.
  - intros m Hm. repeat (apply elem_of_cons in Hm as [->|Hm]; [reflexivity|]).
    by apply elem_of_nil in Hm.
  - vm_compute. reflexivity.
Defined.

(** C7, as stated, fails: the clade names are made of the genome ids and
    are only as distinct as these.  A metadata row written twice, a genome
    id carried by two leaves, and genome ids with blanks (the genera of
    [a b] and of [a] give the species label [s__a b c] to the genomes [c]
    and [b c]) each give a node-naming table in which a clade occurs
    twice. *)
Lemma clade_names_follow_the_genome_ids :
  (∃ G N, name_clades Examples.small_tree Examples.repeated_metadata "d__Bacteria" []
          = Ok (G, N)
          ∧ NoDup (omap genome Examples.small_tree)
          ∧ (∀ m, m ∈ Examples.repeated_metadata → no_blank (Name m))
          ∧ ¬ NoDup (clade_of <$> N))
  ∧ (∃ G N, name_clades Examples.twin_tree Examples.twin_metadata "d__Bacteria" []
            = Ok (G, N)
            ∧ NoDup (Name <$> Examples.twin_metadata)
            ∧ (∀ m, m ∈ Examples.twin_metadata → no_blank (Name m))
            ∧ ¬ NoDup (clade_of <$> N))
  ∧ (∃ G N, name_clades Examples.blank_tree Examples.blank_metadata "d__Bacteria" []
            = Ok (G, N)
            ∧ NoDup (omap genome Examples.blank_tree)
            ∧ NoDup (Name <$> Examples.blank_metadata)
            ∧ (None, "s__a b c", "c") ∈ N ∧ (None, "s__a b c", "b c") ∈ N
            ∧ ¬ NoDup (clade_of <$> N)).
Proof.
  split; [|split].
  - eexists _, _. split; [vm_compute; reflexivity|].
    split; [apply (bool_decide_unpack _); vm_compute; exact I|]. split.
    + intros m Hm. repeat (apply elem_of_cons in Hm as [->|Hm]; [reflexivity|]).
      by apply elem_of_nil in Hm.
    + apply (bool_decide_unpack _). vm_compute. exact I.
  - eexists _, _. split; [vm_compute; reflexivity|].
    split; [apply (bool_decide_unpack _); vm_compute; exact I|]. split.
    + intros m Hm. repeat (apply elem_of_cons in Hm as [->|Hm]; [reflexivity|]).
      by apply elem_of_nil in Hm.
    + apply (bool_decide_unpack _). vm_compute. exact I.
  - eexists _, _. split; [vm_compute; reflexivity|].
    repeat split; apply (bool_decide_unpack _); vm_compute; exact I.
Qed.

(** * Further properties of the program *)

(** ** [find_parents] and [parent_dict] *)

Lemma find_parents_fuel_parent_chain pd fuel n l :
  find_parents_fuel pd fuel n = Some l → parent_chain pd n l.
Proof.
  revert n l. induction fuel as [|fuel IH]; intros n l H; simpl in H; [done|].
  destruct (pd !! n) as [p|] eqn:Hn.
  - case_bool_decide as Hnp.
    + injection H as <-. subst p. by apply chain_self.
    + destruct (find_parents_fuel pd fuel p) as [l'|] eqn:Hp; [|done].
      injection H as <-. apply chain_link; auto.
  - injection H as <-. by apply chain_absent.
Qed.

Lemma parent_chain_fuel pd n l :
  parent_chain pd n l →
  ∀ fuel, (length l < fuel)%nat → find_parents_fuel pd fuel n = Some l.
Proof.
  induction 1 as [n Hn | n Hn | n p l Hn Hne _ IH]; intros [|fuel] Hfuel;
    simpl in *; try lia.
  - by rewrite Hn.
  - rewrite Hn. by rewrite bool_decide_eq_true_2.
  - rewrite Hn. rewrite bool_decide_eq_false_2 by done. by rewrite IH by lia.
Qed.

Lemma parent_chain_det pd n l1 l2 :
  parent_chain pd n l1 → parent_chain pd n l2 → l1 = l2.
Proof.
  intros H1. revert l2.
  induction H1 as [n Hn | n Hn | n p l Hn Hne _ IH]; intros l2 H2; inversion H2; subst;
    try congruence.
  assert (p = p0) as -> by congruence. f_equal. by apply IH.
Qed.

Lemma parent_chain_elem pd n l x :
  parent_chain pd n l → x ∈ l →
  ∃ l', parent_chain pd x l' ∧ (length l' < length l)%nat.
Proof.
  induction 1 as [n Hn | n Hn | n p l Hn Hne Hp IH]; intros Hx;
    try by apply elem_of_nil in Hx.
  apply elem_of_cons in Hx as [->|Hx].
  - exists l. split; [done | simpl; lia].
  - destruct (IH Hx) as (l' & Hl' & Hlen). exists l'. split; [done | simpl; lia].
Qed.

Lemma parent_chain_NoDup pd n l :
  parent_chain pd n l → NoDup (n :: l).
Proof.
  induction 1 as [n Hn | n Hn | n p l Hn Hne Hp IH]; try apply NoDup_singleton.
  apply NoDup_cons. split; [|done].
  intros Hin.
  destruct (parent_chain_elem pd n (p :: l) n) as (l' & Hl' & Hlen);
    [by apply chain_link | done |].
  assert (l' = p :: l) as ->; [|lia].
  eapply parent_chain_det; [exact Hl' | by apply chain_link].
Qed.

(** Every node of the chain but the last has an entry. *)
Lemma parent_chain_dom pd n l x :
  parent_chain pd n l → x ∈ removelast (n :: l) → x ∈ dom pd.
Proof.
  induction 1 as [n Hn | n Hn | n p l Hn Hne Hp IH]; intros Hx;
    try by apply elem_of_nil in Hx.
  change (removelast (n :: p :: l)) with (n :: removelast (p :: l)) in Hx.
  apply elem_of_cons in Hx as [->|Hx]; [apply elem_of_dom; eauto | by apply IH].
Qed.

Lemma removelast_length {A : Type} (x : A) (l : list A) :
  length (removelast (x :: l)) = length l.
Proof.
  revert x. induction l as [|y l IH]; intros x; [done|].
  change (removelast (x :: y :: l)) with (x :: removelast (y :: l)).
  cbn [length]. by rewrite IH.
Qed.

Lemma removelast_sublist {A : Type} (l : list A) : removelast l `sublist_of` l.
Proof.
  induction l as [|x l IH]; [done|]. destruct l as [|y l].
  - simpl. by apply sublist_cons.
  - change (removelast (x :: y :: l)) with (x :: removelast (y :: l)).
    by apply sublist_skip.
Qed.

Lemma parent_chain_length pd n l :
  parent_chain pd n l → (length l ≤ size pd)%nat.
Proof.
  intros H. rewrite <- (removelast_length n l), <- size_dom.
  rewrite <- (size_list_to_set (C := gset Z) (removelast (n :: l))).
  - apply subseteq_size. intros x Hx. apply elem_of_list_to_set in Hx.
    by eapply parent_chain_dom.
  - eapply sublist_NoDup; [by eapply parent_chain_NoDup | apply removelast_sublist].
Qed.

(** X1.  [find_parents] returns [l] exactly when following the parent
    links from the node meets the nodes of [l] and ends at a node that is
    its own parent or at a node that has no entry (it ends there silently).
    The recursion depth supplied by the model is enough: whatever depth
    lets the recursion return, [find_parents] returns the same list. *)
Theorem find_parents_follows_the_links (pd : gmap Z Z) (n : Z) (l : list Z) :
  (find_parents pd n = Ok l ↔ parent_chain pd n l)
  ∧ (∀ fuel, find_parents_fuel pd fuel n = Some l → find_parents pd n = Ok l).
Proof.
  assert (parent_chain pd n l → find_parents pd n = Ok l) as Hchain.
  { intros H. unfold find_parents. rewrite (parent_chain_fuel pd n l H); [done|].
    apply parent_chain_length in H. lia. }
  split; [split; [|done]|].
  - unfold find_parents. intros H. apply of_option_Ok in H.
    by eapply find_parents_fuel_parent_chain.
  - intros fuel H. by eapply Hchain, find_parents_fuel_parent_chain.
Qed.

(** X2.  The chain returned by [find_parents] never repeats a node and
    never comes back to the node it started from; every node of it but the
    last has an entry of its own, so the chain has at most as many nodes
    as the dictionary has entries. *)
Theorem find_parents_chain_is_simple (pd : gmap Z Z) (n : Z) (l : list Z) :
  find_parents pd n = Ok l →
  NoDup (n :: l)
  ∧ (∀ x, x ∈ removelast (n :: l) → x ∈ dom pd)
  ∧ (length l ≤ size pd)%nat.
Proof.
  unfold find_parents. intros H. apply of_option_Ok in H.
  apply find_parents_fuel_parent_chain in H.
  split; [by eapply parent_chain_NoDup|]. split.
  - intros x. by eapply parent_chain_dom.
  - by eapply parent_chain_length.
Qed.

Lemma find_parents_chain_is_simple_witness :
  NoDup (1 :: Examples.small_chain)
  ∧ (∀ x, x ∈ removelast (1 :: Examples.small_chain) → x ∈ dom Examples.small_parents)
  ∧ (length Examples.small_chain ≤ size Examples.small_parents)%nat.
Proof.
  apply (find_parents_chain_is_simple Examples.small_parents 1 Examples.small_chain).
  vm_compute. reflexivity.
Defined.

(** From a point from which a cycle is reached, a step leads to a point
    from which a cycle is reached. *)
Lemma cycle_ahead_step {A : Type} (R : relation A) (n : A) :
  (∃ c, rtc R n c ∧ tc R c c) →
  ∃ m, R n m ∧ ∃ c, rtc R m c ∧ tc R c c.
Proof.
  intros (c & Hnc & Hcc). apply rtc_inv in Hnc as [-> | (m & Hnm & Hmc)].
  - inversion Hcc as [? ? Hl | ? m ? Hl Hmc]; subst.
    + exists c. split; [done|]. exists c. split; [done|]. by apply tc_once.
    + exists m. split; [done|]. exists m. split; [done|]. by eapply tc_r.
  - exists m. split; [done|]. by exists c.
Qed.

Lemma cycle_ahead_fuel pd fuel n :
  (∃ c, rtc (link pd) n c ∧ tc (link pd) c c) → find_parents_fuel pd fuel n = None.
Proof.
  revert n. induction fuel as [|fuel IH]; intros n H; [done|].
  apply cycle_ahead_step in H as (m & [Hnm Hne] & H). simpl.
  rewrite Hnm, bool_decide_eq_false_2 by done. by rewrite IH.
Qed.

(** X3.  When the parent links lead from a node into a cycle (a node that
    is reached again from itself through links that are not self-parent
    entries), the recursion of [find_parents] returns at no depth, and
    [find_parents] ends in a [RecursionError]. *)
Theorem find_parents_loops_on_a_cycle (pd : gmap Z Z) (n c : Z) :
  rtc (link pd) n c → tc (link pd) c c →
  (∀ fuel, find_parents_fuel pd fuel n = None)
  ∧ find_parents pd n = Raise RecursionError.
Proof.
  intros Hn Hc.
  assert (∀ fuel, find_parents_fuel pd fuel n = None) as H
    by (intros fuel; apply cycle_ahead_fuel; eauto).
  split; [done|]. unfold find_parents. by rewrite H.
Qed.

Lemma find_parents_loops_on_a_cycle_witness :
  (∀ fuel, find_parents_fuel looping_parents fuel 3 = None)
  ∧ find_parents looping_parents 3 = Raise RecursionError.
Proof.
  apply (find_parents_loops_on_a_cycle looping_parents 3 1).
  - apply rtc_once. split; [reflexivity | discriminate].
  - eapply tc_l; [|apply tc_once]; (split; [reflexivity | discriminate]).
Defined.

(** X4.  The parent recorded for a node in [parent_dict] is the parent of
    the last row of the table for that node; a node without a row has no
    entry. *)
Theorem parent_dict_keeps_the_last_row (tree_df : list tree_row) (n : Z) :
  parent_dict tree_df !! n = parent <$> last (filter (λ r, node r = n) tree_df).
Proof.
  unfold parent_dict. induction tree_df as [|r l IH] using rev_ind; [done|].
  rewrite foldl_app, filter_app. simpl.
  destruct (decide (node r = n)) as [Hr|Hr].
  - rewrite Hr, lookup_insert_eq.
    rewrite (filter_cons_True _ r []) by done. by rewrite filter_nil, last_snoc.
  - rewrite lookup_insert_ne by done.
    rewrite (filter_cons_False _ r []) by done. by rewrite filter_nil, app_nil_r.
Qed.

(** ** The novelty bounds of a node *)

Lemma get_novelty_red_errors df e :
  get_novelty_red df = Raise e → e = IndexError ∨ e = AttributeError.
Proof.
  unfold get_novelty_red. destruct (head df) as [r|]; simpl; [|intros [= <-]; by left].
  destruct (novelty_red r); simpl; [done | intros [= <-]; by right].
Qed.

(** X5.  [get_info] raises only for a node that has no row, and then an
    [IndexError]; every other failure inside it (a null label, a parent
    without a row) is turned into the pair of two empty strings.  For a node
    none of whose rows is tagged as not being a reference node, the first
    bound is the empty string. *)
Theorem get_info_raises_only_without_a_row (tree_df : list tree_row) (n : Z) :
  (rows_of tree_df n = [] → get_info tree_df n = Raise IndexError)
  ∧ (rows_of tree_df n ≠ [] →
     ∃ b, get_info tree_df n = Ok b
          ∧ (List.filter is_nongtdb (rows_of tree_df n) = [] → b.1 = "")).
Proof.
  unfold get_info. split.
  - intros ->. reflexivity.
  - intros Hrows. destruct (rows_of tree_df n) as [|r rows] eqn:Hn; [done|].
    cbn [head of_option mbind result_bind].
    destruct (0 <? length (List.filter is_nongtdb (r :: rows)))%nat eqn:Hg.
    + destruct (get_novelty_red (r :: rows)) as [s|e] eqn:Hs; cbn [mbind result_bind].
      * destruct (get_novelty_red (rows_of tree_df (parent r))) as [s'|e] eqn:Hs';
          cbn [mbind result_bind].
        -- eexists. split; [done|]. intros Hnil. rewrite Hnil in Hg. discriminate.
        -- exists ("", ""). split; [|done].
           by destruct (get_novelty_red_errors _ _ Hs') as [-> | ->].
      * exists ("", ""). split; [|done].
        by destruct (get_novelty_red_errors _ _ Hs) as [-> | ->].
    + destruct (get_novelty_red (r :: rows)) as [s|e] eqn:Hs; cbn [mbind result_bind].
      * eexists. split; done.
      * exists ("", ""). split; [|done].
        by destruct (get_novelty_red_errors _ _ Hs) as [-> | ->].
Qed.

Lemma median_reds_no_empty_key domain red_cutoffs :
  dict_get (median_reds domain red_cutoffs) "" = Raise KeyError.
Proof.
  unfold median_reds.
  destruct red_cutoffs as [|? [|? [|? [|? [|? ?]]]]]; [case_bool_decide|..]; reflexivity.
Qed.

(** X6.  A node whose two novelty bounds are empty (as [get_info] answers
    for a null label) cannot be walked through: the body of the loop over
    the ancestors raises there, before anything is named. *)
Theorem walk_raises_on_empty_bounds
    (tree_df : list tree_row) (domain : string) (red_cutoffs : list float)
    (g : string) (p : Z) (st : walk_state) :
  ∃ e, walk_step tree_df (median_reds domain red_cutoffs) g (p, ("", "")) st = Raise e.
Proof.
  unfold walk_step, novelty_range. cbn [fst snd]. rewrite bool_decide_eq_true_2 by done.
  destruct (get_vying_children tree_df p "" (child st)) as [v|e]; cbn [mbind result_bind]; [|eauto].
  destruct (mapE (get_node_red tree_df) v) as [reds|e]; cbn [mbind result_bind]; [|eauto].
  destruct (get_node_red tree_df p) as [red|e]; cbn [mbind result_bind]; [|eauto].
  rewrite median_reds_no_empty_key. cbn [mbind result_bind]. eauto.
Qed.

(** ** The children that vie with a node *)

Lemma filter_none {A : Type} (P : A → Prop) `{∀ x, Decision (P x)} (l : list A) :
  (∀ y, y ∈ l → ¬ P y) → filter P l = [].
Proof.
  induction l as [|y l IH]; intros Hl; [done|].
  rewrite filter_cons_False by (apply Hl; left). apply IH. intros z Hz. apply Hl. by right.
Qed.

Lemma rows_of_unique tree_df r :
  NoDup (node <$> tree_df) → r ∈ tree_df → rows_of tree_df (node r) = [r].
Proof.
  unfold rows_of. induction tree_df as [|x l IH]; intros Hnd Hr; [by apply elem_of_nil in Hr|].
  rewrite fmap_cons in Hnd. apply NoDup_cons in Hnd as [Hx Hnd].
  assert (∀ y, y ∈ l → node y ≠ node x) as Hne.
  { intros y Hy Heq. apply Hx. rewrite <- Heq. by apply list_elem_of_fmap_2. }
  apply elem_of_cons in Hr as [->|Hr].
  - rewrite filter_cons_True by done. f_equal. by apply filter_none.
  - rewrite filter_cons_False by (intros Heq; by apply (Hne r)).
    by apply IH.
Qed.

Lemma filterE_elem {A : Type} (f : A → result bool) (l l' : list A) (x : A) :
  filterE f l = Ok l' → x ∈ l' → x ∈ l.
Proof.
  revert l'. induction l as [|y l IH]; intros l' H Hx; simpl in H.
  - inv_Ok H. done.
  - inv_bind H as b Hb. inv_bind H as ys Hys. inv_Ok H. destruct b.
    + apply elem_of_cons in Hx as [->|Hx]; [by left | right; eauto].
    + right; eauto.
Qed.

Lemma vying_child_red tree_df p level ch vying c :
  NoDup (node <$> tree_df) →
  get_vying_children tree_df p level ch = Ok vying → c ∈ vying →
  get_node_red tree_df c = get_child_red tree_df p.
Proof.
  intros Hnd Hv Hc. unfold get_vying_children in Hv.
  eapply filterE_elem in Hc; [|exact Hv].
  apply list_elem_of_fmap in Hc as (r & -> & Hr).
  apply list_elem_of_filter in Hr as [(_ & Hp & Hne & _) Hr].
  unfold get_node_red, get_child_red. rewrite (rows_of_unique _ r) by done.
  cbn [head of_option mbind result_bind].
  rewrite bool_decide_eq_false_2 by congruence. by rewrite Hp.
Qed.

Lemma mapE_constant {A B : Type} (f : A → result B) (l : list A) (l' : list B) (b : result B) :
  (∀ x, x ∈ l → f x = b) → mapE f l = Ok l' →
  l = [] ∧ l' = [] ∨ ∃ y, b = Ok y ∧ l ≠ [] ∧ l' = replicate (length l) y.
Proof.
  revert l'. induction l as [|x l IH]; intros l' Hf H; simpl in H.
  - inv_Ok H. by left.
  - right. inv_bind H as y Hy. inv_bind H as ys Hys. inv_Ok H.
    rewrite Hf in Hy by left. exists y. split; [done|]. split; [done|].
    simpl. f_equal. destruct (IH ys) as [[-> ->] | (y' & Hy' & _ & ->)]; [|done|done|].
    + intros. apply Hf. by right.
    + congruence.
Qed.

Lemma existsb_replicate {A : Type} (f : A → bool) (n : nat) (y : A) :
  n ≠ 0%nat → existsb f (replicate n y) = f y.
Proof.
  induction n as [|[|n] IH]; intros Hn; [done | simpl; by rewrite orb_false_r |].
  change (existsb f (replicate (S (S n)) y)) with (f y || existsb f (replicate (S n) y)).
  rewrite IH by done. by destruct (f y).
Qed.

(** X7.  On a table in which every node has one row, all the children
    that vie with a node [p] are compared with one and the same RED, the
    one recorded on the row of [p] itself.  So the test over the vying
    children asks for [p] to be skipped exactly when there is a vying child
    and the RED of the row of [p] is closer to the median than the RED of
    the row of the parent of [p]. *)
Theorem vying_children_share_one_red
    (tree_df : list tree_row) (median : list (string * float)) (p : Z) (level : string)
    (ch : option (Z * list string)) (reds : list string) (skip : bool) :
  NoDup (node <$> tree_df) →
  novelty_range tree_df median p (level, level) ch = Ok (reds, skip) →
  ∃ vying parent_red median_red,
    get_vying_children tree_df p level ch = Ok vying
    ∧ get_node_red tree_df p = Ok parent_red
    ∧ dict_get median level = Ok median_red
    ∧ (∀ c, c ∈ vying → get_node_red tree_df c = get_child_red tree_df p)
    ∧ (skip = true ↔
       vying ≠ [] ∧ ∃ red, get_child_red tree_df p = Ok red
                           ∧ child_red_closer red parent_red median_red = true).
Proof.
  intros Hnd H. unfold novelty_range in H. cbn [fst snd] in H.
  rewrite bool_decide_eq_true_2 in H by done.
  inv_bind H as vying Hv. inv_bind H as children_red Hreds.
  inv_bind H as parent_red Hp. inv_bind H as median_red Hm. inv_Ok H.
  exists vying, parent_red, median_red. repeat (split; [done|]).
  assert (∀ c, c ∈ vying → get_node_red tree_df c = get_child_red tree_df p) as Hsame
    by (intros c; by eapply vying_child_red).
  split; [done|].
  destruct (mapE_constant _ _ _ _ Hsame Hreds) as [[-> ->] | (red & Hred & Hne & ->)].
  - simpl. split; [done | by intros [? _]].
  - rewrite existsb_replicate by (by destruct vying). split.
    + intros Hc. split; [done|]. by exists red.
    + intros (_ & red' & Hred' & Hc). congruence.
Qed.

Lemma vying_children_share_one_red_witness :
  ∃ vying parent_red median_red,
    get_vying_children Examples.small_tree 0 "phylum" None = Ok vying
    ∧ get_node_red Examples.small_tree 0 = Ok parent_red
    ∧ dict_get (median_reds "d__Bacteria" []) "phylum" = Ok median_red
    ∧ (∀ c, c ∈ vying → get_node_red Examples.small_tree c = get_child_red Examples.small_tree 0)
    ∧ (true = true ↔
       vying ≠ [] ∧ ∃ red, get_child_red Examples.small_tree 0 = Ok red
                           ∧ child_red_closer red parent_red median_red = true).
Proof.
  apply (vying_children_share_one_red Examples.small_tree (median_reds "d__Bacteria" [])
           0 "phylum" None ["phylum"] true).
  - apply (bool_decide_unpack _). vm_compute. exact I.
  - vm_compute. reflexivity.
Defined.

(** ** The order in which the genomes are named *)

Section sort_sorted.
Context {A : Type} (le : A → A → bool).
Hypothesis le_total : ∀ a b, le a b = true ∨ le b a = true.

Lemma insert_sorted_HdRel a x l :
  le a x = true → HdRel (λ a b, le a b = true) a l →
  HdRel (λ a b, le a b = true) a (insert_sorted le x l).
Proof.
  intros Hax Hl. destruct l as [|y l]; simpl; [by constructor|].
  destruct (le x y); constructor; [done|]. by inversion Hl.
Qed.

Lemma insert_sorted_Sorted x l :
  Sorted (λ a b, le a b = true) l → Sorted (λ a b, le a b = true) (insert_sorted le x l).
Proof.
  induction 1 as [|y l Hl IH Hy]; simpl; [by repeat constructor|].
  destruct (le x y) eqn:Hxy.
  - constructor; [by constructor|]. by constructor.
  - constructor; [done|]. apply insert_sorted_HdRel; [|done].
    by destruct (le_total x y) as [?|?]; [congruence|].
Qed.

Lemma sort_Sorted l : Sorted (λ a b, le a b = true) (sort le l).
Proof. induction l as [|x l IH]; simpl; [constructor | by apply insert_sorted_Sorted]. Qed.

End sort_sorted.

Lemma Sorted_lookup_next {A : Type} (R : A → A → Prop) (l : list A) (i : nat) (a b : A) :
  Sorted R l → l !! i = Some a → l !! S i = Some b → R a b.
Proof.
  intros Hl. revert i. induction Hl as [|x l Hl IH Hx]; intros i Ha Hb; [done|].
  destruct i as [|i]; simpl in *.
  - injection Ha as ->. destruct l as [|y l]; [done|]. simpl in Hb. injection Hb as ->.
    by inversion Hx.
  - eauto.
Qed.

Lemma join_metadata_elem leaves genome_metadata g q :
  (g, q) ∈ join_metadata leaves genome_metadata ↔
  Some g ∈ leaves ∧ ∃ m, m ∈ genome_metadata ∧ Name m = g ∧ quality m = q.
Proof.
  unfold join_metadata. rewrite list_elem_of_bind. split.
  - intros ([g'|] & H & Hin); [|by apply elem_of_nil in H].
    apply list_elem_of_fmap in H as (m & [= -> ->] & H).
    apply list_elem_of_filter in H as [<- H]. eauto.
  - intros (Hin & m & Hm & <- & <-). exists (Some (Name m)). split; [|done].
    apply (list_elem_of_fmap_2 (λ m0, (Name m, quality m0))).
    by apply list_elem_of_filter.
Qed.

Lemma query_leaf_elem tree_df g :
  Some g ∈ genome <$> List.filter is_query_leaf tree_df ↔
  ∃ r, r ∈ tree_df ∧ is_query_leaf r = true ∧ genome r = Some g.
Proof.
  rewrite list_elem_of_fmap. split.
  - intros (r & Hg & Hr). apply list_elem_of_In, filter_In in Hr as [Hr Hq].
    exists r. by rewrite list_elem_of_In.
  - intros (r & Hr & Hq & Hg). exists r. split; [done|].
    apply list_elem_of_In, filter_In. by rewrite <- list_elem_of_In.
Qed.

Lemma genome_order_elem tree_df genome_metadata g :
  g ∈ genome_order tree_df genome_metadata ↔
  (∃ r, r ∈ tree_df ∧ is_query_leaf r = true ∧ genome r = Some g)
  ∧ g ∈ Name <$> genome_metadata.
Proof.
  unfold genome_order. rewrite list_elem_of_fmap. split.
  - intros ([g' q] & -> & H). rewrite sort_perm in H.
    apply join_metadata_elem in H as (Hleaf & m & Hm & <- & _). simpl.
    split; [by apply query_leaf_elem | by apply list_elem_of_fmap_2].
  - intros (Hleaf & Hm). apply list_elem_of_fmap in Hm as (m & -> & Hm).
    exists (Name m, quality m). split; [done|]. rewrite sort_perm.
    apply join_metadata_elem. split; [by apply query_leaf_elem | eauto].
Qed.

(** X8.  The genomes to be named are exactly the genomes of the leaves
    whose magset is neither null nor ["GTDB"] and that have a row in the
    metadata: a reference leaf is never named, whatever the metadata. *)
Theorem genome_order_lists_the_query_leaves
    (tree_df : list tree_row) (genome_metadata : list metadata_row) (g : string) :
  g ∈ genome_order tree_df genome_metadata ↔
  (∃ r, r ∈ tree_df ∧ is_query_leaf r = true ∧ genome r = Some g)
  ∧ g ∈ Name <$> genome_metadata.
Proof. apply genome_order_elem. Qed.

(** *** The rows of [tree_genomes] *)

Lemma NoDup_fmap_inj_on {A B : Type} (f : A → B) (l : list A) (x y : A) :
  NoDup (f <$> l) → x ∈ l → y ∈ l → f x = f y → x = y.
Proof.
  induction l as [|a l IH]; intros Hnd Hx Hy Hf; [by apply elem_of_nil in Hx|].
  rewrite fmap_cons in Hnd. apply NoDup_cons in Hnd as [Ha Hnd].
  apply elem_of_cons in Hx as [->|Hx]; apply elem_of_cons in Hy as [->|Hy]; try done.
  - exfalso. apply Ha. rewrite Hf. by apply list_elem_of_fmap_2.
  - exfalso. apply Ha. rewrite <- Hf. by apply list_elem_of_fmap_2.
  - by apply IH.
Qed.

Lemma Sorted_seq (a n : nat) : Sorted le (seq a n).
Proof.
  revert a. induction n as [|n IH]; intros a; simpl; [constructor|].
  constructor; [apply IH|]. destruct n; simpl; constructor. lia.
Qed.

(** The join of the tree with the numbered genomes. *)
Lemma tree_join_elem (tree_df : list tree_row) (order : list string) (e : nat * string * Z) :
  e ∈ (tree_df ≫= λ r,
         match genome r with
         | None => []
         | Some g => (λ ig : nat * string, (ig.1, g, node r))
                       <$> filter (λ ig : nat * string, ig.2 = g) (imap pair order)
         end) ↔
  ∃ r, r ∈ tree_df ∧ genome r = Some e.1.2 ∧ node r = e.2 ∧ order !! e.1.1 = Some e.1.2.
Proof.
  rewrite list_elem_of_bind. split.
  - intros (r & He & Hr). exists r. destruct (genome r) as [g|]; [|by apply elem_of_nil in He].
    apply list_elem_of_fmap in He as ([i g'] & -> & He).
    apply list_elem_of_filter in He as [Hg He]. simpl in *. subst g'.
    apply elem_of_lookup_imap in He as (j & g' & [= -> ->] & He). done.
  - intros (r & Hr & Hg & Hn & Hi). exists r. split; [|done]. rewrite Hg.
    destruct e as [[i g] n]. simpl in *. subst n.
    apply (list_elem_of_fmap_2 (λ ig : nat * string, (ig.1, g, node r)) _ (i, g)).
    apply list_elem_of_filter. split; [done|].
    apply elem_of_lookup_imap. eauto.
Qed.

Lemma tree_genomes_names tree_df genome_metadata rows :
  NoDup (omap genome tree_df) → NoDup (Name <$> genome_metadata) →
  tree_genomes tree_df genome_metadata = Ok rows →
  rows.*1 = genome_order tree_df genome_metadata.
Proof.
  intros Ht Hm H. unfold tree_genomes in H. inv_bind H as rows0 Hrows. inv_Ok H.
  set (order := genome_order tree_df genome_metadata) in *.
  match type of Hrows with mapE _ ?j = _ => set (joined := j) in * end.
  set (sorted := sort (λ a b : nat * (string * list Z), a.1 <=? b.1)%nat rows0).
  assert (fst <$> rows0 = (λ e : nat * string * Z, e.1.1) <$> joined) as Hidx.
  { eapply mapE_fmap; [|exact Hrows]. intros e y Hy. inv_bind Hy as ps Hps. by inv_Ok Hy. }
  assert ((λ y : nat * (string * list Z), (y.1, y.2.1)) <$> rows0 = fst <$> joined) as Hpairs.
  { eapply mapE_fmap; [|exact Hrows]. intros [[i g] n] y Hy. inv_bind Hy as ps Hps. by inv_Ok Hy. }
  assert (NoDup ((λ e : nat * string * Z, e.1.2) <$> joined)) as Hgen.
  { apply (join_NoDup genome snd (λ g r (ig : nat * string), (ig.1, g, node r))
             (λ e : nat * string * Z, e.1.2)); [done|done|].
    rewrite snd_imap_pair. by apply genome_order_NoDup. }
  assert (∀ e, e ∈ joined → order !! e.1.1 = Some e.1.2) as Hat.
  { intros e He. by apply tree_join_elem in He as (r & _ & _ & _ & ?). }
  assert (fst <$> sorted = seq 0 (length order)) as Hseq.
  { apply (Sorted_unique le).
    - eapply (Sorted_fmap _ (λ a b : nat * (string * list Z), (a.1 <=? b.1)%nat = true));
        [intros x y Hxy; by apply Nat.leb_le|].
      apply sort_Sorted. intros a b.
      destruct (Nat.le_ge_cases a.1 b.1); [left | right]; by apply Nat.leb_le.
    - apply Sorted_seq.
    - unfold sorted. rewrite sort_perm, Hidx. apply NoDup_Permutation.
      + apply NoDup_fmap_2_strong; [|by eapply NoDup_fmap_1].
        intros x y Hx Hy Hxy. eapply NoDup_fmap_inj_on; [exact Hgen|done|done|].
        pose proof (Hat x Hx) as Hx'. pose proof (Hat y Hy) as Hy'.
        simpl in *. rewrite Hxy in Hx'. congruence.
      + apply NoDup_seq.
      + intros i. rewrite elem_of_seq, list_elem_of_fmap. split.
        * intros (e & -> & He). apply Hat, lookup_lt_Some in He. lia.
        * intros [_ Hi]. simpl in Hi. apply lookup_lt_is_Some in Hi as [g Hg].
          assert (g ∈ order) as Hin by by eapply list_elem_of_lookup_2.
          apply genome_order_elem in Hin as [(r & Hr & _ & Hgr) _].
          exists (i, g, node r). split; [done|]. apply tree_join_elem. exists r. done. }
  rewrite <- list_fmap_compose. fold sorted.
  rewrite <- (snd_imap_pair order).
  transitivity (snd <$> ((λ y : nat * (string * list Z), (y.1, y.2.1)) <$> sorted));
    [by rewrite <- list_fmap_compose|].
  f_equal. apply list_eq. intros k.
  rewrite list_lookup_fmap, list_lookup_imap.
  destruct (sorted !! k) as [[i [g ps]]|] eqn:Hk; simpl.
  - assert ((fst <$> sorted) !! k = Some i) as Hik by (by rewrite list_lookup_fmap, Hk).
    rewrite Hseq in Hik. apply lookup_seq in Hik as [-> Hlt]. simpl.
    assert ((k, g) ∈ fst <$> joined) as Hin.
    { rewrite <- Hpairs.
      apply (list_elem_of_fmap_2' (λ y : nat * (string * list Z), (y.1, y.2.1)) _ (k, (g, ps)));
        [|done].
      apply list_elem_of_lookup_2 in Hk. unfold sorted in Hk. by rewrite sort_perm in Hk. }
    apply list_elem_of_fmap in Hin as (e & He & Hin). apply Hat in Hin.
    destruct e as [[i' g'] n]. simpl in *. injection He as <- <-. by rewrite Hin.
  - apply lookup_ge_None in Hk.
    assert (length sorted = length order) as Hlen
      by (by rewrite <- (length_fmap fst sorted), Hseq, length_seq).
    rewrite lookup_ge_None_2 by lia. done.
Qed.

(** X10.  When no two leaves share a genome id and no two metadata rows
    share a name, the genome table returned by [name_clades] has one row
    for each genome to be named, in the order in which they are named. *)
Theorem genome_table_follows_the_genome_order
    (tree_df : list tree_row) (genome_metadata : list metadata_row)
    (domain : string) (red_cutoffs : list float)
    (G : list (string * string)) (N : list node_name) :
  NoDup (omap genome tree_df) →
  NoDup (Name <$> genome_metadata) →
  name_clades tree_df genome_metadata domain red_cutoffs = Ok (G, N) →
  G.*1 = genome_order tree_df genome_metadata.
Proof.
  intros Ht Hm H. unfold name_clades, name_all in H.
  inv_bind H as rs Hall. inv_Ok H. inv_bind Hall as rows Hrows.
  apply name_all_genomes in Hall. simpl in Hall. rewrite Hall.
  by apply tree_genomes_names.
Qed.

Lemma genome_table_follows_the_genome_order_witness :
  (Examples.small_output.1).*1 = genome_order Examples.small_tree Examples.small_metadata.
Proof.
  apply (genome_table_follows_the_genome_order Examples.small_tree Examples.small_metadata
           "d__Bacteria" [] Examples.small_output.1 Examples.small_output.2).
  - apply (bool_decide_unpack _). vm_compute. exact I.
  - apply (bool_decide_unpack _). vm_compute. exact I.
  - vm_compute. reflexivity.
Defined.

Lemma bind_all_nil {A B : Type} (f : A → list B) (l : list A) :
  (∀ x, f x = []) → l ≫= f = [].
Proof.
  intros Hf. induction l as [|x l IH]; [done|]. by rewrite bind_cons, Hf, IH.
Qed.

(** X11.  When no leaf whose magset is neither null nor ["GTDB"] has a
    row in the metadata, [name_clades] returns two empty tables and raises
    nothing, whatever the tree (the parent links are not even followed). *)
Theorem name_clades_without_genomes
    (tree_df : list tree_row) (genome_metadata : list metadata_row)
    (domain : string) (red_cutoffs : list float) :
  (∀ r g, r ∈ tree_df → is_query_leaf r = true → genome r = Some g →
          g ∉ Name <$> genome_metadata) →
  name_clades tree_df genome_metadata domain red_cutoffs = Ok ([], []).
Proof.
  intros Hnone.
  assert (genome_order tree_df genome_metadata = []) as Horder.
  { destruct (genome_order tree_df genome_metadata) as [|g l] eqn:Ho; [done|]. exfalso.
    assert (g ∈ genome_order tree_df genome_metadata) as Hg by (rewrite Ho; by left).
    apply genome_order_elem in Hg as [(r & Hr & Hq & Hg) Hm]. by eapply Hnone. }
  unfold name_clades, name_all, tree_genomes. rewrite Horder.
  rewrite bind_all_nil; [done|]. intros r. by destruct (genome r).
Qed.

Lemma name_clades_without_genomes_witness :
  name_clades Examples.vote_tree [] "d__Bacteria" [] = Ok ([], []).
Proof.
  apply (name_clades_without_genomes Examples.vote_tree [] "d__Bacteria" []).
  intros r g _ _ _ Hg. by apply elem_of_nil in Hg.
Defined.

(** ** A genome without ancestors *)

Lemma substring_full (s : string) : String.substring 0 (String.length s) s = s.
Proof. induction s as [|a s IH]; simpl; [done | by rewrite IH]. Qed.

Lemma drop_minted_genus (g : string) :
  Str.drop 1 (String "g" (String "_" (String "_" g))) = String "_" (String "_" g).
Proof.
  unfold Str.drop. cbn [String.length Nat.sub String.substring].
  by rewrite substring_full.
Qed.

Lemma index_minted_genus (g : string) :
  String.index 0 "g__" (String "g" (String "_" (String "_" g))) = Some 0%nat.
Proof. destruct g; reflexivity. Qed.

Section fresh.
Variable median : list (string * float).
Variable g : string.

(** A rank without a value is filled with a name that has no node, when
    no ancestor can take it. *)
Lemma fill_step_fresh (fs : fill_state) (t : taxon) :
  genome_taxonomy (naming fs) t = Unset → taxon_fill fs t = true → t ≠ species →
  (∃ i, taxon_levels median (taxon_name t) = Ok i) →
  fill_step median g [] [] fs t
  = note_genus g t (mint t g)
      {| naming := {| genome_taxonomy :=
                        set_slot (genome_taxonomy (naming fs)) t (Clade None (mint t g));
                      child := child (naming fs);
                      node_taxonomy := node_taxonomy (naming fs);
                      nodes_output := nodes_output (naming fs) ++ [(None, mint t g, g)] |};
         taxon_fill := taxon_fill fs;
         species_name := species_name fs |}.
Proof.
  intros Hu Hf Ht (i & Hi). unfold fill_step. rewrite Hu, Hf.
  rewrite bool_decide_eq_false_2 by done. unfold place.
  rewrite bool_decide_eq_false_2 by done. unfold is_mid_taxa.
  cbn [mapE mbind result_bind mret result_ret]. rewrite Hi.
  cbn [mbind result_bind existsb filterE last fmap option_fmap option_map]. done.
Qed.

Lemma note_genus_other (fs : fill_state) (t : taxon) (name : string) :
  t ≠ genus → note_genus g t name fs = Ok fs.
Proof. intros Ht. unfold note_genus. by rewrite bool_decide_eq_false_2. Qed.

End fresh.

(** X12.  A genome whose chain of ancestors is empty (its leaf is its own
    parent) is given a fresh name at every rank: with the default cutoffs
    or at least five of them, the six names are minted from its id, none is
    anchored on a node, the ledger is unchanged, and its taxonomy is the
    domain followed by the six names. *)
Theorem genome_without_ancestors_gets_fresh_names
    (tree_df : list tree_row) (domain : string) (red_cutoffs : list float)
    (rs : run_state) (g : string) :
  five_cutoffs red_cutoffs →
  name_genome tree_df domain red_cutoffs rs (g, [])
  = Ok {| run_ledger := run_ledger rs;
          run_nodes := run_nodes rs ++ fresh_rows g;
          run_genomes := run_genomes rs ++ [(g, append_names domain (fresh_names g))] |}.
Proof.
  intros Hc. pose proof (five_cutoffs_levels domain red_cutoffs) as Hlevels.
  unfold name_genome, walk_genome. cbn [mapE walk mbind result_bind mret result_ret fst snd].
  unfold assemble_genome. cbn [genome_taxonomy child node_taxonomy nodes_output].
  change (inherit_ancestors _ _ _) with (Ok (λ _ : taxon, Unset)).
  cbn [mbind result_bind].
  change (List.filter _ all_taxa) with (@nil taxon).
  cbn [foldE all_taxa].
  do 4 (rewrite fill_step_fresh, note_genus_other by (try done; by apply Hlevels);
        cbn [mbind result_bind naming genome_taxonomy child node_taxonomy nodes_output
             taxon_fill species_name]).
  rewrite fill_step_fresh by (try done; by apply Hlevels).
  cbn [naming genome_taxonomy child node_taxonomy nodes_output taxon_fill species_name].
  unfold note_genus at 1. rewrite bool_decide_eq_true_2 by done.
  change (mint genus g) with (String "g" (String "_" (String "_" g))).
  change (Str.eqb (String "g" _) "") with false.
  rewrite index_minted_genus.
  cbn [negb andb of_option mbind result_bind Nat.add].
  rewrite drop_minted_genus.
  cbn [naming genome_taxonomy child node_taxonomy nodes_output taxon_fill species_name].
  unfold fill_step. cbn [naming genome_taxonomy taxon_fill species_name].
  change (set_slot _ genus _ species) with Unset.
  change (all_unset (λ _ : taxon, Unset)) with true.
  rewrite bool_decide_eq_true_2 by done.
  change (Str.eqb ("s" +:+ _) "") with false.
  unfold place. rewrite bool_decide_eq_true_2 by done.
  cbn [mbind result_bind filterE last fmap option_fmap option_map].
  rewrite note_genus_other by done.
  cbn [mbind result_bind naming genome_taxonomy child node_taxonomy nodes_output].
  do 2 f_equal. rewrite <- !app_assoc. reflexivity.
Qed.

Lemma genome_without_ancestors_gets_fresh_names_witness :
  name_genome Examples.small_tree "d__Bacteria" []
    {| run_ledger := ∅; run_nodes := []; run_genomes := [] |} ("G1", [])
  = Ok {| run_ledger := ∅;
          run_nodes := [] ++ fresh_rows "G1";
          run_genomes := [] ++ [("G1", append_names "d__Bacteria" (fresh_names "G1"))] |}.
Proof.
  apply (genome_without_ancestors_gets_fresh_names Examples.small_tree "d__Bacteria" []
           {| run_ledger := ∅; run_nodes := []; run_genomes := [] |} "G1").
  left. reflexivity.
Defined.

(** ** The taxonomy string of a genome without a reference node *)

Lemma prefix_app (p s x : string) :
  String.prefix p s = true → String.prefix p (s +:+ x) = true.
Proof.
  revert s. induction p as [|a p IH]; intros s H; [by destruct (s +:+ x)|].
  destruct s as [|b s]; [done|]. simpl in *.
  destruct (ascii_dec a b); [by apply IH | done].
Qed.

Lemma prefix_append_names (p s : string) (names : list string) :
  String.prefix p s = true → String.prefix p (append_names s names) = true.
Proof.
  revert s. induction names as [|x names IH]; intros s H; [done|].
  simpl. apply IH. by apply prefix_app.
Qed.

(** X13.  The taxonomy string of a genome none of whose ranks holds a
    reference node is the domain followed by [";"] and the clade name of
    every rank that has one, in the order of the ranks.  When the domain
    starts with ["d__"], so does the string, and [fill_taxonomy] takes the
    row for a complete one. *)
Theorem taxonomy_without_reference_node
    (domain : string) (gt : taxon → slot) (g : string) :
  (∀ t n, gt t ≠ GTDB n) →
  render domain gt = append_names domain (clade_names gt all_taxa)
  ∧ (String.prefix "d__" domain = true → is_complete (g, render domain gt) = true).
Proof.
  intros Hgt.
  assert (render domain gt = append_names domain (clade_names gt all_taxa)) as Hr
    by (apply render_steps_no_GTDB; intros t n _; apply Hgt).
  split; [done|]. intros Hd. unfold is_complete. cbn [snd]. rewrite Hr.
  by apply prefix_append_names.
Qed.

Lemma taxonomy_without_reference_node_witness :
  render "d__Bacteria" (fresh_taxonomy "G1")
  = append_names "d__Bacteria" (clade_names (fresh_taxonomy "G1") all_taxa)
  ∧ (String.prefix "d__" "d__Bacteria" = true →
     is_complete ("G1", render "d__Bacteria" (fresh_taxonomy "G1")) = true).
Proof.
  apply (taxonomy_without_reference_node "d__Bacteria" (fresh_taxonomy "G1") "G1").
  intros t n. destruct t; vm_compute; discriminate.
Defined.

(** ** [get_descendants] *)

Lemma get_descendants_fuel_error fuel df n e :
  get_descendants_fuel fuel df n = Raise e → e = RecursionError.
Proof.
  revert n. induction fuel as [|fuel IH]; intros n H; simpl in H; [congruence|].
  destruct (mapE _ _) as [ds|e'] eqn:Hds; simpl in H; [discriminate|].
  injection H as ->. apply mapE_Raise in Hds as (c & _ & Hc).
  destruct (get_descendants_fuel fuel df c) as [d|e'] eqn:Hd; simpl in Hc; [discriminate|].
  injection Hc as ->. by eapply IH.
Qed.

Lemma child_link_children df p c :
  child_link df p c ↔ c ∈ node <$> filter (λ r, parent r = p) df.
Proof.
  unfold child_link. rewrite list_elem_of_fmap. split.
  - intros (r & Hr & Hp & Hc). exists r. split; [done|]. by apply list_elem_of_filter.
  - intros (r & -> & Hr). apply list_elem_of_filter in Hr as [Hp Hr]. eauto.
Qed.

Lemma cycle_below_fuel df fuel n :
  (∃ c, rtc (child_link df) n c ∧ tc (child_link df) c c) →
  get_descendants_fuel fuel df n = Raise RecursionError.
Proof.
  revert n. induction fuel as [|fuel IH]; intros n H; [done|].
  apply cycle_ahead_step in H as (m & Hnm & H).
  destruct (get_descendants_fuel (S fuel) df n) as [l|e] eqn:Hn.
  - exfalso. simpl in Hn. inv_bind Hn as ds Hds. apply mapE_Forall2 in Hds.
    apply child_link_children, list_elem_of_lookup in Hnm as (i & Hi).
    eapply Forall2_lookup_l in Hds as (d & _ & Hd); [|exact Hi].
    rewrite (IH m H) in Hd. discriminate.
  - f_equal. by eapply get_descendants_fuel_error.
Qed.

(** X14.  From a node below which the child links enter a cycle, the
    recursion of [get_descendants] returns at no depth, and
    [get_descendants] ends in a [RecursionError].  A root that is its own
    parent is such a node: it is its own child. *)
Theorem get_descendants_loops_on_a_cycle (df : list tree_row) (n c : Z) :
  rtc (child_link df) n c → tc (child_link df) c c →
  (∀ fuel, get_descendants_fuel fuel df n = Raise RecursionError)
  ∧ get_descendants df n = Raise RecursionError.
Proof.
  intros Hn Hc.
  assert (∀ fuel, get_descendants_fuel fuel df n = Raise RecursionError) as H
    by (intros fuel; apply cycle_below_fuel; eauto).
  split; [done | apply H].
Qed.

Lemma get_descendants_loops_on_a_cycle_witness :
  (∀ fuel, get_descendants_fuel fuel Examples.vote_tree 0 = Raise RecursionError)
  ∧ get_descendants Examples.vote_tree 0 = Raise RecursionError.
Proof.
  apply (get_descendants_loops_on_a_cycle Examples.vote_tree 0 0); [done|].
  apply tc_once. exists (TreeRow 0 0 (Some "gtdb") None None (Some (Float.of_decimal 5 1)) Examples.ORDER).
  split; [|done]. apply list_elem_of_lookup. by exists 5%nat.
Defined.

Lemma mapE_ext_Ok {A B : Type} (f f' : A → result B) (l : list A) (ys : list B) :
  (∀ x y, x ∈ l → f x = Ok y → f' x = Ok y) → mapE f l = Ok ys → mapE f' l = Ok ys.
Proof.
  revert ys. induction l as [|x l IH]; intros ys Hf H; simpl in *; [done|].
  inv_bind H as y Hy. inv_bind H as ys' Hys. inv_Ok H.
  assert (f' x = Ok y) as -> by (apply Hf; [by left | done]). simpl.
  rewrite (IH ys'); [done | | done]. intros x' y' Hx'. apply Hf. by right.
Qed.

Section descendants.
Variable df : list tree_row.

(** The body of [get_descendants] at a child. *)
Lemma descend_child k c dl :
  (get_descendants_fuel k df c ≫= λ d, Ok (c :: d)) = Ok dl →
  ∃ dc, get_descendants_fuel k df c = Ok dc ∧ dl = c :: dc.
Proof. intros H. inv_bind H as dc Hdc. inv_Ok H. eauto. Qed.

Lemma get_descendants_fuel_split k n l d :
  get_descendants_fuel (S k) df n = Ok l → d ∈ l →
  ∃ c dc, child_link df n c ∧ get_descendants_fuel k df c = Ok dc
          ∧ (d = c ∨ d ∈ dc) ∧ ∀ x, x ∈ c :: dc → x ∈ l.
Proof.
  simpl. intros H Hd. inv_bind H as ds Hds. inv_Ok H.
  apply list_elem_of_In, in_concat in Hd as (dl & Hdl & Hd).
  apply list_elem_of_In in Hdl, Hd.
  apply mapE_Forall2 in Hds. apply list_elem_of_lookup in Hdl as (i & Hi).
  eapply Forall2_lookup_r in Hds as (c & Hc & Hdc); [|exact Hi].
  apply descend_child in Hdc as (dc & Hdc & ->).
  exists c, dc. split; [by eapply child_link_children, list_elem_of_lookup_2|].
  split; [done|]. split; [by apply elem_of_cons in Hd|].
  intros x Hx. apply list_elem_of_In, in_concat. exists (c :: dc).
  split; apply list_elem_of_In; [by eapply list_elem_of_lookup_2 | done].
Qed.

Lemma get_descendants_fuel_child k n l c :
  get_descendants_fuel (S k) df n = Ok l → child_link df n c →
  ∃ dc, get_descendants_fuel k df c = Ok dc ∧ ∀ x, x ∈ c :: dc → x ∈ l.
Proof.
  simpl. intros H Hc. inv_bind H as ds Hds. inv_Ok H.
  apply mapE_Forall2 in Hds.
  apply child_link_children, list_elem_of_lookup in Hc as (i & Hi).
  eapply Forall2_lookup_l in Hds as (dl & Hdl & Hdc); [|exact Hi].
  apply descend_child in Hdc as (dc & Hdc & ->). exists dc. split; [done|].
  intros x Hx. apply list_elem_of_In, in_concat. exists (c :: dc).
  split; apply list_elem_of_In; [by eapply list_elem_of_lookup_2 | done].
Qed.

Lemma get_descendants_fuel_mono k : ∀ k' n l,
  (k ≤ k')%nat → get_descendants_fuel k df n = Ok l → get_descendants_fuel k' df n = Ok l.
Proof.
  induction k as [|k IH]; intros k' n l Hle H; [done|].
  destruct k' as [|k']; [lia|]. simpl in *.
  inv_bind H as ds Hds. inv_Ok H.
  erewrite mapE_ext_Ok; [done| |exact Hds].
  intros c dl _ Hdl. apply descend_child in Hdl as (dc & Hdc & ->).
  by rewrite (IH k' c dc) by (done || lia).
Qed.

Lemma get_descendants_fuel_det k k' n l l' :
  get_descendants_fuel k df n = Ok l → get_descendants_fuel k' df n = Ok l' → l = l'.
Proof.
  intros H H'.
  apply (get_descendants_fuel_mono _ (k `max` k')) in H; [|lia].
  apply (get_descendants_fuel_mono _ (k `max` k')) in H'; [|lia]. congruence.
Qed.

(** A listed node is listed with its own descendants, found at a smaller
    depth. *)
Lemma get_descendants_fuel_elem k : ∀ n l d,
  get_descendants_fuel k df n = Ok l → d ∈ l →
  ∃ k' l', (k' < k)%nat ∧ get_descendants_fuel k' df d = Ok l' ∧ ∀ x, x ∈ l' → x ∈ l.
Proof.
  induction k as [|k IH]; intros n l d H Hd; [done|].
  destruct (get_descendants_fuel_split _ _ _ _ H Hd) as (c & dc & _ & Hdc & [-> | Hin] & Hsub).
  - exists k, dc. split; [lia|]. split; [done|]. intros x Hx. apply Hsub. by right.
  - destruct (IH _ _ _ Hdc Hin) as (k' & l' & Hlt & Hl' & Hsub').
    exists k', l'. split; [lia|]. split; [done|]. intros x Hx. apply Hsub. right. eauto.
Qed.

Lemma get_descendants_fuel_irrefl k : ∀ n l,
  get_descendants_fuel k df n = Ok l → n ∉ l.
Proof.
  induction k as [k IH] using lt_wf_ind. intros n l H Hn.
  destruct (get_descendants_fuel_elem _ _ _ _ H Hn) as (k' & l' & Hlt & Hl' & _).
  assert (l' = l) as -> by by eapply get_descendants_fuel_det.
  by eapply (IH k').
Qed.

Lemma get_descendants_fuel_below k : ∀ n l d,
  get_descendants_fuel k df n = Ok l → d ∈ l ↔ tc (child_link df) n d.
Proof.
  induction k as [|k IH]; intros n l d H; [done|]. split.
  - intros Hd.
    destruct (get_descendants_fuel_split _ _ _ _ H Hd) as (c & dc & Hc & Hdc & [-> | Hin] & _).
    + by apply tc_once.
    + eapply tc_l; [exact Hc|]. by eapply IH.
  - intros Hd. inversion Hd as [? ? Hc | ? c ? Hc Hcd]; subst.
    + destruct (get_descendants_fuel_child _ _ _ _ H Hc) as (dc & _ & Hsub).
      apply Hsub. by left.
    + destruct (get_descendants_fuel_child _ _ _ _ H Hc) as (dc & Hdc & Hsub).
      apply Hsub. right. by eapply IH.
Qed.

Lemma size_list_to_set_le (l : list Z) : (size (list_to_set (C := gset Z) l) ≤ length l)%nat.
Proof.
  induction l as [|x l IH]; [by rewrite list_to_set_nil, size_empty|].
  rewrite list_to_set_cons, size_union_alt, size_singleton. simpl.
  assert (size (list_to_set (C := gset Z) l ∖ {[x]}) ≤ size (list_to_set (C := gset Z) l))%nat
    as Hle by (apply subseteq_size; intros y [Hy _]%elem_of_difference; done).
  lia.
Qed.

(** A depth beyond the number of nodes that can still be met is enough. *)
Lemma get_descendants_fuel_enough m : ∀ (avail : gset Z) k n l,
  (size avail ≤ m)%nat →
  get_descendants_fuel k df n = Ok l → (∀ x, x ∈ l → x ∈ avail) →
  get_descendants_fuel (S m) df n = Ok l.
Proof.
  induction m as [|m IH]; intros avail k n l Hsize H Hsub.
  - destruct k as [|k]; [done|]. simpl in *. inv_bind H as ds Hds. inv_Ok H.
    erewrite mapE_ext_Ok; [done| |exact Hds].
    intros c dl Hc Hdl. exfalso. apply descend_child in Hdl as (dc & Hdc & ->).
    assert (c ∈ avail) as Hin.
    { apply Hsub. apply list_elem_of_In, in_concat. exists (c :: dc).
      split; apply list_elem_of_In; [|by left].
      apply mapE_Forall2 in Hds. apply list_elem_of_lookup in Hc as (i & Hi).
      eapply Forall2_lookup_l in Hds as (dl & Hdl & Hdc'); [|exact Hi].
      apply descend_child in Hdc' as (dc' & Hdc' & ->).
      assert (dc' = dc) as -> by congruence. by eapply list_elem_of_lookup_2. }
    assert (size avail ≠ 0%nat) as Hne
      by (by apply size_non_empty_iff, (non_empty_inhabited c)).
    lia.
  - destruct k as [|k]; [done|].
    assert (∀ c, child_link df n c →
              ∃ dc, get_descendants_fuel (S m) df c = Ok dc
                    ∧ get_descendants_fuel k df c = Ok dc) as Hchild.
    { intros c Hc. destruct (get_descendants_fuel_child _ _ _ _ H Hc) as (dc & Hdc & Hin).
      exists dc. split; [|done].
      apply (IH (avail ∖ {[c]}) k); [|done|].
      - assert (c ∈ avail) as Hcin by (apply Hsub, Hin; by left).
        rewrite size_difference by (by apply singleton_subseteq_l). rewrite size_singleton.
        assert (size avail ≠ 0%nat) as Hne
          by (by apply size_non_empty_iff, (non_empty_inhabited c)).
        lia.
      - intros x Hx. apply elem_of_difference. split; [apply Hsub, Hin; by right|].
        intros ->%elem_of_singleton. by eapply get_descendants_fuel_irrefl. }
    change (get_descendants_fuel (S (S m)) df n)
      with (mapE (λ c, get_descendants_fuel (S m) df c ≫= λ d, Ok (c :: d))
                 (node <$> filter (λ r, parent r = n) df) ≫= λ ds, Ok (concat ds)).
    simpl in H. inv_bind H as ds Hds. inv_Ok H.
    erewrite mapE_ext_Ok; [done| |exact Hds].
    intros c dl Hc Hdl. apply descend_child in Hdl as (dc & Hdc & ->).
    apply child_link_children in Hc. destruct (Hchild c Hc) as (dc' & Hdc' & Hk).
    assert (dc' = dc) as -> by congruence. by rewrite Hdc'.
Qed.

Lemma get_descendants_fuel_nodes k : ∀ n l x,
  get_descendants_fuel k df n = Ok l → x ∈ l → x ∈ node <$> df.
Proof.
  induction k as [|k IH]; intros n l x H Hx; [done|].
  destruct (get_descendants_fuel_split _ _ _ _ H Hx)
    as (c & dc & (r & Hr & _ & Hc) & Hdc & [-> | Hin] & _).
  - rewrite <- Hc. by apply list_elem_of_fmap_2.
  - by eapply IH.
Qed.

End descendants.

(** X15.  Whatever depth lets the recursion of [get_descendants] return,
    [get_descendants] returns the same list: the depth supplied by the
    model is enough.  The list holds exactly the nodes reached from the
    node through one or more child links, and never the node itself. *)
Theorem get_descendants_lists_what_is_below
    (df : list tree_row) (n : Z) (fuel : nat) (l : list Z) :
  get_descendants_fuel fuel df n = Ok l →
  get_descendants df n = Ok l
  ∧ (∀ d, d ∈ l ↔ tc (child_link df) n d)
  ∧ n ∉ l.
Proof.
  intros H. split; [|split].
  - unfold get_descendants.
    apply (get_descendants_fuel_enough df _ (list_to_set (node <$> df)) fuel); [|done|].
    + etransitivity; [apply size_list_to_set_le|]. by rewrite length_fmap.
    + intros x Hx. apply elem_of_list_to_set. by eapply get_descendants_fuel_nodes.
  - intros d. by eapply get_descendants_fuel_below.
  - by eapply get_descendants_fuel_irrefl.
Qed.

Lemma get_descendants_lists_what_is_below_witness :
  get_descendants Examples.vote_tree 10 = Ok [1; 2; 3; 4]
  ∧ (∀ d, d ∈ [1; 2; 3; 4] ↔ tc (child_link Examples.vote_tree) 10 d)
  ∧ 10 ∉ [1; 2; 3; 4].
Proof.
  apply (get_descendants_lists_what_is_below Examples.vote_tree 10 2 [1; 2; 3; 4]).
  vm_compute. reflexivity.
Defined.

(** ** [get_taxonomy] and [fill_taxonomy] *)

Lemma bind_nil_elem {A B : Type} (f : A → list B) (l : list A) :
  (∀ x, x ∈ l → f x = []) → l ≫= f = [].
Proof.
  induction l as [|x l IH]; intros Hf; [done|].
  rewrite bind_cons, Hf by left. apply IH. intros y Hy. apply Hf. by right.
Qed.

(** X16.  When no node below [n] is a leaf whose genome has a row in the
    reference taxonomy, there is no prefix to choose from and
    [get_taxonomy] raises an [IndexError], whatever the limit. *)
Theorem get_taxonomy_needs_a_reference_leaf
    (group_order : list (option string * nat) → list (option string * nat))
    (tree_df : list tree_row) (gtdb_taxonomy : list (string * string))
    (n : Z) (limit : string) (ds : list Z) :
  (∀ l, group_order l ≡ₚ l) →
  get_descendants tree_df n = Ok ds →
  (∀ r g, r ∈ tree_df → node r ∈ ds → genome r = Some g → g ∉ gtdb_taxonomy.*1) →
  get_taxonomy group_order tree_df gtdb_taxonomy n limit = Raise IndexError.
Proof.
  intros Hperm Hds Hnone. unfold get_taxonomy, prefix_counts, descendant_prefixes.
  rewrite Hds. cbn [mbind result_bind].
  rewrite bind_nil_elem.
  - cbn [fmap list_fmap group_counts foldl].
    assert (group_order [] = []) as -> by (apply Permutation_nil; symmetry; apply Hperm).
    reflexivity.
  - intros r Hr. apply list_elem_of_filter in Hr as [Hin Hr].
    destruct (genome r) as [g|] eqn:Hg; [|done].
    rewrite filter_none; [done|]. intros [g' t] Hgt Heq. simpl in Heq. subst g'.
    eapply Hnone; [exact Hr | exact Hin | exact Hg |].
    by apply (list_elem_of_fmap_2 fst) in Hgt.
Qed.

Lemma get_taxonomy_needs_a_reference_leaf_witness :
  get_taxonomy (λ l, l) Examples.vote_tree [] 10 "" = Raise IndexError.
Proof.
  apply (get_taxonomy_needs_a_reference_leaf (λ l, l) Examples.vote_tree [] 10 "" [1; 2; 3; 4]).
  - done.
  - vm_compute. reflexivity.
  - intros r g _ _ _ Hg. by apply elem_of_nil in Hg.
Defined.

(** X17.  [fill_taxonomy] returns one row for each row of the genome
    table, with the same genome and in the same order.  Its node-naming
    table holds every row it was given and, besides, only rows without a
    node, each a species label for one of the genomes of the table (taken
    in the order of the table). *)
Theorem fill_taxonomy_keeps_genomes_and_names
    (group_order : list (option string * nat) → list (option string * nat))
    (tree_df : list tree_row) (gtdb_taxonomy : list (string * string))
    (G G' : list (string * string)) (N N' : list node_name) :
  fill_taxonomy group_order tree_df gtdb_taxonomy G N = Ok (G', N') →
  G'.*1 = G.*1
  ∧ ∃ added, N' ≡ₚ N ++ added
             ∧ snd <$> added `sublist_of` G.*1
             ∧ Forall (λ r : node_name, r.1.1 = None ∧ species_for r.2 (clade_of r)) added.
Proof.
  intros H. unfold fill_taxonomy in H. inv_bind H as acc Hall. inv_Ok H.
  unfold complete_all in Hall. split.
  - destruct (complete_all_frame _ _ _ _ _ _ _ eq_refl Hall) as ((out & Hout & Hfst & _) & _).
    simpl in Hout. by rewrite Hout.
  - apply complete_all_new in Hall as (added & Hnew & Hsub & Hadded).
    simpl in Hnew. exists added. rewrite Hnew, sort_perm. split; [done|]. split; [done|].
    eapply Forall_impl; [exact Hadded|]. by intros r (? & ? & _).
Qed.

Lemma fill_taxonomy_keeps_genomes_and_names_witness :
  (Examples.mixed_output.1).*1 = Examples.mixed_input.*1
  ∧ ∃ added, Examples.mixed_output.2 ≡ₚ [] ++ added
             ∧ snd <$> added `sublist_of` Examples.mixed_input.*1
             ∧ Forall (λ r : node_name, r.1.1 = None ∧ species_for r.2 (clade_of r)) added.
Proof.
  apply (fill_taxonomy_keeps_genomes_and_names (λ l, l) Examples.vote_tree
           Examples.vote_reference Examples.mixed_input Examples.mixed_output.1
           [] Examples.mixed_output.2).
  vm_compute. reflexivity.
Defined.

Lemma to_Z_not_a_number (s : string) : not_a_number s → Str.to_Z s = Raise ValueError.
Proof.
  destruct s as [|a s]; [done|]. unfold not_a_number.
  destruct a as [[] [] [] [] [] [] [] []]; try discriminate; reflexivity.
Qed.

Section rejected_row.
Variable group_order : list (option string * nat) → list (option string * nat).
Variable tree_df : list tree_row.
Variable gtdb_taxonomy : list (string * string).

Lemma complete_rows_pass (rows : list (string * string)) : ∀ acc,
  forallb is_complete rows = true →
  foldE (complete_genome group_order tree_df gtdb_taxonomy) rows acc
  = Ok {| genomes_output := genomes_output acc ++ rows;
          completed := completed acc;
          new_taxonomy := new_taxonomy acc |}.
Proof.
  induction rows as [|[g t] rows IH]; intros acc Hrows;
    cbn [forallb] in Hrows; cbn [foldE].
  - rewrite app_nil_r. by destruct acc.
  - apply andb_prop in Hrows as [Hrow Hrows].
    rewrite complete_genome_complete by done. cbn [mbind result_bind].
    rewrite IH by done. cbn. by rewrite <- app_assoc.
Qed.

(** X18.  A row whose taxonomy does not start with ["d__"] and is empty
    or starts with a letter (a taxonomy written for a domain without the
    prefix ["d__"]) makes [fill_taxonomy] raise a [ValueError] when the
    rows before it are complete ones: nothing is returned for any row. *)
Theorem fill_taxonomy_rejects_other_rows
    (before after : list (string * string)) (g t : string) (node_names : list node_name) :
  forallb is_complete before = true →
  String.prefix "d__" t = false →
  not_a_number t →
  fill_taxonomy group_order tree_df gtdb_taxonomy (before ++ (g, t) :: after) node_names
  = Raise ValueError.
Proof.
  intros Hbefore Ht Hn. unfold fill_taxonomy, complete_all.
  rewrite foldE_app, complete_rows_pass by done. cbn [mbind result_bind foldE].
  match goal with |- ?step ≫= _ = _ => assert (step = Raise ValueError) as ->; [|done] end.
  unfold complete_genome. rewrite Ht.
  rewrite to_Z_not_a_number; [done|].
  destruct t as [|a t]; [done|]. simpl in *.
  destruct (Ascii.eqb a ";") eqn:Ha.
  - apply Ascii.eqb_eq in Ha. by subst a.
  - by destruct (Str.split ";" t).
Qed.

End rejected_row.

Lemma fill_taxonomy_rejects_other_rows_witness :
  fill_taxonomy (λ l, l) Examples.vote_tree Examples.vote_reference
    ([] ++ ("G1", append_names "Bacteria" (fresh_names "G1")) :: []) [] = Raise ValueError.
Proof.
  apply (fill_taxonomy_rejects_other_rows (λ l, l) Examples.vote_tree Examples.vote_reference
           [] [] "G1" (append_names "Bacteria" (fresh_names "G1")) []).
  - reflexivity.
  - reflexivity.
  - reflexivity.
Defined.

(** ** The nodes named in the node-naming table *)

Section anchors.
Variable g : string.
Variable chain : list Z.
Variable out0 : list node_name.

Lemma rows_anchored_refl : rows_anchored g chain out0 out0.
Proof. exists []. by rewrite app_nil_r. Qed.

Lemma rows_anchored_add out r :
  rows_anchored g chain out0 out → row_anchored g chain r →
  rows_anchored g chain out0 (out ++ [r]).
Proof.
  intros (new & -> & Hnew) Hr. exists (new ++ [r]). split; [by rewrite app_assoc|].
  apply Forall_app. split; [done | by apply Forall_singleton].
Qed.

Lemma name_rank_anchored c0 gt out tt r gt' out' tt' :
  c0 ∈ chain → rows_anchored g chain out0 out →
  name_rank g c0 (gt, out, tt) r = Ok (gt', out', tt') →
  rows_anchored g chain out0 out'.
Proof.
  intros Hc0 Hrows H. unfold name_rank in H. inv_bind H as t Ht. apply of_option_Ok in Ht.
  destruct (is_unset (gt t) && negb (Str.eqb r "species")) eqn:Hc; inv_Ok H; [|done].
  apply andb_prop in Hc as [_ Hs]. apply rows_anchored_add; [done|].
  split; [done|]. intros a [= <-]. split; [done|]. exists t. split; [|done].
  intros ->. apply taxon_of_string_name in Ht. subst r. done.
Qed.

Lemma name_ranks_anchored c0 rs : ∀ gt out tt gt' out' tt',
  c0 ∈ chain → rows_anchored g chain out0 out →
  foldE (name_rank g c0) rs (gt, out, tt) = Ok (gt', out', tt') →
  rows_anchored g chain out0 out'.
Proof.
  induction rs as [|r rs IH]; intros gt out tt gt' out' tt' Hc0 Hrows H; simpl in H.
  - by inv_Ok H.
  - inv_bind H as [[gt1 out1] tt1] Hstep. eapply IH; [done| |exact H].
    by eapply name_rank_anchored.
Qed.

Lemma name_child_ranks_anchored c st st' :
  c.1 ∈ chain → rows_anchored g chain out0 (nodes_output st) →
  name_child_ranks g c st = Ok st' →
  rows_anchored g chain out0 (nodes_output st').
Proof.
  intros Hc Hrows H. unfold name_child_ranks in H.
  inv_bind H as [[gt out] tt] Hfold. inv_Ok H. simpl. by eapply name_ranks_anchored.
Qed.

Section walk_anchors.
Variable tree_df : list tree_row.
Variable median : list (string * float).

Lemma resolve_child_anchored p bounds reds skip c st st' skip' :
  c.1 ∈ chain → rows_anchored g chain out0 (nodes_output st) →
  resolve_child tree_df median g p bounds reds skip c st = Ok (st', skip') →
  walk_anchored g chain out0 st'.
Proof.
  intros Hc Hrows H. unfold resolve_child in H.
  inv_bind H as c10 Hc10. inv_bind H as n0 Hn0.
  inv_bind H as [[c' name_child] skip1] Hdecide.
  inv_bind H as st1 Hname. inv_Ok H. split; [|done]. simpl.
  assert (c'.1 = c.1) as Hc'.
  { destruct (_ || _) in Hdecide; [|by inv_Ok Hdecide].
    inv_bind Hdecide as r1 Hr1. inv_bind Hdecide as r2 Hr2. inv_bind Hdecide as m Hm.
    destruct (child_red_closer r1 r2 m); by inv_Ok Hdecide. }
  destruct name_child; [|by inv_Ok Hname].
  eapply name_child_ranks_anchored; [|exact Hrows|exact Hname]. by rewrite Hc'.
Qed.

Lemma visit_parent_anchored p bounds reds st st' stop :
  p ∈ chain → walk_anchored g chain out0 st →
  visit_parent tree_df median p bounds reds st = Ok (st', stop) →
  walk_anchored g chain out0 st'.
Proof.
  intros Hp [Hrows Hchild] H. unfold visit_parent in H.
  destruct (node_taxonomy st !! p) as [d|].
  - inv_Ok H. done.
  - inv_bind H as n0 Hn0. destruct (Str.eqb n0 "").
    + inv_bind H as i Hi. inv_bind H as r1 Hr1. inv_bind H as r2 Hr2. inv_bind H as m Hm.
      destruct (if child_red_closer r1 r2 m then i else S i) as [|k].
      * by inv_Ok H.
      * inv_bind H as t Ht. inv_Ok H. done.
    + inv_Ok H. split; [done|]. simpl. by intros c [= <-].
Qed.

Lemma walk_step_anchored pn st st' stop :
  pn.1 ∈ chain → walk_anchored g chain out0 st →
  walk_step tree_df median g pn st = Ok (st', stop) →
  walk_anchored g chain out0 st'.
Proof.
  intros Hp [Hrows Hchild] H. destruct pn as [p bounds]. unfold walk_step in H.
  inv_bind H as [reds skip] Hrange. inv_bind H as [st1 skip1] Hresolve.
  assert (walk_anchored g chain out0 st1) as Hst1.
  { destruct (child st) as [c|] eqn:Hc.
    - eapply resolve_child_anchored; [|exact Hrows|exact Hresolve]. by apply Hchild.
    - inv_Ok Hresolve. split; [done|]. by rewrite Hc. }
  destruct skip1; [by inv_Ok H | by eapply visit_parent_anchored].
Qed.

Lemma walk_anchored_all pns : ∀ st st',
  (∀ pn, pn ∈ pns → pn.1 ∈ chain) → walk_anchored g chain out0 st →
  walk tree_df median g pns st = Ok st' →
  walk_anchored g chain out0 st'.
Proof.
  induction pns as [|pn pns IH]; intros st st' Hpns Hst H; simpl in H.
  - by inv_Ok H.
  - inv_bind H as [st1 stop] Hstep.
    apply walk_step_anchored in Hstep; [|apply Hpns; by left|done].
    destruct stop; [by inv_Ok H|]. eapply IH; [|exact Hstep|exact H].
    intros pn' Hpn'. apply Hpns. by right.
Qed.

End walk_anchors.

Section fill_anchors.
Variable median : list (string * float).
Variable parent_novelty : list (Z * (string * string)).
Variable prenamed_taxons : list taxon.
Hypothesis novelty_chain : ∀ pn, pn ∈ parent_novelty → pn.1 ∈ chain.

Lemma place_anchored t name fs fs' :
  (t ≠ species → name = mint t g) →
  rows_anchored g chain out0 (nodes_output (naming fs)) →
  place median g parent_novelty prenamed_taxons t name fs = Ok fs' →
  rows_anchored g chain out0 (nodes_output (naming fs')).
Proof.
  intros Hname Hrows H. unfold place in H.
  inv_bind H as mid Hmid. inv_bind H as viable Hviable.
  apply note_genus_naming in H. rewrite H. simpl.
  apply rows_anchored_add; [done|]. split; [done|]. simpl. intros a Ha.
  destruct (last viable) as [[n b]|] eqn:Hlast; [|done]. injection Ha as <-.
  destruct mid; [|inv_Ok Hviable; done].
  assert (t ≠ species) as Ht.
  { intros ->. rewrite bool_decide_eq_true_2 in Hmid by done. by inv_Ok Hmid. }
  split.
  - apply (novelty_chain (n, b)). eapply filterE_elem; [exact Hviable|].
    apply last_Some in Hlast as (l' & ->). apply elem_of_app. right. by left.
  - exists t. split; [done|]. unfold clade_of. simpl. by apply Hname.
Qed.

Lemma fill_step_anchored fs t fs' :
  rows_anchored g chain out0 (nodes_output (naming fs)) →
  fill_step median g parent_novelty prenamed_taxons fs t = Ok fs' →
  rows_anchored g chain out0 (nodes_output (naming fs')).
Proof.
  intros Hrows H. unfold fill_step in H.
  destruct (genome_taxonomy (naming fs) t) as [|a name|n].
  - destruct (taxon_fill fs t).
    + case_bool_decide as Ht.
      * destruct (Str.eqb (species_name fs) ""); [by inv_Ok H|].
        eapply place_anchored; [|exact Hrows|exact H]. done.
      * eapply place_anchored; [|exact Hrows|exact H]. done.
    + by rewrite (note_genus_naming _ _ _ _ _ H).
  - by rewrite (note_genus_naming _ _ _ _ _ H).
  - by inv_Ok H.
Qed.

Lemma fill_anchored l : ∀ fs fs',
  rows_anchored g chain out0 (nodes_output (naming fs)) →
  foldE (fill_step median g parent_novelty prenamed_taxons) l fs = Ok fs' →
  rows_anchored g chain out0 (nodes_output (naming fs')).
Proof.
  induction l as [|t l IH]; intros fs fs' Hrows H; simpl in H.
  - by inv_Ok H.
  - inv_bind H as fs1 Hstep. eapply IH; [|exact H]. by eapply fill_step_anchored.
Qed.

End fill_anchors.

End anchors.

Lemma name_genome_anchored tree_df domain red_cutoffs rs g parents rs' :
  name_genome tree_df domain red_cutoffs rs (g, parents) = Ok rs' →
  rows_anchored g parents (run_nodes rs) (run_nodes rs').
Proof.
  intros H. unfold name_genome in H. inv_bind H as [pn st] Hwalk. cbn [fst snd] in H.
  unfold walk_genome in Hwalk. inv_bind Hwalk as pn' Hpn. inv_bind Hwalk as st0 Hw.
  inv_Ok Hwalk.
  assert (∀ x, x ∈ pn → x.1 ∈ parents) as Hchain.
  { intros x Hx. apply (list_elem_of_fmap_2 fst) in Hx.
    erewrite (mapE_fmap _ (λ p : Z, p) fst) in Hx; [|clear|exact Hpn].
    - by rewrite list_fmap_id in Hx.
    - intros p y Hy. inv_bind Hy as i Hi. by inv_Ok Hy. }
  apply (walk_anchored_all g parents (run_nodes rs)) in Hw as [Hrows _]; [|done|].
  - unfold assemble_genome in H. inv_bind H as gt Hgt. inv_bind H as fs Hfill. inv_Ok H.
    simpl. eapply (fill_anchored g parents (run_nodes rs)) in Hfill; done.
  - split; [apply rows_anchored_refl | done].
Qed.

Lemma tree_genomes_rows tree_df genome_metadata rows row :
  tree_genomes tree_df genome_metadata = Ok rows → row ∈ rows →
  leaf_chain tree_df row.1 row.2.
Proof.
  intros H Hrow. unfold tree_genomes in H. inv_bind H as rows0 Hrows. inv_Ok H.
  apply list_elem_of_fmap in Hrow as ([i row'] & -> & Hin). rewrite sort_perm in Hin.
  apply mapE_Forall2 in Hrows. apply list_elem_of_lookup in Hin as (k & Hk).
  eapply Forall2_lookup_r in Hrows as (e & He & Hf); [|exact Hk].
  inv_bind Hf as ps Hps. inv_Ok Hf. simpl.
  apply list_elem_of_lookup_2, tree_join_elem in He as (leaf & Hleaf & Hg & Hn & _).
  exists leaf. rewrite Hn. done.
Qed.

(** X19.  A row of the node-naming table of [name_clades] that has a node
    carries a name minted for its representative genome at a rank above
    species (a species label never has a node), and the node is one of the
    ancestors of a leaf of that genome. *)
Theorem named_nodes_are_ancestors
    (tree_df : list tree_row) (genome_metadata : list metadata_row)
    (domain : string) (red_cutoffs : list float)
    (G : list (string * string)) (N : list node_name) (r : node_name) (a : Z) :
  name_clades tree_df genome_metadata domain red_cutoffs = Ok (G, N) →
  r ∈ N → r.1.1 = Some a →
  minted_for r.2 (clade_of r)
  ∧ ∃ chain, leaf_chain tree_df r.2 chain ∧ a ∈ chain.
Proof.
  intros H Hr Ha. unfold name_clades, name_all in H.
  inv_bind H as rs Hall. inv_Ok H. inv_bind Hall as rows Hrows.
  rewrite sort_perm in Hr.
  set (P := λ r : node_name, ∀ a, r.1.1 = Some a →
              minted_for r.2 (clade_of r) ∧ ∃ chain, leaf_chain tree_df r.2 chain ∧ a ∈ chain).
  assert (Forall P (run_nodes rs)) as HP.
  { eapply (foldE_invariant (λ rs, Forall P (run_nodes rs))); [| |exact Hall]; [|constructor].
    intros s [g parents] s' Hin Hs Hstep.
    apply name_genome_anchored in Hstep as (new & -> & Hnew).
    apply Forall_app. split; [done|]. eapply Forall_impl; [exact Hnew|].
    intros r' [Hg Hanchor] a' Ha'. destruct (Hanchor a' Ha') as [Hchain Hminted].
    rewrite Hg. split; [done|]. exists parents. split; [|done].
    by apply (tree_genomes_rows _ _ _ (g, parents) Hrows). }
  rewrite Forall_forall in HP. by apply (HP r Hr).
Qed.

Lemma named_nodes_are_ancestors_witness :
  minted_for "SPIREOTU_01842612" "g__SPIREOTU_01842612"
  ∧ ∃ chain, leaf_chain Examples.small_tree "SPIREOTU_01842612" chain ∧ 10 ∈ chain.
Proof.
  apply (named_nodes_are_ancestors Examples.small_tree Examples.small_metadata "d__Bacteria" []
           Examples.small_output.1 Examples.small_output.2
           (Some 10, "g__SPIREOTU_01842612", "SPIREOTU_01842612") 10).
  - vm_compute. reflexivity.
  - apply list_elem_of_lookup. by exists 3%nat.
  - reflexivity.
Defined.

(** ** From [name_clades] to [fill_taxonomy]: the node id *)

Lemma string_app_assoc (a b c : string) : (a +:+ b) +:+ c = a +:+ b +:+ c.
Proof.
  induction a as [|x a IH]; [done|].
  change (String x ((a +:+ b) +:+ c) = String x (a +:+ b +:+ c)). by rewrite IH.
Qed.

Lemma string_app_empty_r (a : string) : a +:+ "" = a.
Proof.
  induction a as [|x a IH]; [done|]. change (String x (a +:+ "") = String x a). by rewrite IH.
Qed.

Lemma append_names_suffix (s : string) (names : list string) :
  append_names s names = s +:+ names_suffix names.
Proof.
  revert s. induction names as [|x names IH]; intros s; cbn [append_names names_suffix foldl foldr].
  - by rewrite string_app_empty_r.
  - fold (append_names (s +:+ ";" +:+ x) names). rewrite IH.
    fold (names_suffix names). by rewrite !string_app_assoc.
Qed.

Lemma join_suffix (x : string) (names : list string) :
  Str.join ";" (x :: names) = x +:+ names_suffix names.
Proof.
  revert x. induction names as [|y names IH]; intros x.
  - cbn. by rewrite string_app_empty_r.
  - change (Str.join ";" (x :: y :: names)) with (x +:+ ";" +:+ Str.join ";" (y :: names)).
    by rewrite IH.
Qed.

Lemma split_no_sep (c : ascii) (s : string) : has_char c s = false → Str.split c s = [s].
Proof.
  induction s as [|a s IH]; intros H; [done|]. simpl in *.
  apply orb_false_elim in H as [Ha Hs]. rewrite Ha, IH by done. done.
Qed.

Lemma join_split (c : ascii) (s : string) :
  Str.join (String c "") (Str.split c s) = s.
Proof.
  induction s as [|a s IH]; [done|]. simpl.
  pose proof (split_nonempty c s) as Hne.
  destruct (Ascii.eqb a c) eqn:Ha.
  - apply Ascii.eqb_eq in Ha. subst a.
    destruct (Str.split c s) as [|w ws]; [done|].
    change (Str.join (String c "") ("" :: w :: ws))
      with ("" +:+ String c "" +:+ Str.join (String c "") (w :: ws)).
    by rewrite IH.
  - destruct (Str.split c s) as [|w ws]; [done|].
    destruct ws as [|w' ws]; cbn in IH |- *; by rewrite <- IH.
Qed.

Lemma all_digits_uint (u : Decimal.uint) :
  Str.all_digits (NilEmpty.string_of_uint u) = true.
Proof. induction u; simpl; auto. Qed.

Lemma no_semicolon_uint (u : Decimal.uint) :
  has_char ";" (NilEmpty.string_of_uint u) = false.
Proof. induction u; simpl; auto. Qed.

Lemma digits_to_Z_uint (u : Decimal.uint) :
  u ≠ Decimal.Nil →
  Str.digits_to_Z (NilEmpty.string_of_uint u) = Ok (Z.of_uint u)
  ∧ Str.to_Z (NilEmpty.string_of_uint u) = Ok (Z.of_uint u).
Proof.
  intros Hu.
  assert (Str.digits_to_Z (NilEmpty.string_of_uint u) = Ok (Z.of_uint u)) as Hd.
  { unfold Str.digits_to_Z. pose proof (NilZero.isi (Decimal.Pos u)) as Hisi.
    pose proof (all_digits_uint u) as Hall.
    assert (NilZero.string_of_int (Decimal.Pos u) = NilEmpty.string_of_uint u) as Hs
      by (by destruct u).
    rewrite Hs in Hisi.
    destruct (NilEmpty.string_of_uint u) as [|a s] eqn:Hstr; [by destruct u|].
    rewrite Hall, Hisi; [done | congruence | done]. }
  split; [done|]. unfold Str.to_Z.
  destruct u; try done; simpl in *; exact Hd.
Qed.

Lemma to_Z_of_Z (n : Z) : Str.to_Z (Str.of_Z n) = Ok n ∧ has_char ";" (Str.of_Z n) = false.
Proof.
  unfold Str.of_Z. destruct n as [|p|p]; [done| |].
  - pose proof (DecimalPos.Unsigned.to_uint_nonnil p) as Hp.
    change (Z.to_int (Z.pos p)) with (Decimal.Pos (Pos.to_uint p)).
    assert (NilZero.string_of_int (Decimal.Pos (Pos.to_uint p))
            = NilEmpty.string_of_uint (Pos.to_uint p)) as -> by (by destruct (Pos.to_uint p)).
    destruct (digits_to_Z_uint _ Hp) as [_ ->]. split; [|apply no_semicolon_uint].
    unfold Z.of_uint. by rewrite DecimalPos.Unsigned.of_to.
  - pose proof (DecimalPos.Unsigned.to_uint_nonnil p) as Hp.
    change (Z.to_int (Z.neg p)) with (Decimal.Neg (Pos.to_uint p)).
    assert (NilZero.string_of_int (Decimal.Neg (Pos.to_uint p))
            = String "-" (NilEmpty.string_of_uint (Pos.to_uint p))) as ->
      by (by destruct (Pos.to_uint p)).
    split; [|simpl; apply no_semicolon_uint].
    unfold Str.to_Z. destruct (digits_to_Z_uint _ Hp) as [-> _].
    cbn [mbind result_bind]. unfold Z.of_uint. by rewrite DecimalPos.Unsigned.of_to.
Qed.

Lemma render_reference domain gt t n :
  gt t = GTDB n → (∀ t' m, t' ∈ ranks_below t → gt t' ≠ GTDB m) →
  render domain gt = Str.of_Z n +:+ names_suffix (clade_names gt (ranks_below t)).
Proof.
  intros Ht Hbelow. unfold render. rewrite (all_taxa_split t) at 1.
  rewrite foldl_app. simpl. unfold render_step at 2. rewrite Ht.
  rewrite render_steps_no_GTDB by done. apply append_names_suffix.
Qed.

Lemma render_parsed (domain : string) (gt : taxon → slot) (t : taxon) (n : Z) :
  gt t = GTDB n →
  (∀ t' m, t' ∈ ranks_below t → gt t' ≠ GTDB m) →
  String.prefix "d__" (render domain gt) = false
  ∧ Str.to_Z (default "" (head (Str.split ";" (render domain gt)))) = Ok n
  ∧ named_part (render domain gt) = Str.join ";" (clade_names gt (ranks_below t)).
Proof.
  intros Ht Hbelow. rewrite (render_reference domain gt t n) by done.
  destruct (to_Z_of_Z n) as [Hn Hsemi]. split; [|split].
  - destruct (Str.of_Z n) as [|a s] eqn:Hs; [done|].
    destruct (decide (a = "d"%char)) as [->|Hd]; [by rewrite to_Z_not_a_number in Hn|].
    destruct a as [[] [] [] [] [] [] [] []]; (reflexivity || by destruct Hd).
  - destruct (clade_names gt (ranks_below t)) as [|x names].
    + simpl. rewrite string_app_empty_r, split_no_sep by done. done.
    + change (names_suffix (x :: names)) with (String ";" (x +:+ names_suffix names)).
      rewrite split_app, split_no_sep by done. done.
  - unfold named_part. destruct (clade_names gt (ranks_below t)) as [|x names].
    + simpl. rewrite string_app_empty_r, split_no_sep by done. done.
    + change (names_suffix (x :: names)) with (String ";" (x +:+ names_suffix names)).
      rewrite split_app, split_no_sep by done. cbn [app tail].
      by rewrite (join_split ";"), join_suffix.
Qed.


(** X20.  What is rendered for a taxonomy that holds a reference node [n]
    at rank [t] and no reference node below [t], [fill_taxonomy] reads
    back: the string does not start with ["d__"], its first piece is read
    as [n], and what follows the first [";"] is the names of the ranks
    below [t] joined by [";"]. *)
Theorem rendered_node_id_is_read_back
    (domain : string) (gt : taxon → slot) (t : taxon) (n : Z) :
  gt t = GTDB n →
  (∀ t' m, t' ∈ ranks_below t → gt t' ≠ GTDB m) →
  String.prefix "d__" (render domain gt) = false
  ∧ Str.to_Z (default "" (head (Str.split ";" (render domain gt)))) = Ok n
  ∧ named_part (render domain gt) = Str.join ";" (clade_names gt (ranks_below t)).
Proof. apply render_parsed. Qed.

Lemma rendered_node_id_is_read_back_witness :
  String.prefix "d__" (render "d__Archaea" Examples.truncate_taxonomy) = false
  ∧ Str.to_Z (default "" (head (Str.split ";" (render "d__Archaea" Examples.truncate_taxonomy))))
    = Ok 10000
  ∧ named_part (render "d__Archaea" Examples.truncate_taxonomy)
    = Str.join ";" (clade_names Examples.truncate_taxonomy (ranks_below family)).
Proof.
  apply (rendered_node_id_is_read_back "d__Archaea" Examples.truncate_taxonomy family 10000).
  - reflexivity.
  - intros t' m Hin. vm_compute in Hin.
    destruct t'; try discriminate;
      repeat (apply elem_of_cons in Hin as [Hin|Hin]; [discriminate Hin|]);
      by apply elem_of_nil in Hin.
Defined.

(** ** The genome that names its own highest rank *)

(** X21.  When the highest rank that the walk leaves named is below
    phylum and its name belongs, in the node-naming rows, to a genome that
    has no row yet in the genome table (the genome being named itself, when
    its walk ends without reaching the rank of phylum, a reference node or
    a named node), the ranks above cannot be inherited and an [IndexError]
    is raised. *)
Theorem unnamed_trailblazer_raises
    (domain : string) (red_cutoffs : list float)
    (rs : run_state) (g : string) (parent_novelty : list (Z * (string * string)))
    (st : walk_state) (k : nat) (a : option Z) (name : string) :
  first_set (genome_taxonomy st) = Some (S k, Clade a name) →
  (∃ r, r ∈ nodes_output st ∧ clade_of r = name) →
  (∀ r, r ∈ nodes_output st → clade_of r = name → r.2 ∉ (run_genomes rs).*1) →
  assemble_genome domain red_cutoffs rs g parent_novelty st = Raise IndexError.
Proof.
  intros Hfirst (r & Hr & Hname) Hnew. unfold assemble_genome, inherit_ancestors.
  rewrite Hfirst.
  destruct (filter (λ r : node_name, clade_of r = name) (nodes_output st)) as [|r0 l] eqn:Hf.
  - exfalso. assert (r ∈ filter (λ r : node_name, clade_of r = name) (nodes_output st)) as Hin
      by (by apply list_elem_of_filter).
    rewrite Hf in Hin. by apply elem_of_nil in Hin.
  - assert (r0 ∈ filter (λ r : node_name, clade_of r = name) (nodes_output st)) as Hin
      by (rewrite Hf; by left).
    apply list_elem_of_filter in Hin as [Hc Hin]. cbn [head of_option mbind result_bind].
    rewrite filter_none; [done|]. intros [g' t'] Hg' Heq. simpl in Heq.
    apply (Hnew r0 Hin Hc). rewrite <- Heq. by apply (list_elem_of_fmap_2 fst) in Hg'.
Qed.

Lemma unnamed_trailblazer_raises_witness :
  assemble_genome "d__Bacteria" []
    {| run_ledger := ∅; run_nodes := []; run_genomes := [] |} "G1"
    [(10, ("genus", "species")); (0, ("genus", "genus"))] shallow_state
  = Raise IndexError.
Proof.
  apply (unnamed_trailblazer_raises "d__Bacteria" []
           {| run_ledger := ∅; run_nodes := []; run_genomes := [] |} "G1"
           [(10, ("genus", "species")); (0, ("genus", "genus"))] shallow_state
           3 (Some 10) "g__G1").
  - reflexivity.
  - exists (Some 10, "g__G1", "G1"). split; [by left | done].
  - intros r _ _ Hin. by apply elem_of_nil in Hin.
Defined.

(** The walk of the one genome of [shallow_tree] ends in [shallow_state],
    and [name_clades] raises on that tree. *)
Lemma shallow_tree_raises :
  (∃ st, walk_genome shallow_tree "d__Bacteria" []
           {| run_ledger := ∅; run_nodes := []; run_genomes := [] |} "G1" [10; 0]
         = Ok ([(10, ("genus", "species")); (0, ("genus", "genus"))], st)
         ∧ (∀ t, genome_taxonomy st t = genome_taxonomy shallow_state t)
         ∧ nodes_output st = nodes_output shallow_state)
  ∧ name_clades shallow_tree shallow_metadata "d__Bacteria" [] = Raise IndexError.
Proof.
  split; [|vm_compute; reflexivity].
  eexists. split; [vm_compute; reflexivity|]. split; [|reflexivity].
  intros t. by destruct t.
Qed.

(** ** The walk at a reference node *)

(** X22.  The walk never goes past a reference node: at a node whose
    first novelty bound is empty and whose own label is not, the body of
    the loop, when it returns, asks for the loop to stop, and no candidate
    is left pending. *)
Theorem walk_stops_at_a_reference_node
    (tree_df : list tree_row) (median : list (string * float)) (g : string)
    (p : Z) (label : string) (st st' : walk_state) (stop : bool) :
  label ≠ "" →
  walk_step tree_df median g (p, ("", label)) st = Ok (st', stop) →
  stop = true ∧ child st' = None.
Proof.
  intros Hlabel H. unfold walk_step, novelty_range in H. cbn [fst snd] in H.
  rewrite bool_decide_eq_false_2 in H by done.
  change (negb (Str.eqb "" "")) with false in H. cbn [mbind result_bind] in H.
  inv_bind H as [st1 skip1] Hresolve.
  assert (skip1 = false ∧ child st1 = None) as [-> Hchild].
  { destruct (child st) as [c|] eqn:Hc; [|by inv_Ok Hresolve].
    unfold resolve_child in Hresolve.
    inv_bind Hresolve as c10 Hc10. inv_bind Hresolve as n0 Hn0. injection Hn0 as <-.
    inv_bind Hresolve as [[c' name_child] skip1'] Hdecide.
    inv_bind Hresolve as st2 Hname. inv_Ok Hresolve. split; [|done].
    destruct (_ || _) in Hdecide; [|by inv_Ok Hdecide].
    inv_bind Hdecide as r1 Hr1. inv_bind Hdecide as r2 Hr2. inv_bind Hdecide as m Hm.
    destruct (child_red_closer r1 r2 m); by inv_Ok Hdecide. }
  unfold visit_parent in H. destruct (node_taxonomy st1 !! p) as [d|].
  - by inv_Ok H.
  - cbn [head of_option mbind result_bind] in H.
    change (Str.eqb "" "") with true in H. cbn [fst snd] in H.
    inv_bind H as i Hi. inv_bind H as r1 Hr1. inv_bind H as r2 Hr2. inv_bind H as m Hm.
    destruct (if child_red_closer r1 r2 m then i else S i) as [|k'].
    + by inv_Ok H.
    + inv_bind H as t Ht. by inv_Ok H.
Qed.

Lemma walk_stops_at_a_reference_node_witness :
  true = true ∧ child
    {| genome_taxonomy := set_slot (λ _, Unset) genus (GTDB 10);
       child := None; node_taxonomy := ∅; nodes_output := [] |} = None.
Proof.
  apply (walk_stops_at_a_reference_node Examples.vote_tree (median_reds "d__Bacteria" [])
           "query_1" 10 "species"
           {| genome_taxonomy := λ _, Unset; child := None;
              node_taxonomy := ∅; nodes_output := [] |}).
  - discriminate.
  - vm_compute. reflexivity.
Defined.

(** ** One name for a node at a rank *)

Lemma rows_in_ledger_kept L L' out :
  rows_in_ledger L out → ledger_kept L L' → rows_in_ledger L' out.
Proof.
  intros H Hk r n Hr Hn. destruct (H r n Hr Hn) as (t & Hc & Hget). exists t. split; [done|].
  by apply Hk.
Qed.

Lemma rows_in_ledger_app L out new :
  rows_in_ledger L out → rows_in_ledger L new → rows_in_ledger L (out ++ new).
Proof. intros H1 H2 r n Hr. apply elem_of_app in Hr as [Hr|Hr]; eauto. Qed.

Lemma ledger_get_set (L : gmap Z (gmap taxon string)) n t c :
  ledger_get (ledger_set L n t c) n t = Some c.
Proof.
  unfold ledger_get, ledger_set. destruct (L !! n) as [d|].
  - rewrite lookup_insert_eq. simpl. by rewrite lookup_insert_eq.
  - rewrite lookup_insert_eq. simpl. by rewrite lookup_singleton_eq.
Qed.

Section ledger_rows.
Variable g : string.

(** The rows added while a candidate is named are the entries of
    [taxon_taxonomy]. *)
Lemma name_ranks_entries c0 rs : ∀ gt out tt gt' out' tt',
  (∀ t c, tt !! t = Some c → c = mint t g) →
  foldE (name_rank g c0) rs (gt, out, tt) = Ok (gt', out', tt') →
  (∀ t c, tt' !! t = Some c → c = mint t g)
  ∧ (∀ t c, tt !! t = Some c → tt' !! t = Some c)
  ∧ ∃ new, out' = out ++ new
           ∧ ∀ r, r ∈ new → r.1.1 = Some c0 ∧ r.2 = g
                            ∧ ∃ t, clade_of r = mint t g ∧ tt' !! t = Some (mint t g).
Proof.
  induction rs as [|r0 rs IH]; intros gt out tt gt' out' tt' Htt H; simpl in H.
  - inv_Ok H. split; [done|]. split; [done|]. exists []. rewrite app_nil_r.
    split; [done|]. by intros r ?%elem_of_nil.
  - inv_bind H as [[gt1 out1] tt1] Hstep. unfold name_rank in Hstep.
    inv_bind Hstep as t Ht. destruct (_ && _) in Hstep; inv_Ok Hstep.
    + assert (∀ t' c, <[t := mint t g]> tt !! t' = Some c → c = mint t' g) as Htt1.
      { intros t' c. destruct (decide (t' = t)) as [->|Hne].
        - rewrite lookup_insert_eq. congruence.
        - rewrite lookup_insert_ne by done. apply Htt. }
      destruct (IH _ _ _ _ _ _ Htt1 H) as (Htt' & Hmono & new & -> & Hnew).
      split; [done|]. split.
      * intros t' c Hc. apply Hmono. destruct (decide (t' = t)) as [->|Hne].
        -- rewrite lookup_insert_eq. f_equal. symmetry. by eapply Htt.
        -- by rewrite lookup_insert_ne.
      * exists ((Some c0, mint t g, g) :: new). rewrite <- app_assoc. split; [done|].
        intros r Hr. apply elem_of_cons in Hr as [->|Hr]; [|by apply Hnew].
        repeat split. exists t. split; [done|]. apply Hmono. by rewrite lookup_insert_eq.
    + by eapply IH.
Qed.

Lemma name_child_ranks_entries c st st' :
  node_taxonomy st !! c.1 = None →
  rows_in_ledger (node_taxonomy st) (nodes_output st) →
  name_child_ranks g c st = Ok st' →
  rows_in_ledger (node_taxonomy st') (nodes_output st').
Proof.
  intros Hc Hrows H. pose proof (name_child_ranks_ledger g c st st' Hc H) as [Hk _].
  unfold name_child_ranks in H. inv_bind H as [[gt out] tt] Hfold. inv_Ok H.
  apply name_ranks_entries in Hfold as (_ & _ & new & -> & Hnew);
    [|intros t c' Hc'; by rewrite lookup_empty in Hc'].
  cbn [node_taxonomy nodes_output] in *. apply rows_in_ledger_app.
  - by eapply rows_in_ledger_kept.
  - intros r n Hr Hn. destruct (Hnew r Hr) as (Ha & Hg & t & Hclade & Htt).
    rewrite Ha in Hn. injection Hn as <-. exists t. rewrite Hg. split; [done|].
    rewrite bool_decide_eq_false_2 by (intros ->; by rewrite lookup_empty in Htt).
    unfold ledger_get. rewrite lookup_insert_eq. simpl. by rewrite Hclade.
Qed.

Section walk_entries.
Variable tree_df : list tree_row.
Variable median : list (string * float).

Lemma walk_step_entries pn st st' stop :
  child_fresh st → rows_in_ledger (node_taxonomy st) (nodes_output st) →
  walk_step tree_df median g pn st = Ok (st', stop) →
  child_fresh st' ∧ rows_in_ledger (node_taxonomy st') (nodes_output st').
Proof.
  intros Hfresh Hrows H.
  pose proof (walk_step_ledger tree_df median g pn st st' stop Hfresh H) as [_ Hfresh'].
  split; [done|]. destruct pn as [p bounds]. unfold walk_step in H.
  inv_bind H as [reds skip] Hrange. inv_bind H as [st1 skip1] Hresolve.
  assert (rows_in_ledger (node_taxonomy st1) (nodes_output st1)) as Hrows1.
  { destruct (child st) as [c|] eqn:Hchild; [|by inv_Ok Hresolve].
    unfold resolve_child in Hresolve.
    inv_bind Hresolve as c10 Hc10. inv_bind Hresolve as n0 Hn0.
    inv_bind Hresolve as [[c' name_child] skip1'] Hdecide.
    inv_bind Hresolve as st2 Hname. inv_Ok Hresolve. cbn [node_taxonomy nodes_output].
    assert (c'.1 = c.1) as Hc'.
    { destruct (_ || _) in Hdecide; [|by inv_Ok Hdecide].
      inv_bind Hdecide as r1 Hr1. inv_bind Hdecide as r2 Hr2. inv_bind Hdecide as m Hm.
      destruct (child_red_closer r1 r2 m); by inv_Ok Hdecide. }
    destruct name_child; [|by inv_Ok Hname].
    eapply name_child_ranks_entries; [|exact Hrows|exact Hname].
    rewrite Hc'. by apply Hfresh. }
  destruct skip1; [by inv_Ok H|].
  unfold visit_parent in H. destruct (node_taxonomy st1 !! p) as [d|].
  - by inv_Ok H.
  - inv_bind H as n0 Hn0. destruct (Str.eqb n0 "").
    + inv_bind H as i Hi. inv_bind H as r1 Hr1. inv_bind H as r2 Hr2. inv_bind H as m Hm.
      destruct (if child_red_closer r1 r2 m then i else S i) as [|k].
      * by inv_Ok H.
      * inv_bind H as t Ht. by inv_Ok H.
    + by inv_Ok H.
Qed.

Lemma walk_entries pns : ∀ st st',
  child_fresh st → rows_in_ledger (node_taxonomy st) (nodes_output st) →
  walk tree_df median g pns st = Ok st' →
  rows_in_ledger (node_taxonomy st') (nodes_output st').
Proof.
  induction pns as [|pn pns IH]; intros st st' Hfresh Hrows H; simpl in H.
  - by inv_Ok H.
  - inv_bind H as [st1 stop] Hstep.
    apply walk_step_entries in Hstep as [Hfresh1 Hrows1]; [|done|done].
    destruct stop; [by inv_Ok H | eauto].
Qed.

End walk_entries.

Section fill_entries.
Variable median : list (string * float).
Variable parent_novelty : list (Z * (string * string)).
Variable prenamed_taxons : list taxon.
Hypothesis levels : ∀ t, ∃ i, taxon_levels median (taxon_name t) = Ok i.

Lemma place_entries t name fs fs' :
  (t ≠ species → name = mint t g) →
  rows_in_ledger (node_taxonomy (naming fs)) (nodes_output (naming fs)) →
  place median g parent_novelty prenamed_taxons t name fs = Ok fs' →
  rows_in_ledger (node_taxonomy (naming fs')) (nodes_output (naming fs')).
Proof.
  intros Hname Hrows H.
  pose proof (place_ledger median g parent_novelty prenamed_taxons levels t name fs fs' H) as Hk.
  unfold place in H. inv_bind H as mid Hmid. inv_bind H as viable Hviable.
  apply note_genus_naming in H. rewrite H in Hk |- *. cbn [node_taxonomy nodes_output] in *.
  apply rows_in_ledger_app; [by eapply rows_in_ledger_kept|].
  intros r n Hr Hn. apply list_elem_of_singleton in Hr. subst r. cbn in Hn.
  destruct (last viable) as [[n' b]|] eqn:Hlast; [|done]. injection Hn as <-.
  destruct mid; [|inv_Ok Hviable; done].
  assert (t ≠ species) as Ht.
  { intros ->. rewrite bool_decide_eq_true_2 in Hmid by done. by inv_Ok Hmid. }
  exists t. unfold clade_of. cbn. rewrite (Hname Ht). split; [done|]. apply ledger_get_set.
Qed.

Lemma fill_step_entries fs t fs' :
  rows_in_ledger (node_taxonomy (naming fs)) (nodes_output (naming fs)) →
  fill_step median g parent_novelty prenamed_taxons fs t = Ok fs' →
  rows_in_ledger (node_taxonomy (naming fs')) (nodes_output (naming fs')).
Proof.
  intros Hrows H. unfold fill_step in H.
  destruct (genome_taxonomy (naming fs) t) as [|a name|n].
  - destruct (taxon_fill fs t).
    + case_bool_decide as Ht.
      * destruct (Str.eqb (species_name fs) ""); [by inv_Ok H|].
        eapply place_entries; [|exact Hrows|exact H]. done.
      * eapply place_entries; [|exact Hrows|exact H]. done.
    + by rewrite (note_genus_naming _ _ _ _ _ H).
  - by rewrite (note_genus_naming _ _ _ _ _ H).
  - by inv_Ok H.
Qed.

Lemma fill_entries l : ∀ fs fs',
  rows_in_ledger (node_taxonomy (naming fs)) (nodes_output (naming fs)) →
  foldE (fill_step median g parent_novelty prenamed_taxons) l fs = Ok fs' →
  rows_in_ledger (node_taxonomy (naming fs')) (nodes_output (naming fs')).
Proof.
  induction l as [|t l IH]; intros fs fs' Hrows H; simpl in H.
  - by inv_Ok H.
  - inv_bind H as fs1 Hstep. eapply IH; [|exact H]. by eapply fill_step_entries.
Qed.

End fill_entries.

End ledger_rows.

Lemma name_genome_entries tree_df domain red_cutoffs rs row rs' :
  five_cutoffs red_cutoffs →
  rows_in_ledger (run_ledger rs) (run_nodes rs) →
  name_genome tree_df domain red_cutoffs rs row = Ok rs' →
  rows_in_ledger (run_ledger rs') (run_nodes rs').
Proof.
  intros Hc Hrows H. unfold name_genome in H. inv_bind H as [pn st] Hwalk.
  unfold walk_genome in Hwalk. inv_bind Hwalk as pn' Hpn. inv_bind Hwalk as st0 Hw.
  inv_Ok Hwalk. apply walk_entries in Hw; [|by intros c|done].
  unfold assemble_genome in H. inv_bind H as gt Hgt. inv_bind H as fs Hfill. inv_Ok H.
  apply fill_entries in Hfill; [done | intros t; by apply five_cutoffs_levels | done].
Qed.

(** X23.  With the default cutoffs or at least five of them, no node is
    given two names at one rank: two rows of the node-naming table of
    [name_clades] that have the same node and whose names are minted at the
    same rank are one and the same row. *)
Theorem no_node_has_two_names_at_a_rank
    (tree_df : list tree_row) (genome_metadata : list metadata_row)
    (domain : string) (red_cutoffs : list float)
    (G : list (string * string)) (N : list node_name)
    (r r' : node_name) (n : Z) (t : taxon) :
  five_cutoffs red_cutoffs →
  name_clades tree_df genome_metadata domain red_cutoffs = Ok (G, N) →
  r ∈ N → r' ∈ N →
  r.1.1 = Some n → r'.1.1 = Some n →
  clade_of r = mint t r.2 → clade_of r' = mint t r'.2 →
  r = r'.
Proof.
  intros Hc H Hr Hr' Hn Hn' Ht Ht'. unfold name_clades, name_all in H.
  inv_bind H as rs Hall. inv_Ok H. inv_bind Hall as rows Hrows.
  rewrite sort_perm in Hr, Hr'.
  assert (rows_in_ledger (run_ledger rs) (run_nodes rs)) as Hinv.
  { eapply (foldE_invariant (λ rs, rows_in_ledger (run_ledger rs) (run_nodes rs)));
      [| |exact Hall]; [|by intros ? ? ?%elem_of_nil].
    intros s row s' _ Hs Hstep. by eapply name_genome_entries. }
  destruct (Hinv r n Hr Hn) as (t1 & Hc1 & Hget1).
  destruct (Hinv r' n Hr' Hn') as (t2 & Hc2 & Hget2).
  assert (t1 = t) as -> by (rewrite Ht in Hc1; by apply mint_inj in Hc1 as [-> _]).
  assert (t2 = t) as -> by (rewrite Ht' in Hc2; by apply mint_inj in Hc2 as [-> _]).
  rewrite Hget1 in Hget2. injection Hget2 as Heq.
  assert (r.2 = r'.2) as Hg by (rewrite Ht, Ht' in Heq; by apply mint_inj in Heq as [_ ?]).
  destruct r as [[a c] g], r' as [[a' c'] g']. unfold clade_of in *. simpl in *. congruence.
Qed.

Lemma no_node_has_two_names_at_a_rank_witness :
  (Some 1000, "f__SPIREOTU_01842612", "SPIREOTU_01842612")
  = ((Some 1000, "f__SPIREOTU_01842612", "SPIREOTU_01842612") : node_name).
Proof.
  apply (no_node_has_two_names_at_a_rank Examples.small_tree Examples.small_metadata
           "d__Bacteria" [] Examples.small_output.1 Examples.small_output.2
           (Some 1000, "f__SPIREOTU_01842612", "SPIREOTU_01842612")
           (Some 1000, "f__SPIREOTU_01842612", "SPIREOTU_01842612") 1000 family).
  - by left.
  - vm_compute. reflexivity.
  - apply list_elem_of_lookup. by exists 1%nat.
  - apply list_elem_of_lookup. by exists 1%nat.
  - reflexivity.
  - reflexivity.
  - reflexivity.
  - reflexivity.
Defined.

(** ** The prefixes given by [fill_taxonomy] *)

Section prefixes.
Variable group_order : list (option string * nat) → list (option string * nat).
Variable tree_df : list tree_row.
Variable gtdb_taxonomy : list (string * string).

(** What is written for a row that is not complete. *)
Lemma complete_genome_prefix acc g t acc' :
  is_complete (g, t) = false →
  complete_genome group_order tree_df gtdb_taxonomy acc (g, t) = Ok acc' →
  completed acc ⊆ completed acc'
  ∧ ∃ n u named,
      Str.to_Z (default "" (head (Str.split ";" t))) = Ok n
      ∧ completed acc' !! n = Some (Some u)
      ∧ genomes_output acc' = genomes_output acc ++ [(g, u +:+ ";" +:+ named)]
      ∧ (named_part t ≠ "" → named = named_part t)
      ∧ (named_part t = "" → species_for g named).
Proof.
  unfold is_complete, complete_genome. cbn [snd]. intros -> H.
  inv_bind H as n Hn. inv_bind H as uc Huc. inv_bind H as nn Hnn. inv_bind H as u Hu.
  inv_Ok H. apply of_option_Ok in Hu. cbn [completed genomes_output].
  assert (completed acc ⊆ uc.2 ∧ uc.2 !! n = Some uc.1) as [Hsub Hat].
  { unfold cached_taxonomy in Huc. destruct (completed acc !! n) as [u0|] eqn:Hc.
    - by inv_Ok Huc.
    - inv_bind Huc as u1 Hu1. inv_Ok Huc. cbn. split; [by apply insert_subseteq|].
      by rewrite lookup_insert_eq. }
  split; [done|]. exists n, u, nn.1. split; [done|]. split; [by rewrite Hat, Hu|].
  split; [done|]. fold (named_part t) in Hnn.
  destruct (Str.eqb (named_part t) "") eqn:He.
  - apply bool_decide_eq_true_1 in He. inv_bind Hnn as named Hnamed. inv_Ok Hnn.
    split; [done|]. intros _. cbn. unfold species_of_prefix in Hnamed.
    inv_bind Hnamed as u' Hu'. inv_bind Hnamed as i Hi. inv_Ok Hnamed. by eexists.
  - apply bool_decide_eq_false_1 in He. inv_Ok Hnn. cbn. split; [done|]. done.
Qed.

Lemma complete_genome_cache acc row acc' :
  complete_genome group_order tree_df gtdb_taxonomy acc row = Ok acc' →
  completed acc ⊆ completed acc'.
Proof.
  destruct row as [g t]. destruct (is_complete (g, t)) eqn:Hc.
  - unfold is_complete in Hc. cbn in Hc. unfold complete_genome. rewrite Hc.
    intros H. by inv_Ok H.
  - intros H. by apply complete_genome_prefix in H as [? _].
Qed.

Lemma complete_all_prefix rows : ∀ acc acc',
  foldE (complete_genome group_order tree_df gtdb_taxonomy) rows acc = Ok acc' →
  completed acc ⊆ completed acc'
  ∧ ∃ out, genomes_output acc' = genomes_output acc ++ out
           ∧ ∀ i g t, rows !! i = Some (g, t) → is_complete (g, t) = false →
               ∃ n u named,
                 Str.to_Z (default "" (head (Str.split ";" t))) = Ok n
                 ∧ completed acc' !! n = Some (Some u)
                 ∧ out !! i = Some (g, u +:+ ";" +:+ named)
                 ∧ (named_part t ≠ "" → named = named_part t)
                 ∧ (named_part t = "" → species_for g named).
Proof.
  induction rows as [|row rows IH]; intros acc acc' H; simpl in H.
  - inv_Ok H. split; [done|]. exists []. rewrite app_nil_r. split; [done|]. by intros [|i].
  - inv_bind H as acc1 Hstep. destruct (IH _ _ H) as (Hsub & out & Hout & Hrows).
    pose proof (complete_genome_cache _ _ _ Hstep) as Hsub1.
    split; [by etransitivity|].
    destruct (complete_genome_output _ _ _ _ _ _ Hstep) as (t1 & Hout1).
    exists ((row.1, t1) :: out). rewrite Hout, Hout1, <- app_assoc. split; [done|].
    intros [|i] g t Hi Hc; [|by apply Hrows]. simpl in Hi. injection Hi as ->.
    apply complete_genome_prefix in Hstep as (_ & n & u & named & Hn & Hat & Hrow & Hnamed); [|done].
    exists n, u, named. split; [done|]. split; [by eapply lookup_weaken|].
    split; [|done]. rewrite Hout1 in Hrow. apply app_inv_head in Hrow.
    injection Hrow as ->. done.
Qed.

End prefixes.

(** X24.  In [fill_taxonomy], the higher ranks depend on the node only:
    there is one prefix for each node id, and every row that starts with a
    node id is written as the prefix of its node, [";"], and the named part
    of the row (or, when the row has no named part, a species label made
    for its genome). *)
Theorem fill_taxonomy_gives_one_prefix_per_node
    (group_order : list (option string * nat) → list (option string * nat))
    (tree_df : list tree_row) (gtdb_taxonomy : list (string * string))
    (G G' : list (string * string)) (N N' : list node_name) :
  fill_taxonomy group_order tree_df gtdb_taxonomy G N = Ok (G', N') →
  ∃ prefixes : gmap Z (option string),
    ∀ i g t, G !! i = Some (g, t) → is_complete (g, t) = false →
      ∃ n u named,
        Str.to_Z (default "" (head (Str.split ";" t))) = Ok n
        ∧ prefixes !! n = Some (Some u)
        ∧ G' !! i = Some (g, u +:+ ";" +:+ named)
        ∧ (named_part t ≠ "" → named = named_part t)
        ∧ (named_part t = "" → species_for g named).
Proof.
  intros H. unfold fill_taxonomy in H. inv_bind H as acc Hall. inv_Ok H.
  unfold complete_all in Hall.
  apply complete_all_prefix in Hall as (_ & out & Hout & Hrows). simpl in Hout. subst out.
  by exists (completed acc).
Qed.

Lemma fill_taxonomy_gives_one_prefix_per_node_witness :
  ∃ prefixes : gmap Z (option string),
    ∀ i g t, Examples.mixed_input !! i = Some (g, t) → is_complete (g, t) = false →
      ∃ n u named,
        Str.to_Z (default "" (head (Str.split ";" t))) = Ok n
        ∧ prefixes !! n = Some (Some u)
        ∧ Examples.mixed_output.1 !! i = Some (g, u +:+ ";" +:+ named)
        ∧ (named_part t ≠ "" → named = named_part t)
        ∧ (named_part t = "" → species_for g named).
Proof.
  apply (fill_taxonomy_gives_one_prefix_per_node (λ l, l) Examples.vote_tree
           Examples.vote_reference Examples.mixed_input Examples.mixed_output.1
           [] Examples.mixed_output.2).
  vm_compute. reflexivity.
Defined.

(** ** From [name_clades] to [fill_taxonomy]: the lower ranks *)

Section requests.
Variable group_order : list (option string * nat) → list (option string * nat).
Variable tree_df : list tree_row.
Variable gtdb_taxonomy : list (string * string).

Lemma cache_asked_more rows row cache :
  cache_asked group_order tree_df gtdb_taxonomy rows cache →
  cache_asked group_order tree_df gtdb_taxonomy (rows ++ [row]) cache.
Proof.
  intros Hc n u Hn. destruct (Hc n u Hn) as (j & g & t & Hj & H).
  exists j, g, t. split; [|done]. by apply lookup_app_l_Some.
Qed.

(** The prefix written for a row that is not complete was answered by
    [get_taxonomy] to this row or to an earlier one, and the cache keeps
    only such answers. *)
Lemma complete_genome_asked pre acc g t acc' :
  cache_asked group_order tree_df gtdb_taxonomy pre (completed acc) →
  complete_genome group_order tree_df gtdb_taxonomy acc (g, t) = Ok acc' →
  cache_asked group_order tree_df gtdb_taxonomy (pre ++ [(g, t)]) (completed acc')
  ∧ (is_complete (g, t) = false →
     ∃ n u named j gj tj,
       row_node t = Ok n
       ∧ genomes_output acc' = genomes_output acc ++ [(g, u +:+ ";" +:+ named)]
       ∧ (named_part t ≠ "" → named = named_part t)
       ∧ (j ≤ length pre)%nat
       ∧ (pre ++ [(g, t)]) !! j = Some (gj, tj)
       ∧ is_complete (gj, tj) = false
       ∧ row_node tj = Ok n
       ∧ get_taxonomy group_order tree_df gtdb_taxonomy n (row_limit tj) = Ok (Some u)).
Proof.
  intros Hc H. destruct (is_complete (g, t)) eqn:Hg.
  - unfold is_complete in Hg. cbn in Hg. unfold complete_genome in H. rewrite Hg in H.
    inv_Ok H. cbn. split; [by apply cache_asked_more | done].
  - pose proof Hg as Hg'. unfold is_complete in Hg'. cbn in Hg'.
    unfold complete_genome in H. rewrite Hg' in H.
    inv_bind H as n Hn. inv_bind H as uc Huc. inv_bind H as nn Hnn. inv_bind H as u Hu.
    inv_Ok H. apply of_option_Ok in Hu. cbn [completed genomes_output].
    fold (named_part t) in Huc, Hnn. fold (row_limit t) in Huc. fold (row_node t) in Hn.
    assert (nn.1 = named_part t ∨ named_part t = "") as Hnamed.
    { destruct (Str.eqb (named_part t) "") eqn:He.
      - right. by apply bool_decide_eq_true_1 in He.
      - left. by inv_Ok Hnn. }
    unfold cached_taxonomy in Huc. destruct (completed acc !! n) as [u0|] eqn:Hcache.
    + inv_Ok Huc. cbn in *. subst u0. split; [by apply cache_asked_more|]. intros _.
      destruct (Hc n (Some u) Hcache) as (j & gj & tj & Hj & Hcj & Hnj & Hask).
      exists n, u, nn.1, j, gj, tj. split; [done|]. split; [done|].
      split; [by destruct Hnamed|].
      split; [apply lookup_lt_Some in Hj; lia|].
      split; [by apply lookup_app_l_Some | done].
    + inv_bind Huc as u1 Hu1. inv_Ok Huc. cbn in *. subst u1. split.
      * intros n' u' Hn'. destruct (decide (n' = n)) as [->|Hne].
        -- rewrite lookup_insert_eq in Hn'. injection Hn' as <-.
           exists (length pre), g, t. split; [|done].
           by rewrite lookup_app_r, Nat.sub_diag by lia.
        -- rewrite lookup_insert_ne in Hn' by done.
           by apply (cache_asked_more pre (g, t)) in Hc; apply Hc.
      * intros _. exists n, u, nn.1, (length pre), g, t. split; [done|]. split; [done|].
        split; [by destruct Hnamed|]. split; [lia|].
        split; [by rewrite lookup_app_r, Nat.sub_diag by lia | done].
Qed.

Lemma complete_all_asked rows : ∀ pre acc acc',
  cache_asked group_order tree_df gtdb_taxonomy pre (completed acc) →
  foldE (complete_genome group_order tree_df gtdb_taxonomy) rows acc = Ok acc' →
  ∃ out, genomes_output acc' = genomes_output acc ++ out
         ∧ ∀ i g t, rows !! i = Some (g, t) → is_complete (g, t) = false →
             ∃ n u named j gj tj,
               row_node t = Ok n
               ∧ out !! i = Some (g, u +:+ ";" +:+ named)
               ∧ (named_part t ≠ "" → named = named_part t)
               ∧ (j ≤ length pre + i)%nat
               ∧ (pre ++ rows) !! j = Some (gj, tj)
               ∧ is_complete (gj, tj) = false
               ∧ row_node tj = Ok n
               ∧ get_taxonomy group_order tree_df gtdb_taxonomy n (row_limit tj) = Ok (Some u).
Proof.
  induction rows as [|row rows IH]; intros pre acc acc' Hc H; simpl in H.
  - inv_Ok H. exists []. rewrite app_nil_r. split; [done|]. by intros [|i].
  - inv_bind H as acc1 Hstep. destruct row as [g0 t0].
    destruct (complete_genome_asked _ _ _ _ _ Hc Hstep) as (Hc1 & Hrow).
    destruct (IH _ _ _ Hc1 H) as (out & Hout & Hrows).
    destruct (complete_genome_output _ _ _ _ _ _ Hstep) as (t1 & Hout1).
    exists ((g0, t1) :: out). rewrite Hout, Hout1, <- app_assoc. split; [done|].
    intros [|i] g t Hi Hg.
    + simpl in Hi. injection Hi as -> ->.
      destruct (Hrow Hg) as (n & u & named & j & gj & tj & Hn & Hw & Hnamed & Hj & Hat & H').
      exists n, u, named, j, gj, tj. split; [done|]. split.
      { rewrite Hout1 in Hw. apply app_inv_head in Hw. injection Hw as ->. done. }
      split; [done|]. split; [lia|]. split; [|done].
      rewrite (assoc_L (++) pre [(g, t)] rows) || rewrite cons_middle, app_assoc.
      by apply lookup_app_l_Some.
    + simpl in Hi.
      destruct (Hrows i g t Hi Hg) as (n & u & named & j & gj & tj & Hn & Hw & Hnamed & Hj & Hat & H').
      exists n, u, named, j, gj, tj. split; [done|]. split; [done|]. split; [done|].
      split; [rewrite length_app in Hj; simpl in Hj; lia|]. split; [|done].
      by rewrite cons_middle, app_assoc.
Qed.

End requests.

(** X26.  The ranks that [name_clades] names below a reference node pass
    through [fill_taxonomy] unchanged.  A row that renders a taxonomy
    holding a reference node [n] at rank [t], no reference node below [t]
    and at least one name below [t], is written as a prefix, [";"], and
    these names joined by [";"]; the prefix is what [get_taxonomy] answers
    for [n], asked with the limit of a row of [n] that is this row or an
    earlier one (the answer to the first request is kept). *)
Theorem lower_ranks_pass_through_fill_taxonomy
    (group_order : list (option string * nat) → list (option string * nat))
    (tree_df : list tree_row) (gtdb_taxonomy : list (string * string))
    (G G' : list (string * string)) (N N' : list node_name)
    (i : nat) (g domain : string) (gt : taxon → slot) (t : taxon) (n : Z) :
  gt t = GTDB n →
  (∀ t' m, t' ∈ ranks_below t → gt t' ≠ GTDB m) →
  Str.join ";" (clade_names gt (ranks_below t)) ≠ "" →
  G !! i = Some (g, render domain gt) →
  fill_taxonomy group_order tree_df gtdb_taxonomy G N = Ok (G', N') →
  ∃ u j gj tj,
    (j ≤ i)%nat ∧ G !! j = Some (gj, tj) ∧ is_complete (gj, tj) = false
    ∧ row_node tj = Ok n
    ∧ get_taxonomy group_order tree_df gtdb_taxonomy n (row_limit tj) = Ok (Some u)
    ∧ G' !! i = Some (g, u +:+ ";" +:+ Str.join ";" (clade_names gt (ranks_below t))).
Proof.
  intros Ht Hbelow Hnames Hi H.
  destruct (render_parsed domain gt t n Ht Hbelow) as (Hprefix & Hn & Hpart).
  unfold fill_taxonomy in H. inv_bind H as acc Hall. inv_Ok H. unfold complete_all in Hall.
  apply (complete_all_asked _ _ _ _ []) in Hall as (out & Hout & Hrows); [|by intros ???].
  simpl in Hout. subst out.
  destruct (Hrows i g _ Hi Hprefix)
    as (n' & u & named & j & gj & tj & Hn' & Hrow & Hnamed & Hj & Hat & Hcj & Hnj & Hask).
  unfold row_node in Hn'. rewrite Hn in Hn'. injection Hn' as <-.
  exists u, j, gj, tj. repeat (split; [done|]).
  rewrite Hrow, Hnamed; [by rewrite Hpart | by rewrite Hpart].
Qed.

Lemma lower_ranks_pass_through_fill_taxonomy_witness :
  ∃ u j gj tj,
    (j ≤ 0)%nat
    ∧ [("SPIREOTU_01842612", Examples.truncate_string)] !! j = Some (gj, tj)
    ∧ is_complete (gj, tj) = false
    ∧ row_node tj = Ok 10000
    ∧ get_taxonomy (λ l, l) Examples.truncate_tree
        [("GB_GCA_016935655.1", "d__Archaea;p__P;c__C;o__O;f__F;g__G;s__G one")]
        10000 (row_limit tj) = Ok (Some u)
    ∧ [("SPIREOTU_01842612",
        "d__Archaea;p__P;c__C;o__O;f__F;g__SPIREOTU_01842612;s__SPIREOTU_01842612 SPIREOTU_01842612")]
      !! 0%nat
      = Some ("SPIREOTU_01842612",
              u +:+ ";" +:+ Str.join ";" (clade_names Examples.truncate_taxonomy (ranks_below family))).
Proof.
  apply (lower_ranks_pass_through_fill_taxonomy (λ l, l) Examples.truncate_tree
           [("GB_GCA_016935655.1", "d__Archaea;p__P;c__C;o__O;f__F;g__G;s__G one")]
           [("SPIREOTU_01842612", Examples.truncate_string)] _ [] []
           0 "SPIREOTU_01842612" "d__Archaea" Examples.truncate_taxonomy family 10000).
  - reflexivity.
  - intros t' m Hin. vm_compute in Hin.
    destruct t'; try discriminate;
      repeat (apply elem_of_cons in Hin as [Hin|Hin]; [discriminate Hin|]);
      by apply elem_of_nil in Hin.
  - vm_compute. discriminate.
  - vm_compute. reflexivity.
  - vm_compute. reflexivity.
Defined.
(** * The walk, the ledger and the tables *)

(** ** Loops whose bodies agree *)

Lemma mapE_ext {A B : Type} (f f' : A → result B) (l : list A) :
  (∀ x, x ∈ l → f x = f' x) → mapE f l = mapE f' l.
Proof.
  induction l as [|x l IH]; intros Hf; simpl; [done|].
  rewrite Hf by left. rewrite IH; [done|]. intros y Hy. apply Hf. by right.
Qed.

Lemma filterE_ext {A : Type} (f f' : A → result bool) (l : list A) :
  (∀ x, x ∈ l → f x = f' x) → filterE f l = filterE f' l.
Proof.
  induction l as [|x l IH]; intros Hf; simpl; [done|].
  rewrite Hf by left. rewrite IH; [done|]. intros y Hy. apply Hf. by right.
Qed.

Lemma foldE_ext {A St : Type} (f f' : St → A → result St) (l : list A) :
  (∀ x s, x ∈ l → f s x = f' s x) → ∀ s, foldE f l s = foldE f' l s.
Proof.
  induction l as [|x l IH]; intros Hf s; simpl; [done|].
  rewrite Hf by left. destruct (f' s x) as [s'|e]; simpl; [|done].
  apply IH. intros y s0 Hy. apply Hf. by right.
Qed.

(** ** Two tree tables that agree away from one node (C5) *)

Lemma parent_dict_lookup (tree_df : list tree_row) (n : Z) :
  parent_dict tree_df !! n = parent <$> last (rows_of tree_df n).
Proof.
  unfold parent_dict, rows_of. induction tree_df as [|r l IH] using rev_ind; [done|].
  rewrite foldl_app, filter_app. simpl.
  destruct (decide (node r = n)) as [Hr|Hr].
  - rewrite Hr, lookup_insert_eq.
    rewrite (filter_cons_True _ r []) by done. by rewrite filter_nil, last_snoc.
  - rewrite lookup_insert_ne by done.
    rewrite (filter_cons_False _ r []) by done. by rewrite filter_nil, app_nil_r.
Qed.

Section agree.
Variables (tree' tree_df : list tree_row) (n : Z).

(** The two tables have the same rows for every node but [n]; no row of
    the second is a row of [n] or of a child of [n]; they have the same
    rows without a genome. *)
Hypothesis Hrows : ∀ m, m ≠ n → rows_of tree' m = rows_of tree_df m.
Hypothesis Hnode : ∀ r, r ∈ tree_df → node r ≠ n.
Hypothesis Hparent : ∀ r, r ∈ tree_df → parent r ≠ n.
Hypothesis Hinner : ∀ p c : Z,
  filter (λ r, genome r = None ∧ parent r = p ∧ node r ≠ p ∧ node r ≠ c) tree'
  = filter (λ r, genome r = None ∧ parent r = p ∧ node r ≠ p ∧ node r ≠ c) tree_df.

Lemma head_row_parent m r : head (rows_of tree_df m) = Some r → parent r ≠ n.
Proof.
  intros H. apply head_Some_elem_of, list_elem_of_filter in H as [_ H]. by apply Hparent.
Qed.

Lemma get_node_red_agree m : m ≠ n → get_node_red tree' m = get_node_red tree_df m.
Proof.
  intros Hm. unfold get_node_red. rewrite Hrows by done.
  destruct (head (rows_of tree_df m)) as [r|] eqn:Hr; [|done]. cbn.
  case_bool_decide; [done|]. rewrite Hrows; [done|]. by eapply head_row_parent.
Qed.

Lemma get_child_red_agree m : m ≠ n → get_child_red tree' m = get_child_red tree_df m.
Proof. intros Hm. unfold get_child_red. by rewrite Hrows. Qed.

Lemma get_info_agree m : m ≠ n → get_info tree' m = get_info tree_df m.
Proof.
  intros Hm. unfold get_info. rewrite Hrows by done.
  destruct (head (rows_of tree_df m)) as [r|] eqn:Hr; [|done]. cbn.
  rewrite Hrows; [done|]. by eapply head_row_parent.
Qed.

Lemma get_vying_children_agree p level ch :
  get_vying_children tree' p level ch = get_vying_children tree_df p level ch.
Proof.
  unfold get_vying_children. rewrite Hinner. apply filterE_ext.
  intros c Hc. rewrite get_info_agree; [done|].
  apply list_elem_of_fmap in Hc as (r & -> & Hr). apply list_elem_of_filter in Hr as [_ Hr].
  by apply Hnode.
Qed.

Lemma vying_child_off p level ch vying c :
  get_vying_children tree_df p level ch = Ok vying → c ∈ vying → c ≠ n.
Proof.
  unfold get_vying_children. intros H Hc. eapply filterE_elem in Hc; [|exact H].
  apply list_elem_of_fmap in Hc as (r & -> & Hr). apply list_elem_of_filter in Hr as [_ Hr].
  by apply Hnode.
Qed.

Section walk_agree.
Variable median : list (string * float).
Variable g : string.

Lemma novelty_range_agree p bounds ch :
  p ≠ n →
  novelty_range tree' median p bounds ch = novelty_range tree_df median p bounds ch.
Proof.
  intros Hp. unfold novelty_range. case_bool_decide; [|done].
  rewrite get_vying_children_agree.
  destruct (get_vying_children tree_df p bounds.1 ch) as [vying|e] eqn:Hv; [|done]. cbn.
  rewrite (mapE_ext (get_node_red tree') (get_node_red tree_df)).
  - by rewrite get_node_red_agree.
  - intros c Hc. apply get_node_red_agree. by eapply vying_child_off.
Qed.

Lemma resolve_child_agree p bounds reds skip c st :
  p ≠ n → c.1 ≠ n →
  resolve_child tree' median g p bounds reds skip c st
  = resolve_child tree_df median g p bounds reds skip c st.
Proof.
  intros Hp Hc. unfold resolve_child.
  destruct (head c.2) as [c10|]; [|done]. destruct (head reds) as [n0|]; [|done]. cbn.
  by rewrite !get_node_red_agree.
Qed.

Lemma visit_parent_agree p bounds reds st :
  p ≠ n →
  visit_parent tree' median p bounds reds st = visit_parent tree_df median p bounds reds st.
Proof.
  intros Hp. unfold visit_parent. destruct (node_taxonomy st !! p); [done|].
  destruct (head reds) as [n0|]; [|done]. cbn. destruct (Str.eqb n0 ""); [|done].
  destruct (taxa_index bounds.2) as [i|]; [|done]. cbn.
  by rewrite get_child_red_agree, get_node_red_agree.
Qed.

Lemma walk_step_agree pn st :
  pn.1 ≠ n → child_off n st →
  walk_step tree' median g pn st = walk_step tree_df median g pn st.
Proof.
  destruct pn as [p bounds]. intros Hp Hc. unfold walk_step.
  rewrite novelty_range_agree by done.
  destruct (novelty_range tree_df median p bounds (child st)) as [[reds skip]|]; [|done]. cbn.
  destruct (child st) as [c|] eqn:Hch.
  - rewrite resolve_child_agree; [|done|by apply Hc].
    destruct (resolve_child tree_df median g p bounds reds skip c st) as [[st1 skip1]|]; [|done].
    cbn. destruct skip1; [done|]. by apply visit_parent_agree.
  - cbn. destruct skip; [done|]. by apply visit_parent_agree.
Qed.

(** The pending candidate after a turn of the loop is the ancestor of the
    turn or the candidate of before. *)
Lemma walk_step_child pn st st' stop c :
  walk_step tree_df median g pn st = Ok (st', stop) →
  child st' = Some c → c.1 = pn.1 ∨ child st = Some c.
Proof.
  destruct pn as [p bounds]. unfold walk_step. intros H Hc.
  inv_bind H as [reds skip] Hrange.
  assert (∀ st1 st2 stop2, visit_parent tree_df median p bounds reds st1 = Ok (st2, stop2) →
            child st2 = Some c → c.1 = p ∨ child st1 = Some c) as Hvisit.
  { intros st1 st2 stop2 Hv Hc2. unfold visit_parent in Hv.
    destruct (node_taxonomy st1 !! p); [inv_Ok Hv; by right|].
    inv_bind Hv as n0 Hn0. destruct (Str.eqb n0 "").
    - inv_bind Hv as i Hi. inv_bind Hv as cr Hcr. inv_bind Hv as pr Hpr.
      inv_bind Hv as mr Hmr.
      destruct (if child_red_closer cr pr mr then i else S i); [inv_Ok Hv; by right|].
      inv_bind Hv as t Ht. inv_Ok Hv. by right.
    - inv_Ok Hv. cbn in Hc2. injection Hc2 as <-. by left. }
  destruct (child st) as [c0|] eqn:Hch.
  - inv_bind H as [st1 skip1] Hres.
    assert (child st1 = None) as Hnone.
    { unfold resolve_child in Hres. inv_bind Hres as c10 H1. inv_bind Hres as n0 H2.
      inv_bind Hres as [[c' nc] sk] H3. inv_bind Hres as st2 H4. by inv_Ok Hres. }
    destruct skip1.
    + inv_Ok H. congruence.
    + destruct (Hvisit _ _ _ H Hc) as [?|?]; [by left | congruence].
  - cbn in H. destruct skip.
    + inv_Ok H. right. congruence.
    + destruct (Hvisit _ _ _ H Hc) as [?|?]; [by left | right; congruence].
Qed.

Lemma walk_agree pns : ∀ st,
  (∀ pn, pn ∈ pns → pn.1 ≠ n) → child_off n st →
  walk tree' median g pns st = walk tree_df median g pns st.
Proof.
  induction pns as [|pn pns IH]; intros st Hpns Hc; simpl; [done|].
  rewrite walk_step_agree; [|apply Hpns; by left|done].
  destruct (walk_step tree_df median g pn st) as [[st' stop]|] eqn:Hstep; [|done]. cbn.
  destruct stop; [done|]. apply IH.
  - intros pn' Hpn'. apply Hpns. by right.
  - intros c Hc'. destruct (walk_step_child _ _ _ _ _ Hstep Hc') as [->|Hc0].
    + apply Hpns. by left.
    + by apply Hc.
Qed.

End walk_agree.

Lemma name_genome_agree domain red_cutoffs rs row :
  (∀ p, p ∈ row.2 → p ≠ n) →
  name_genome tree' domain red_cutoffs rs row = name_genome tree_df domain red_cutoffs rs row.
Proof.
  intros Hrow. unfold name_genome, walk_genome.
  rewrite (mapE_ext (λ p, i ← get_info tree' p; Ok (p, i))
                    (λ p, i ← get_info tree_df p; Ok (p, i)))
    by (intros p Hp; by rewrite get_info_agree by (by apply Hrow)).
  destruct (mapE _ row.2) as [pns|] eqn:Hpns; [|done]. cbn.
  rewrite walk_agree; [done| |done].
  intros pn Hpn. apply Hrow.
  assert (fst <$> pns = id <$> row.2) as Hfst.
  { eapply mapE_fmap; [|exact Hpns]. intros p y Hy. inv_bind Hy as i Hi. by inv_Ok Hy. }
  rewrite list_fmap_id in Hfst. rewrite <- Hfst. by apply list_elem_of_fmap_2.
Qed.

End agree.

(** ** A leaf without metadata (C5) *)

Lemma parent_chain_agree (pd' pd : gmap Z Z) (n : Z) :
  (∀ m, m ≠ n → pd' !! m = pd !! m) →
  (∀ m p, pd !! m = Some p → p ≠ n) →
  ∀ m l, m ≠ n → parent_chain pd' m l ↔ parent_chain pd m l.
Proof.
  intros Hpd Hval m l Hm. split; intros H.
  - induction H as [m Hn | m Hn | m p l Hn Hne _ IH]; rewrite Hpd in Hn by done.
    + by apply chain_absent.
    + by apply chain_self.
    + apply chain_link with (p := p); [done | done |]. apply IH. by eapply Hval.
  - induction H as [m Hn | m Hn | m p l Hn Hne _ IH].
    + apply chain_absent. by rewrite Hpd.
    + apply chain_self. by rewrite Hpd.
    + apply chain_link with (p := p); [by rewrite Hpd | done |]. apply IH. by eapply Hval.
Qed.

Lemma parent_chain_find_parents pd m l :
  parent_chain pd m l → find_parents pd m = Ok l.
Proof.
  intros H. unfold find_parents. rewrite (parent_chain_fuel pd m l H); [done|].
  apply parent_chain_length in H. lia.
Qed.

Lemma find_parents_parent_chain pd m l :
  find_parents pd m = Ok l → parent_chain pd m l.
Proof.
  unfold find_parents. intros H. apply of_option_Ok in H.
  by eapply find_parents_fuel_parent_chain.
Qed.

Lemma find_parents_agree (pd' pd : gmap Z Z) (n m : Z) :
  (∀ m, m ≠ n → pd' !! m = pd !! m) →
  (∀ m p, pd !! m = Some p → p ≠ n) →
  m ≠ n → find_parents pd' m = find_parents pd m.
Proof.
  intros Hpd Hval Hm.
  destruct (find_parents pd m) as [l|e] eqn:H.
  - apply parent_chain_find_parents, (parent_chain_agree pd' pd n); [done..|].
    by apply find_parents_parent_chain.
  - destruct (find_parents pd' m) as [l'|e'] eqn:H'.
    + apply find_parents_parent_chain, (parent_chain_agree pd' pd n) in H'; [|done..].
      apply parent_chain_find_parents in H'. congruence.
    + unfold find_parents in *.
      destruct (find_parents_fuel pd _ m), (find_parents_fuel pd' _ m); simpl in *; congruence.
Qed.

Lemma parent_chain_values pd m l p :
  parent_chain pd m l → p ∈ l → ∃ x, pd !! x = Some p.
Proof.
  induction 1 as [m Hn | m Hn | m q l Hn Hne _ IH]; intros Hp;
    try by apply elem_of_nil in Hp.
  apply elem_of_cons in Hp as [->|Hp]; eauto.
Qed.

Lemma parent_dict_value tree_df m p :
  parent_dict tree_df !! m = Some p → p ∈ parent <$> tree_df.
Proof.
  rewrite parent_dict_lookup. intros H.
  destruct (last (rows_of tree_df m)) as [r|] eqn:Hr; [|done]. injection H as <-.
  apply list_elem_of_fmap_2. apply last_Some_elem_of in Hr.
  by apply list_elem_of_filter in Hr as [_ Hr].
Qed.

Section dropped_leaf.
Variables (before after : list tree_row) (r : tree_row) (g : string).
Variable genome_metadata : list metadata_row.
Hypothesis Hg : genome r = Some g.
Hypothesis Hmeta : g ∉ Name <$> genome_metadata.
Hypothesis Hnode : node r ∉ node <$> (before ++ after).
Hypothesis Hparent : node r ∉ parent <$> (before ++ after).

Lemma leaf_rows m :
  m ≠ node r → rows_of (before ++ r :: after) m = rows_of (before ++ after) m.
Proof.
  intros Hm. unfold rows_of. rewrite !filter_app. f_equal.
  by rewrite filter_cons_False by (intros ?; congruence).
Qed.

Lemma leaf_inner (p c : Z) :
  filter (λ r, genome r = None ∧ parent r = p ∧ node r ≠ p ∧ node r ≠ c) (before ++ r :: after)
  = filter (λ r, genome r = None ∧ parent r = p ∧ node r ≠ p ∧ node r ≠ c) (before ++ after).
Proof.
  rewrite !filter_app. f_equal.
  by rewrite filter_cons_False by (intros [? _]; congruence).
Qed.

Lemma leaf_node r0 : r0 ∈ before ++ after → node r0 ≠ node r.
Proof. intros Hr Heq. apply Hnode. rewrite <- Heq. by apply list_elem_of_fmap_2. Qed.

Lemma leaf_parent r0 : r0 ∈ before ++ after → parent r0 ≠ node r.
Proof. intros Hr Heq. apply Hparent. rewrite <- Heq. by apply list_elem_of_fmap_2. Qed.

Lemma leaf_order :
  genome_order (before ++ r :: after) genome_metadata
  = genome_order (before ++ after) genome_metadata.
Proof.
  unfold genome_order. do 2 f_equal. unfold join_metadata.
  rewrite !List.filter_app, !fmap_app, !bind_app. f_equal. simpl.
  destruct (is_query_leaf r); [|done].
  rewrite fmap_cons, bind_cons, Hg.
  rewrite filter_none; [done|].
  intros m Hm Heq. apply Hmeta. rewrite <- Heq. by apply list_elem_of_fmap_2.
Qed.

Lemma leaf_joined (order : list string) :
  g ∉ order →
  ((before ++ r :: after) ≫= λ r,
     match genome r with
     | None => []
     | Some g => (λ ig : nat * string, (ig.1, g, node r))
                   <$> filter (λ ig : nat * string, ig.2 = g) (imap pair order)
     end)
  = ((before ++ after) ≫= λ r,
       match genome r with
       | None => []
       | Some g => (λ ig : nat * string, (ig.1, g, node r))
                     <$> filter (λ ig : nat * string, ig.2 = g) (imap pair order)
       end).
Proof.
  intros Hord. rewrite !bind_app. f_equal. rewrite bind_cons, Hg.
  rewrite filter_none; [done|].
  intros [i g'] Hin Heq. simpl in Heq. subst g'.
  apply elem_of_lookup_imap in Hin as (j & g' & [= -> ->] & Hin).
  apply Hord. by eapply list_elem_of_lookup_2.
Qed.

Lemma leaf_find_parents m :
  m ≠ node r →
  find_parents (parent_dict (before ++ r :: after)) m
  = find_parents (parent_dict (before ++ after)) m.
Proof.
  apply find_parents_agree.
  - intros m0 Hm0. by rewrite !parent_dict_lookup, leaf_rows.
  - intros m0 p Hp Heq. subst p. apply Hparent. by eapply parent_dict_value.
Qed.

Lemma leaf_tree_genomes :
  tree_genomes (before ++ r :: after) genome_metadata
  = tree_genomes (before ++ after) genome_metadata.
Proof.
  unfold tree_genomes. rewrite leaf_order.
  rewrite leaf_joined by (intros Hin; apply Hmeta; by eapply genome_order_metadata).
  erewrite mapE_ext; [done|].
  intros e He. simpl. rewrite leaf_find_parents; [done|].
  apply tree_join_elem in He as (r0 & Hr0 & _ & <- & _). by apply leaf_node.
Qed.

Lemma leaf_chain_off rows row p :
  tree_genomes (before ++ after) genome_metadata = Ok rows →
  row ∈ rows → p ∈ row.2 → p ≠ node r.
Proof.
  intros H Hrow Hp Heq. subst p.
  apply (tree_genomes_rows _ _ _ _ H) in Hrow as (leaf & _ & _ & Hchain).
  apply find_parents_parent_chain in Hchain.
  destruct (parent_chain_values _ _ _ _ Hchain Hp) as (x & Hx).
  apply Hparent. by eapply parent_dict_value.
Qed.

Lemma leaf_name_clades domain red_cutoffs :
  name_clades (before ++ r :: after) genome_metadata domain red_cutoffs
  = name_clades (before ++ after) genome_metadata domain red_cutoffs.
Proof.
  unfold name_clades, name_all. rewrite leaf_tree_genomes.
  destruct (tree_genomes (before ++ after) genome_metadata) as [rows|] eqn:Hrows; [|done]. cbn.
  erewrite foldE_ext; [done|].
  intros row s Hrow. apply (name_genome_agree _ _ (node r)).
  - apply leaf_rows.
  - apply leaf_node.
  - apply leaf_parent.
  - apply leaf_inner.
  - intros p Hp. by eapply leaf_chain_off.
Qed.

End dropped_leaf.

(** C5, as amended.  A leaf whose genome has no row in the metadata (in
    particular a query leaf) counts for nothing in [name_clades]: on a
    tree table in which the node of the leaf has one row and is the parent
    of no row, [name_clades] returns, or raises, exactly what it does on
    the table without the row of the leaf.  No error is raised on account
    of the genome, the other genomes are named as if the leaf were not
    there, and the genome has no row in the genome table. *)
Theorem genomes_without_metadata_are_dropped
    (before after : list tree_row) (r : tree_row) (g : string)
    (genome_metadata : list metadata_row) (domain : string) (red_cutoffs : list float) :
  genome r = Some g →
  g ∉ Name <$> genome_metadata →
  node r ∉ node <$> (before ++ after) →
  node r ∉ parent <$> (before ++ after) →
  name_clades (before ++ r :: after) genome_metadata domain red_cutoffs
  = name_clades (before ++ after) genome_metadata domain red_cutoffs
  ∧ ∀ G N, name_clades (before ++ r :: after) genome_metadata domain red_cutoffs = Ok (G, N) →
           g ∉ G.*1.
Proof.
  intros Hg Hmeta Hnode Hparent. split.
  - by eapply leaf_name_clades.
  - intros G N H. by eapply name_clades_genomes.
Qed.

Lemma genomes_without_metadata_are_dropped_witness :
  name_clades Examples.small_tree Examples.partial_metadata "d__Bacteria" []
  = name_clades (take 2 Examples.small_tree ++ drop 3 Examples.small_tree)
      Examples.partial_metadata "d__Bacteria" []
  ∧ ∀ G N, name_clades Examples.small_tree Examples.partial_metadata "d__Bacteria" []
           = Ok (G, N) →
           "BCRBG_48201" ∉ G.*1.
Proof.
  apply (genomes_without_metadata_are_dropped
           (take 2 Examples.small_tree) (drop 3 Examples.small_tree)
           (TreeRow 1000 3 (Some "nongtdb") (Some "BCRBG_48201") (Some "other") None None)
           "BCRBG_48201" Examples.partial_metadata "d__Bacteria" []).
  - reflexivity.
  - apply (bool_decide_unpack _). vm_compute. exact I.
  - apply (bool_decide_unpack _). vm_compute. exact I.
  - apply (bool_decide_unpack _). vm_compute. exact I.
Defined.

(** ** The ledger along the walk (C4) *)

Section walk_reaches.
Variable tree_df : list tree_row.
Variable median : list (string * float).
Variable g : string.


(** When the loop runs over the first ancestors without [break], the walk
    goes on with the ancestors that follow. *)
Lemma walk_until_walk before rest : ∀ st st1,
  walk_until tree_df median g before st = Ok (st1, false) →
  walk tree_df median g (before ++ rest) st = walk tree_df median g rest st1.
Proof.
  induction before as [|pn before IH]; intros st st1 H; simpl in H.
  - by inv_Ok H.
  - inv_bind H as [st' stop] Hstep. simpl. rewrite Hstep. cbn.
    destruct stop; [by inv_Ok H|]. by apply IH.
Qed.


(** A turn of the loop that does not skip its ancestor consults the
    ledger there. *)
Lemma walk_step_decided p bounds st st' :
  skip_decision tree_df median g (p, bounds) st = Ok (st', false) →
  ∃ reds skip0,
    novelty_range tree_df median p bounds (child st) = Ok (reds, skip0)
    ∧ walk_step tree_df median g (p, bounds) st
      = visit_parent tree_df median p bounds reds st'.
Proof.
  unfold skip_decision, walk_step. cbn [fst snd]. intros H.
  inv_bind H as [reds skip0] Hrange. exists reds, skip0. split; [done|].
  rewrite Hrange. cbn. by rewrite H.
Qed.

(** A turn of the loop that skips its ancestor leaves the loop body before
    the ledger is read. *)
Lemma walk_step_skipped p bounds st st' :
  skip_decision tree_df median g (p, bounds) st = Ok (st', true) →
  walk_step tree_df median g (p, bounds) st = Ok (st', false).
Proof.
  unfold skip_decision, walk_step. cbn [fst snd]. intros H.
  inv_bind H as [reds skip0] Hrange. rewrite Hrange. cbn. by rewrite H.
Qed.

End walk_reaches.




(** ** The walk that ends at a reference node (C6) *)

Lemma parent_bounds_info tree_df parents pns pn :
  parent_bounds tree_df parents = Ok pns → pn ∈ pns → get_info tree_df pn.1 = Ok pn.2.
Proof.
  unfold parent_bounds. intros H Hpn. apply mapE_Forall2 in H.
  apply list_elem_of_lookup in Hpn as (k & Hk).
  eapply Forall2_lookup_r in H as (p & _ & Hf); [|exact Hk].
  inv_bind Hf as i Hi. by inv_Ok Hf.
Qed.

Section own_names.
Variable g : string.

Lemma name_rank_own c0 gt out tt r gt' out' tt' :
  name_rank g c0 (gt, out, tt) r = Ok (gt', out', tt') →
  (∀ t m, gt t ≠ GTDB m) → (∀ t a c, gt t = Clade a c → c = mint t g) →
  (∀ t m, gt' t ≠ GTDB m) ∧ (∀ t a c, gt' t = Clade a c → c = mint t g).
Proof.
  unfold name_rank. intros H Hno Hown. inv_bind H as t0 Ht0.
  destruct (_ && _); inv_Ok H; [|done]. split.
  - intros t m. unfold set_slot. case_bool_decide; [done | apply Hno].
  - intros t a c. unfold set_slot. case_bool_decide as Ht; [|apply Hown].
    intros [= _ <-]. by subst t.
Qed.

Lemma name_ranks_own c0 rs : ∀ gt out tt gt' out' tt',
  foldE (name_rank g c0) rs (gt, out, tt) = Ok (gt', out', tt') →
  (∀ t m, gt t ≠ GTDB m) → (∀ t a c, gt t = Clade a c → c = mint t g) →
  (∀ t m, gt' t ≠ GTDB m) ∧ (∀ t a c, gt' t = Clade a c → c = mint t g).
Proof.
  induction rs as [|r rs IH]; intros gt out tt gt' out' tt' H Hno Hown; simpl in H.
  - by inv_Ok H.
  - inv_bind H as [[gt1 out1] tt1] Hstep.
    destruct (name_rank_own _ _ _ _ _ _ _ _ Hstep Hno Hown) as [Hno1 Hown1]. eauto.
Qed.

Lemma name_child_ranks_own n c st st' :
  c.1 ≠ n → walk_own g n st → name_child_ranks g c st = Ok st' → walk_own g n st'.
Proof.
  intros Hc (Hno & Hown & Hn & Hch) H. unfold name_child_ranks in H.
  inv_bind H as [[gt out] tt] Hfold. inv_Ok H.
  destruct (name_ranks_own _ _ _ _ _ _ _ _ Hfold Hno Hown) as [Hno' Hown'].
  split; [done|]. split; [done|]. split; [|done]. simpl.
  case_bool_decide; [done | by rewrite lookup_insert_ne].
Qed.

End own_names.

Section reference_walk.
Variable tree_df : list tree_row.
Variable median : list (string * float).
Variable g : string.
Variable n : Z.

Hypothesis Hmedian : ∀ v, dict_get median "" ≠ Ok v.

Lemma resolve_child_own p bounds reds skip c st st' skip' :
  child st = Some c → walk_own g n st →
  resolve_child tree_df median g p bounds reds skip c st = Ok (st', skip') →
  walk_own g n st' ∧ child st' = None.
Proof.
  intros Hchild Hown H. unfold resolve_child in H.
  inv_bind H as c10 Hc10. inv_bind H as n0 Hn0.
  inv_bind H as [[c' name_child] skip1] Hdecide.
  inv_bind H as st1 Hname. inv_Ok H.
  assert (c'.1 = c.1) as Hc'.
  { destruct (_ || _) in Hdecide; [|by inv_Ok Hdecide].
    inv_bind Hdecide as r1 Hr1. inv_bind Hdecide as r2 Hr2. inv_bind Hdecide as m Hm.
    destruct (child_red_closer _ _ _); by inv_Ok Hdecide. }
  assert (walk_own g n st1) as (Hno & Hnamed & Hn & _).
  { destruct name_child; [|by inv_Ok Hname].
    eapply name_child_ranks_own; [|exact Hown|exact Hname].
    rewrite Hc'. destruct Hown as (_ & _ & _ & Hoff). by apply Hoff. }
  split; [|done]. split; [done|]. split; [done|]. split; [done|]. by intros c0.
Qed.

(** The state when the loop body reaches [if skip_parent] keeps the
    invariant, and has no pending candidate. *)
Lemma skip_decision_own pn st st' skip :
  walk_own g n st →
  skip_decision tree_df median g pn st = Ok (st', skip) →
  walk_own g n st' ∧ (child st = None → st' = st).
Proof.
  intros Hown H. unfold skip_decision in H. inv_bind H as [reds skip0] Hrange.
  destruct (child st) as [c|] eqn:Hchild.
  - apply resolve_child_own in H as [H _]; [|done|done]. split; [done|]. done.
  - inv_Ok H. by split.
Qed.

(** At a reference node the loop is left by [break]: nothing is recorded
    when [novelty_index] is 0, and otherwise the node is recorded at the
    rank before [novelty_index]. *)
Lemma reference_step label st st' stop :
  walk_own g n st →
  walk_step tree_df median g (n, ("", label)) st = Ok (st', stop) →
  stop = true
  ∧ nodes_output st' = nodes_output (reached (skip_decision tree_df median g (n, ("", label)) st))
  ∧ ∃ gt1 child_red parent_red median_red i,
      (∀ t m, gt1 t ≠ GTDB m) ∧ (∀ t a c, gt1 t = Clade a c → c = mint t g)
      ∧ get_child_red tree_df n = Ok child_red
      ∧ get_node_red tree_df n = Ok parent_red
      ∧ dict_get median label = Ok median_red
      ∧ taxa_index label = Ok i
      ∧ match novelty_index (child_red_closer child_red parent_red median_red) i with
        | O => genome_taxonomy st' = gt1
        | S k => ∃ t, all_taxa !! k = Some t ∧ genome_taxonomy st' = set_slot gt1 t (GTDB n)
        end.
Proof.
  intros Hown H.
  assert (label ≠ "") as Hlabel.
  { intros ->. unfold walk_step, novelty_range in H. cbn [fst snd] in H.
    rewrite bool_decide_eq_true_2 in H by done.
    inv_bind H as [reds skip] Hr. inv_bind Hr as vying Hv. inv_bind Hr as reds' Hreds.
    inv_bind Hr as pr Hpr. inv_bind Hr as mr Hmr. by apply Hmedian in Hmr. }
  destruct (skip_decision tree_df median g (n, ("", label)) st) as [[st1 skip1]|e] eqn:Hdec.
  2:{ unfold skip_decision, walk_step in *. cbn [fst snd] in *.
      destruct (novelty_range tree_df median n ("", label) (child st)) as [[reds skip]|];
        [|done]. cbn in *. by rewrite Hdec in H. }
  assert (skip1 = false) as ->.
  { unfold skip_decision, novelty_range in Hdec. cbn [fst snd] in Hdec.
    rewrite bool_decide_eq_false_2 in Hdec by done.
    change (negb (Str.eqb "" "")) with false in Hdec. cbn [mbind result_bind] in Hdec.
    destruct (child st) as [c|] eqn:Hc; [|by inv_Ok Hdec].
    unfold resolve_child in Hdec.
    inv_bind Hdec as c10 Hc10. inv_bind Hdec as n0 Hn0. injection Hn0 as <-.
    inv_bind Hdec as [[c' name_child] skip1'] Hdecide.
    inv_bind Hdec as st2 Hname. inv_Ok Hdec.
    destruct (_ || _) in Hdecide; [|by inv_Ok Hdecide].
    inv_bind Hdecide as r1 Hr1. inv_bind Hdecide as r2 Hr2. inv_bind Hdecide as m Hm.
    destruct (child_red_closer r1 r2 m); by inv_Ok Hdecide. }
  destruct (skip_decision_own _ _ _ _ Hown Hdec) as [(Hno & Hnamed & Hn & Hoff) _].
  destruct (walk_step_decided _ _ _ _ _ _ _ Hdec) as (reds & skip0 & Hrange & Hstep).
  rewrite Hstep in H. simpl.
  assert (head reds = Some "") as Hreds.
  { unfold novelty_range in Hrange. cbn [fst snd] in Hrange.
    rewrite bool_decide_eq_false_2 in Hrange by done.
    change (negb (Str.eqb "" "")) with false in Hrange. cbv iota in Hrange.
    by inv_Ok Hrange. }
  unfold visit_parent in H. rewrite Hn, Hreds in H. cbn [of_option mbind result_bind] in H.
  change (Str.eqb "" "") with true in H. cbn [fst snd] in H.
  inv_bind H as i Hi. inv_bind H as cr Hcr. inv_bind H as pr Hpr. inv_bind H as mr Hmr.
  fold (novelty_index (child_red_closer cr pr mr) i) in H.
  destruct (novelty_index (child_red_closer cr pr mr) i) as [|k] eqn:Hidx.
  - inv_Ok H. split; [done|]. split; [done|].
    exists (genome_taxonomy st'), cr, pr, mr, i. rewrite Hidx. repeat (split; [done|]). done.
  - inv_bind H as t Ht. inv_Ok H. split; [done|]. split; [done|].
    exists (genome_taxonomy st1), cr, pr, mr, i. rewrite Hidx. repeat (split; [done|]).
    exists t. split; [by apply of_option_Ok in Ht | done].
Qed.

(** A turn of the loop that does not leave it keeps the invariant. *)
Lemma walk_step_own pn st st' :
  walk_own g n st → (pn.1 = n → pn.2.1 = "") →
  walk_step tree_df median g pn st = Ok (st', false) →
  walk_own g n st'.
Proof.
  destruct pn as [p bounds]. cbn [fst snd]. intros Hown Hp H.
  destruct (decide (p = n)) as [->|Hne].
  { destruct bounds as [b1 label]. cbn in Hp. rewrite (Hp eq_refl) in H.
    by apply reference_step in H as [? _]. }
  destruct (skip_decision tree_df median g (p, bounds) st) as [[st1 skip1]|e] eqn:Hdec.
  2:{ unfold skip_decision, walk_step in *. cbn [fst snd] in *.
      destruct (novelty_range tree_df median p bounds (child st)) as [[reds skip]|];
        [|done]. cbn in *. by rewrite Hdec in H. }
  destruct (skip_decision_own _ _ _ _ Hown Hdec) as [Hown1 _].
  destruct skip1.
  - rewrite (walk_step_skipped _ _ _ _ _ _ _ Hdec) in H. by inv_Ok H.
  - destruct (walk_step_decided _ _ _ _ _ _ _ Hdec) as (reds & skip0 & _ & Hstep).
    rewrite Hstep in H. unfold visit_parent in H.
    destruct Hown1 as (Hno & Hnamed & Hn & Hoff).
    destruct (node_taxonomy st1 !! p); [by inv_Ok H|].
    inv_bind H as n0 Hn0. destruct (Str.eqb n0 "").
    + inv_bind H as i Hi. inv_bind H as cr Hcr. inv_bind H as pr Hpr. inv_bind H as mr Hmr.
      destruct (if child_red_closer cr pr mr then i else S i); [by inv_Ok H|].
      inv_bind H as t Ht. by inv_Ok H.
    + inv_Ok H. split; [done|]. split; [done|]. split; [done|].
      intros c [= <-]. done.
Qed.

Lemma walk_until_own pns : ∀ st st',
  walk_own g n st → (∀ pn, pn ∈ pns → pn.1 = n → pn.2.1 = "") →
  walk_until tree_df median g pns st = Ok (st', false) →
  walk_own g n st'.
Proof.
  induction pns as [|pn pns IH]; intros st st' Hown Hpns H; simpl in H.
  - by inv_Ok H.
  - inv_bind H as [st1 stop] Hstep. destruct stop; [by inv_Ok H|].
    eapply IH; [|intros; apply Hpns; [by right | done] | exact H].
    eapply walk_step_own; [exact Hown | apply Hpns; by left | exact Hstep].
Qed.

End reference_walk.

(** ** The ranks of a genome that is named for the first time *)

Lemma first_set_slot gt i s : first_set gt = Some (i, s) → ∃ t, taxon_index t = i ∧ s = gt t.
Proof.
  unfold first_set. intros H. apply head_Some_elem_of in H.
  apply list_elem_of_In, filter_In in H as [H _]. apply list_elem_of_In in H.
  apply elem_of_lookup_imap in H as (j & t & [= -> ->] & Ht). exists t. split; [|done].
  unfold all_taxa in Ht.
  repeat (destruct j as [|j]; [injection Ht as <-; reflexivity|]). done.
Qed.

(** When the ranks that have a name are named after the genome, no earlier
    row carries such a name and the genome has no row in the genome table,
    nothing is inherited: the taxonomy is left as it is, or an
    [IndexError] is raised. *)
Lemma inherit_ancestors_own g out0 new G gt gt' :
  (∀ t a c, gt t = Clade a c → c = mint t g) →
  (∀ r t, r ∈ out0 → clade_of r ≠ mint t g) →
  Forall (λ r : node_name, r.2 = g) new →
  g ∉ G.*1 →
  inherit_ancestors (out0 ++ new) G gt = Ok gt' → gt' = gt.
Proof.
  intros Hown Hout0 Hnew HG H. unfold inherit_ancestors in H.
  destruct (first_set gt) as [[[|k] [|a name|m]]|] eqn:Hfirst; try by inv_Ok H.
  exfalso. apply first_set_slot in Hfirst as (t & _ & Ht). symmetry in Ht.
  apply Hown in Ht. subst name.
  inv_bind H as trailblazer Htb. inv_bind H as taxonomy Htax.
  apply of_option_Ok, head_Some_elem_of, list_elem_of_filter in Htb as [Hclade Hin].
  apply elem_of_app in Hin as [Hin|Hin]; [by eapply Hout0|].
  rewrite Forall_forall in Hnew. apply Hnew in Hin.
  apply of_option_Ok in Htax. destruct (head _) as [[g' x]|] eqn:Hh; [|done].
  apply head_Some_elem_of, list_elem_of_filter in Hh as [Hg' Hx]. simpl in Hg'.
  apply HG. rewrite <- Hin, <- Hg'. by apply (list_elem_of_fmap_2 fst) in Hx.
Qed.

Section fill_slots.
Variable median : list (string * float).
Variable g : string.
Variable parent_novelty : list (Z * (string * string)).
Variable prenamed_taxons : list taxon.

(** The loop over the ranks leaves a rank that has a value as it is, and
    writes no reference node. *)
Lemma fill_step_slots fs t0 fs' :
  fill_step median g parent_novelty prenamed_taxons fs t0 = Ok fs' →
  (∀ t, genome_taxonomy (naming fs) t ≠ Unset →
        genome_taxonomy (naming fs') t = genome_taxonomy (naming fs) t)
  ∧ (∀ t m, genome_taxonomy (naming fs') t = GTDB m → genome_taxonomy (naming fs) t = GTDB m).
Proof.
  intros H. unfold fill_step in H.
  assert (∀ name fs1,
            genome_taxonomy (naming fs) t0 = Unset →
            place median g parent_novelty prenamed_taxons t0 name fs = Ok fs1 →
            (∀ t, genome_taxonomy (naming fs) t ≠ Unset →
                  genome_taxonomy (naming fs1) t = genome_taxonomy (naming fs) t)
            ∧ (∀ t m, genome_taxonomy (naming fs1) t = GTDB m →
                      genome_taxonomy (naming fs) t = GTDB m)) as Hplace.
  { intros name fs1 Hu Hp. unfold place in Hp.
    inv_bind Hp as mid Hmid. inv_bind Hp as viable Hviable.
    apply note_genus_naming in Hp. rewrite Hp. cbn. split.
    - intros t Ht. apply set_slot_ne. intros ->. done.
    - intros t m. unfold set_slot. destruct (bool_decide (t = t0)); [discriminate | done]. }
  destruct (genome_taxonomy (naming fs) t0) as [|a name|m0] eqn:Ht0.
  - destruct (taxon_fill fs t0).
    + destruct (bool_decide (t0 = species)).
      * destruct (Str.eqb (species_name fs) ""); [by inv_Ok H | by eapply Hplace].
      * by eapply Hplace.
    + apply note_genus_naming in H. by rewrite H.
  - apply note_genus_naming in H. by rewrite H.
  - by inv_Ok H.
Qed.

Lemma fill_slots l : ∀ fs fs',
  foldE (fill_step median g parent_novelty prenamed_taxons) l fs = Ok fs' →
  (∀ t, genome_taxonomy (naming fs) t ≠ Unset →
        genome_taxonomy (naming fs') t = genome_taxonomy (naming fs) t)
  ∧ (∀ t m, genome_taxonomy (naming fs') t = GTDB m → genome_taxonomy (naming fs) t = GTDB m).
Proof.
  induction l as [|t0 l IH]; intros fs fs' H; simpl in H.
  - by inv_Ok H.
  - inv_bind H as fs1 Hstep. apply fill_step_slots in Hstep as [Hk1 Hg1].
    destruct (IH _ _ H) as [Hk Hg]. split.
    + intros t Ht. rewrite Hk; [by apply Hk1|]. by rewrite Hk1.
    + intros t m Hm. by apply Hg1, Hg.
Qed.

End fill_slots.

Lemma render_without_reference domain gt :
  (∀ t m, gt t ≠ GTDB m) →
  render domain gt = append_names domain (clade_names gt all_taxa).
Proof. intros H. unfold render. apply render_steps_no_GTDB. intros t m _. apply H. Qed.

Lemma ranks_below_other t : t ∉ ranks_below t.
Proof.
  destruct t; unfold ranks_below; simpl; intros H;
    repeat (apply elem_of_cons in H as [H|H]; [discriminate|]); by apply elem_of_nil in H.
Qed.

(** C6, as amended.  Take a genome that is named for the first time (it
    has no row in the genome table and no row of the node-naming table has
    a name made of its id) and whose walk comes to a reference node [n]:
    an ancestor whose first novelty bound is empty, with no entry in the
    ledger.  The walk ends at [n].  When [n] is labelled with the rank of
    phylum and is closer to the median of phylum than its parent
    ([novelty_index] is 0), the walk records nothing, and the string
    rendered is the domain followed by [";"] and the name of every rank
    that has one.  Otherwise the walk records [n] at the rank before
    [novelty_index], and the string rendered is the decimal id of [n], in
    place of the domain and of the ranks above, followed by [";"] and the
    name of every rank below that has one; it is the bare node id exactly
    when no rank below has a name. *)
Theorem rendered_reference_node
    (tree_df : list tree_row) (domain : string) (red_cutoffs : list float)
    (rs rs' : run_state) (g : string) (parents : list Z)
    (before after : list (Z * (string * string))) (n : Z) (label : string)
    (st1 : walk_state) :
  g ∉ (run_genomes rs).*1 →
  (∀ r t, r ∈ run_nodes rs → clade_of r ≠ mint t g) →
  run_ledger rs !! n = None →
  parent_bounds tree_df parents = Ok (before ++ (n, ("", label)) :: after) →
  walk_until tree_df (median_reds domain red_cutoffs) g before (walk_start rs) = Ok (st1, false) →
  name_genome tree_df domain red_cutoffs rs (g, parents) = Ok rs' →
  ∃ child_red parent_red median_red i st gt,
    get_child_red tree_df n = Ok child_red
    ∧ get_node_red tree_df n = Ok parent_red
    ∧ dict_get (median_reds domain red_cutoffs) label = Ok median_red
    ∧ taxa_index label = Ok i
    ∧ walk_genome tree_df domain red_cutoffs rs g parents
      = Ok (before ++ (n, ("", label)) :: after, st)
    ∧ (∀ t, genome_taxonomy st t ≠ Unset → gt t = genome_taxonomy st t)
    ∧ run_genomes rs' = run_genomes rs ++ [(g, render domain gt)]
    ∧ (novelty_index (child_red_closer child_red parent_red median_red) i = 0%nat →
         (∀ t m, genome_taxonomy st t ≠ GTDB m)
         ∧ render domain gt = append_names domain (clade_names gt all_taxa))
    ∧ (∀ k, novelty_index (child_red_closer child_red parent_red median_red) i = S k →
         ∃ t, all_taxa !! k = Some t
              ∧ genome_taxonomy st t = GTDB n
              ∧ render domain gt = append_names (Str.of_Z n) (clade_names gt (ranks_below t))
              ∧ (render domain gt = Str.of_Z n ↔ clade_names gt (ranks_below t) = [])).
Proof.
  intros HG Hrows Hledger Hbounds Hreach H.
  unfold name_genome in H. cbn [fst snd] in H. inv_bind H as [pn st] Hgenome.
  pose proof Hgenome as Hwalk. unfold walk_genome in Hwalk.
  fold (parent_bounds tree_df parents) in Hwalk. rewrite Hbounds in Hwalk.
  cbn [mbind result_bind] in Hwalk. fold (walk_start rs) in Hwalk.
  inv_bind Hwalk as st0 Hw. inv_Ok Hwalk.
  (* the rows added by the walk are rows of the genome *)
  assert (∃ new, nodes_output st = run_nodes rs ++ new ∧ Forall (λ r : node_name, r.2 = g) new)
    as (new & Hout & Hnew).
  { eapply (walk_rows g (run_nodes rs)) in Hw as (new & Hout & _ & Hnew).
    - exists new. split; [done|]. eapply Forall_impl; [exact Hnew|].
      intros r (t & _ & _ & Hr & _). exact Hr.
    - exists []. split; [by rewrite app_nil_r|]. split; [constructor | constructor]. }
  (* the walk comes to the reference node with its own names only *)
  assert (walk_own g n st1) as Hown1.
  { eapply walk_until_own; [intros v; by rewrite median_reds_no_empty_key | | | exact Hreach].
    - split; [done|]. split; [done|]. split; [done|]. by intros c.
    - intros pn0 Hin Hn.
      assert (get_info tree_df n = Ok ("", label)) as Hinfo.
      { apply (parent_bounds_info _ _ _ (n, ("", label)) Hbounds).
        apply elem_of_app. right. by left. }
      assert (get_info tree_df pn0.1 = Ok pn0.2) as Hinfo0.
      { apply (parent_bounds_info _ _ _ pn0 Hbounds). apply elem_of_app. by left. }
      rewrite Hn, Hinfo in Hinfo0. by injection Hinfo0 as <-. }
  rewrite (walk_until_walk _ _ _ _ _ _ _ Hreach) in Hw. cbn [walk] in Hw.
  inv_bind Hw as [st' stop] Hstep.
  apply reference_step in Hstep
    as (-> & _ & gt1 & cr & pr & mr & i & Hno & Hnamed & Hcr & Hpr & Hmr & Hi & Hrec);
    [|intros v; by rewrite median_reds_no_empty_key|done].
  inv_Ok Hw.
  assert (∀ t a c, genome_taxonomy st t = Clade a c → c = mint t g) as Hnamed'.
  { destruct (novelty_index (child_red_closer cr pr mr) i) as [|k].
    - by rewrite Hrec.
    - destruct Hrec as (t0 & _ & ->). intros t a c. unfold set_slot.
      destruct (bool_decide (t = t0)); [discriminate | apply Hnamed]. }
  (* nothing is inherited, and the loop over the ranks keeps what the walk has set *)
  unfold assemble_genome in H. inv_bind H as gt_inh Hinh. inv_bind H as fs Hfill. inv_Ok H.
  cbn [fst snd] in *. rewrite Hout in Hinh.
  apply (inherit_ancestors_own g) in Hinh; [|done..]. subst gt_inh.
  apply fill_slots in Hfill as [Hkept Hgtdb]. cbn [naming genome_taxonomy] in Hkept, Hgtdb.
  exists cr, pr, mr, i, st, (genome_taxonomy (naming fs)).
  repeat (split; [done|]). split.
  - intros Hidx. rewrite Hidx in Hrec.
    assert (∀ t m, genome_taxonomy st t ≠ GTDB m) as Hno' by (by rewrite Hrec).
    split; [done|]. apply render_without_reference.
    intros t m Hm. apply Hgtdb in Hm. by apply Hno' in Hm.
  - intros k Hidx. rewrite Hidx in Hrec. destruct Hrec as (t & Ht & Hst).
    exists t. split; [done|].
    assert (genome_taxonomy st t = GTDB n) as Hat by (by rewrite Hst, set_slot_eq).
    split; [done|]. apply render_at_reference.
    + rewrite Hkept; [done|]. by rewrite Hat.
    + intros t' m Hbelow Hm. apply Hgtdb in Hm. rewrite Hst in Hm.
      rewrite set_slot_ne in Hm; [by apply Hno in Hm|].
      intros ->. by apply ranks_below_other in Hbelow.
Qed.

Lemma rendered_reference_node_witness :
  ∃ child_red parent_red median_red i st gt,
    get_child_red Examples.truncate_tree 10000 = Ok child_red
    ∧ get_node_red Examples.truncate_tree 10000 = Ok parent_red
    ∧ dict_get (median_reds "d__Archaea" []) "genus" = Ok median_red
    ∧ taxa_index "genus" = Ok i
    ∧ walk_genome Examples.truncate_tree "d__Archaea" []
        {| run_ledger := ∅; run_nodes := []; run_genomes := [] |}
        "SPIREOTU_01842612" [10000; 0]
      = Ok ([] ++ (10000, ("", "genus")) :: [(0, ("", "class"))], st)
    ∧ (∀ t, genome_taxonomy st t ≠ Unset → gt t = genome_taxonomy st t)
    ∧ run_genomes (run_of Examples.truncate_tree "d__Archaea" []
                     [("SPIREOTU_01842612", [10000; 0])])
      = [] ++ [("SPIREOTU_01842612", render "d__Archaea" gt)]
    ∧ (novelty_index (child_red_closer child_red parent_red median_red) i = 0%nat →
         (∀ t m, genome_taxonomy st t ≠ GTDB m)
         ∧ render "d__Archaea" gt = append_names "d__Archaea" (clade_names gt all_taxa))
    ∧ (∀ k, novelty_index (child_red_closer child_red parent_red median_red) i = S k →
         ∃ t, all_taxa !! k = Some t
              ∧ genome_taxonomy st t = GTDB 10000
              ∧ render "d__Archaea" gt
                = append_names (Str.of_Z 10000) (clade_names gt (ranks_below t))
              ∧ (render "d__Archaea" gt = Str.of_Z 10000
                 ↔ clade_names gt (ranks_below t) = [])).
Proof.
  apply (rendered_reference_node Examples.truncate_tree "d__Archaea" []
           {| run_ledger := ∅; run_nodes := []; run_genomes := [] |}
           (run_of Examples.truncate_tree "d__Archaea" [] [("SPIREOTU_01842612", [10000; 0])])
           "SPIREOTU_01842612" [10000; 0] [] [(0, ("", "class"))] 10000 "genus"
           (walk_start {| run_ledger := ∅; run_nodes := []; run_genomes := [] |})).
  - apply not_elem_of_nil.
  - intros r t Hr. by apply elem_of_nil in Hr.
  - reflexivity.
  - vm_compute. reflexivity.
  - reflexivity.
  - vm_compute. reflexivity.
Defined.
